(** * Segment rule compiler and campaign delivery pipeline

    A shallow embedding of

    - [server/utils/segmentUtils.js] (and its copy in
      [server/routes/segments.js]): [buildSegmentQuery] / [processRule];
    - [server/routes/segments.js]: the create and preview handlers;
    - [server/routes/campaigns.js]: [sendCampaignMessages];
    - the vendor routes, listed after the campaign routes in
      [server/routes/campaigns.js]: the delivery-receipt handler and the
      simulated vendor;

    followed by the properties of the specification that concern them and
    by further properties of the same code. *)

From Stdlib Require Import List String Ascii ZArith QArith Bool Arith Lia.
From Stdlib Require Import DecimalString Qround.
Import ListNotations.
Close Scope Q_scope.
Open Scope string_scope.
Open Scope list_scope.

(* ================================================================= *)
(** * JavaScript values *)

(** What [JSON.parse] (or the JSON body parser) produces.  An object is the
    list of its own properties; reading a property returns the first binding
    of the key.  [undefined] is not a JSON value: a value that may be
    undefined is an [option json], [None] standing for [undefined]. *)
#[local] Unset Elimination Schemes.
Inductive json : Type :=
| JNull
| JBool (b : bool)
| JNum (q : Q)
| JStr (s : string)
| JArr (items : list json)
| JObj (props : list (string * json)).
#[local] Set Elimination Schemes.

Definition jsval : Type := option json.

(** Exceptions a JavaScript computation can raise. *)
Inductive exn : Type :=
| TypeError
| Error (message : string).

Inductive result (A : Type) : Type :=
| Ok (a : A)
| Throw (e : exn).
Arguments Ok {A} a.
Arguments Throw {A} e.

(** Own property of an object, first binding. *)
Fixpoint assoc (k : string) (props : list (string * json)) : jsval :=
  match props with
  | [] => None
  | (k', v) :: rest => if k =? k' then Some v else assoc k rest
  end.

(** [read k props f] is [f] applied to the value of property [k]: the
    value of [option_map f (assoc k props)], in the form the termination
    check of [processRule] needs (see [read_assoc]). *)
Definition read {B : Type} (k : string) (f : json -> B) :
  list (string * json) -> option B :=
  fix go (props : list (string * json)) : option B :=
    match props with
    | [] => None
    | (k', v) :: rest => if k =? k' then Some (f v) else go rest
    end.

(** [v.k] for a defined value [v]: a [TypeError] on [null], the own
    property on an object, [undefined] on a number, string, boolean or
    array (none of the names read below is a built-in property of these). *)
Definition get (v : json) (k : string) : result jsval :=
  match v with
  | JNull => Throw TypeError
  | JObj props => Ok (assoc k props)
  | _ => Ok None
  end.

(** [Boolean(v)]. *)
Definition truthy (v : jsval) : bool :=
  match v with
  | None => false
  | Some JNull => false
  | Some (JBool b) => b
  | Some (JNum q) => negb (Qeq_bool q 0)
  | Some (JStr s) => negb (s =? "")
  | Some (JArr _) => true
  | Some (JObj _) => true
  end.

(** [v === s] for a string literal [s]. *)
Definition is_str (s : string) (v : jsval) : bool :=
  match v with
  | Some (JStr s') => s' =? s
  | _ => false
  end.

Definition is_undefined (v : jsval) : bool :=
  match v with
  | None => true
  | Some _ => false
  end.

(** [ToString(v)] raises a [TypeError] exactly when it meets an object whose
    own [toString] property shadows the inherited method (a JSON value is
    never callable); an array is joined, so its elements are converted in
    turn, [null] elements being skipped. *)
Fixpoint toString_throws (v : json) : bool :=
  match v with
  | JObj props => negb (is_undefined (assoc "toString" props))
  | JArr items => existsb toString_throws items
  | _ => false
  end.

(** A bound parameter of the compiled query.  [parseFloat] and [parseInt]
    are kept symbolic: [ParseFloat v] is the number [parseFloat(v)]. *)
Inductive param : Type :=
| ParseFloat (v : jsval)
| ParseInt (v : jsval)
| Value (v : jsval).

(* ================================================================= *)
(** * The predicate compiler: [buildSegmentQuery] *)

Module Compiler.

(** [processRule] appends to the [params] array of the enclosing
    [buildSegmentQuery] call: a computation takes the array as it stands
    and returns it extended, or raises. *)
Definition compile (A : Type) : Type := list param -> result (A * list param).

Definition ret {A} (a : A) : compile A := fun ps => Ok (a, ps).

Definition throw {A} (e : exn) : compile A := fun _ => Throw e.

Definition bind {A B} (m : compile A) (k : A -> compile B) : compile B :=
  fun ps =>
    match m ps with
    | Ok (a, ps') => k a ps'
    | Throw e => Throw e
    end.

Notation "x <- m ;; k" := (bind m (fun x => k))
  (at level 61, m at next level, right associativity).
Notation "m ;; k" := (bind m (fun _ => k))
  (at level 61, right associativity).

(** [params.push(x1, ..., xn)]. *)
Definition push (xs : list param) : compile unit :=
  fun ps => Ok (tt, ps ++ xs).

(** Lifting of a property read. *)
Definition lift {A} (r : result A) : compile A :=
  fun ps =>
    match r with
    | Ok a => Ok (a, ps)
    | Throw e => Throw e
    end.

(** [parseFloat(v)]: the argument is converted to a string first. *)
Definition parseFloat (v : jsval) : compile param :=
  match v with
  | Some j => if toString_throws j then throw TypeError else ret (ParseFloat v)
  | None => ret (ParseFloat v)
  end.

Definition parseInt (v : jsval) : compile param :=
  match v with
  | Some j => if toString_throws j then throw TypeError else ret (ParseInt v)
  | None => ret (ParseInt v)
  end.

(** [xs.map(f)], the calls made from left to right. *)
Definition mapM {A B} (f : A -> compile B) : list A -> compile (list B) :=
  fix go (xs : list A) : compile (list B) :=
    match xs with
    | [] => ret []
    | x :: rest =>
        y <- f x ;;
        ys <- go rest ;;
        ret (y :: ys)
    end.

(** [value.k] where [value] passed the [value === undefined] test. *)
Definition prop (value : jsval) (k : string) : compile jsval :=
  match value with
  | Some v => lift (get v k)
  | None => throw TypeError
  end.

(** The leaf part of [processRule], from the destructuring
    [const { field, operator, value } = rule] on. *)
Definition processCondition (field operator value : jsval) : compile string :=
  if negb (truthy field) || negb (truthy operator) || is_undefined value then
    ret ""
  else if is_str "total_spent" field then
    if is_str "greater_than" operator then
      p <- parseFloat value ;; push [p] ;; ret "total_spent > ?"
    else if is_str "less_than" operator then
      p <- parseFloat value ;; push [p] ;; ret "total_spent < ?"
    else if is_str "equals" operator then
      p <- parseFloat value ;; push [p] ;; ret "total_spent = ?"
    else if is_str "between" operator then
      lo <- prop value "min" ;;
      p1 <- parseFloat lo ;;
      hi <- prop value "max" ;;
      p2 <- parseFloat hi ;;
      push [p1; p2] ;; ret "total_spent BETWEEN ? AND ?"
    else ret ""
  else if is_str "total_orders" field then
    if is_str "greater_than" operator then
      p <- parseInt value ;; push [p] ;; ret "total_orders > ?"
    else if is_str "less_than" operator then
      p <- parseInt value ;; push [p] ;; ret "total_orders < ?"
    else if is_str "equals" operator then
      p <- parseInt value ;; push [p] ;; ret "total_orders = ?"
    else ret ""
  else if is_str "last_visit" field then
    if is_str "days_ago" operator then
      p <- parseInt value ;; push [p] ;;
      ret "last_visit < DATE_SUB(NOW(), INTERVAL ? DAY)"
    else if is_str "within_days" operator then
      p <- parseInt value ;; push [p] ;;
      ret "last_visit >= DATE_SUB(NOW(), INTERVAL ? DAY)"
    else if is_str "is_null" operator then
      ret "last_visit IS NULL"
    else ret ""
  else if is_str "status" field then
    if is_str "equals" operator then
      push [Value value] ;; ret "status = ?"
    else if is_str "not_equals" operator then
      push [Value value] ;; ret "status != ?"
    else ret ""
  else if is_str "registration_date" field then
    if is_str "after" operator then
      push [Value value] ;; ret "registration_date > ?"
    else if is_str "before" operator then
      push [Value value] ;; ret "registration_date < ?"
    else if is_str "between" operator then
      a <- prop value "start" ;;
      b <- prop value "end" ;;
      push [Value a; Value b] ;; ret "registration_date BETWEEN ? AND ?"
    else ret ""
  else ret "".

(** [`(${conditions.join(` ${op} `)})`] when some condition is left after
    [filter(Boolean)], the empty string otherwise. *)
Definition joined (op : string) (compiled : list string) : string :=
  let conditions := filter (fun s => negb (s =? "")) compiled in
  if (0 <? List.length conditions)%nat then
    "(" ++ String.concat (" " ++ op ++ " ") conditions ++ ")"
  else "".

(** The text of [rule.operator] in the composite branch. *)
Definition op_text (operator : jsval) : string :=
  match operator with
  | Some (JStr s) => s
  | _ => ""
  end.

(** [processRule(rule)].  The [isFirst] argument is never read and is left
    out.  [rule.conditions.map] raises unless [rule.conditions] is an
    array. *)
Fixpoint processRule (rule : json) : compile string :=
  match rule with
  | JNull => throw TypeError
  | JObj props =>
      let operator := assoc "operator" props in
      if is_str "AND" operator || is_str "OR" operator then
        match read "conditions"
                (fun c => match c with
                          | JArr items => Some (mapM processRule items)
                          | _ => None
                          end) props with
        | Some (Some children) =>
            compiled <- children ;;
            ret (joined (op_text operator) compiled)
        | _ => throw TypeError
        end
      else processCondition (assoc "field" props) operator (assoc "value" props)
  | _ => processCondition None None None
  end.

Record compiled_query : Type := {
  query : string;
  params : list param
}.

Definition buildSegmentQuery (rules : json) : result compiled_query :=
  match processRule rules [] with
  | Ok (whereClause, ps) => Ok {| query := whereClause; params := ps |}
  | Throw e => Throw e
  end.

End Compiler.

(* ================================================================= *)
(** * The stores and the effects of a request handler *)

Module Store.

Inductive campaign_status : Type :=
| Draft | Scheduled | Sending | CampaignSent | CampaignFailed.

Inductive message_status : Type :=
| Pending | Sent | Delivered | Failed | Bounced.

(** A stored date: the server clock when the row was written
    ([CURRENT_TIMESTAMP], [new Date()]), or a text supplied by the caller. *)
Inductive datetime : Type :=
| At (clock : nat)
| Text (s : string).

(** A row of [segments]: [parsed] is what [JSON.parse] makes of its
    [rules] column, the rule tree or the exception. *)
Record segment : Type := {
  segment_id : nat;
  parsed : result json
}.

(** A row of [customers], with the columns the dispatch reads. *)
Record customer : Type := {
  cust_id : nat;
  cust_name : string;
  cust_email : string;
  cust_total_spent : string
}.

(** A row of [campaigns], with the columns the pipeline reads or writes. *)
Record campaign : Type := {
  camp_id : nat;
  camp_segment_id : nat;
  camp_message_template : string;
  camp_status : campaign_status;
  camp_sent_at : option datetime
}.

(** A row of [communication_log]. *)
Record message : Type := {
  id : nat;
  campaign_id : nat;
  customer_id : nat;
  message_content : string;
  status : message_status;
  sent_at : option datetime;
  delivered_at : option datetime;
  failure_reason : option string;
  vendor_message_id : option string;
  updated_at : datetime
}.

(** The statements handed to [pool.execute]. *)
Inductive statement : Type :=
| SelectSegmentRules (segmentId : nat)
| SelectCustomers (whereClause : string) (params : list param)
| CountCustomers (whereClause : string) (params : list param)
| SampleCustomers (whereClause : string) (params : list param)
| InsertSegment (rules : json) (audienceSize : nat)
| SelectSegment (segmentId : nat)
| InsertMessage (campaignId customerId : nat) (content : string)
| UpdateMessageSent (messageId : nat) (vendorMessageId : string)
| UpdateMessageFailed (messageId : nat) (reason : string)
| UpdateCampaignSent (campaignId : nat)
| UpdateCampaignFailed (campaignId : nat)
| SelectMessage (messageId : nat)
| UpdateMessageDelivered (messageId : nat) (deliveredAt : datetime)
    (vendorMessageId : string)
| UpdateMessageReceiptFailed (messageId : nat) (reason : string)
| SelectCampaignStats (campaignId : nat).

(** The world a handler runs in: the tables, the customer store as a
    query oracle (the result of [SELECT ... FROM customers WHERE
    whereClause] with the given parameters, or the error of the database),
    the server clock, and the outcomes that do not depend on the program:
    [faults] tells for each coming [pool.execute] call whether the
    database fails it (no failure once the list is used up), [randoms]
    holds the coming values of [Math.random()]; [issued] records the
    statements handed to the database so far. *)
Record world : Type := {
  segments : list segment;
  customers_where : string -> list param -> result (list customer);
  campaigns : list campaign;
  communication_log : list message;
  next_segment_id : nat;
  next_message_id : nat;
  clock : nat;
  faults : list bool;
  randoms : list Q;
  issued : list statement
}.

(** A handler step: it returns or raises, and leaves a world behind either
    way (what was written before an exception stays written). *)
Definition io (A : Type) : Type := world -> result A * world.

Definition ret {A} (a : A) : io A := fun w => (Ok a, w).

Definition throw {A} (e : exn) : io A := fun w => (Throw e, w).

Definition bind {A B} (m : io A) (k : A -> io B) : io B :=
  fun w =>
    match m w with
    | (Ok a, w') => k a w'
    | (Throw e, w') => (Throw e, w')
    end.

(** [try { m } catch (error) { handler(error) }]. *)
Definition try_catch {A} (m : io A) (handler : exn -> io A) : io A :=
  fun w =>
    match m w with
    | (Ok a, w') => (Ok a, w')
    | (Throw e, w') => handler e w'
    end.

Definition lift {A} (r : result A) : io A := fun w => (r, w).

Notation "x <- m ;; k" := (bind m (fun x => k))
  (at level 61, m at next level, right associativity).
Notation "m ;; k" := (bind m (fun _ => k))
  (at level 61, right associativity).

(** [for (const x of xs) { body(x) }]. *)
Fixpoint for_each {A} (xs : list A) (body : A -> io unit) : io unit :=
  match xs with
  | [] => ret tt
  | x :: rest => body x ;; for_each rest body
  end.

Definition set_tables (w : world) (cs : list campaign) (ms : list message)
  : world :=
  {| segments := segments w; customers_where := customers_where w;
     campaigns := cs; communication_log := ms;
     next_segment_id := next_segment_id w;
     next_message_id := next_message_id w;
     clock := clock w; faults := faults w; randoms := randoms w;
     issued := issued w |}.

(** The statement reaches the database: it is recorded and the next fault
    flag is consumed. *)
Definition submit (stmt : statement) (w : world) : bool * world :=
  (hd false (faults w),
   {| segments := segments w; customers_where := customers_where w;
      campaigns := campaigns w; communication_log := communication_log w;
      next_segment_id := next_segment_id w;
      next_message_id := next_message_id w;
      clock := clock w; faults := tl (faults w); randoms := randoms w;
      issued := issued w ++ [stmt] |}).

(** [await pool.execute(stmt)]: the database fails the call, leaving the
    tables as they are, or runs it. *)
Definition execute {A} (stmt : statement) (run : world -> result A * world)
  : io A :=
  fun w =>
    let (failed, w') := submit stmt w in
    if failed then (Throw (Error "database error"), w') else run w'.

(** [Math.random()]; [0] once the list is used up. *)
Definition random : io Q :=
  fun w =>
    (Ok (hd 0%Q (randoms w)),
     {| segments := segments w; customers_where := customers_where w;
        campaigns := campaigns w; communication_log := communication_log w;
        next_segment_id := next_segment_id w;
        next_message_id := next_message_id w;
        clock := clock w; faults := faults w; randoms := tl (randoms w);
        issued := issued w |}).

(** [Date.now()]. *)
Definition now : io nat := fun w => (Ok (clock w), w).

End Store.

(* ================================================================= *)
(** * The statements the handlers issue *)

Module Sql.
Import Store.

Definition with_campaigns (w : world) (cs : list campaign) : world :=
  set_tables w cs (communication_log w).

Definition with_messages (w : world) (ms : list message) : world :=
  set_tables w (campaigns w) ms.

(** [UPDATE communication_log SET ... WHERE id = ?]. *)
Definition update_message (messageId : nat) (f : message -> message)
  (ms : list message) : list message :=
  map (fun m => if (id m =? messageId)%nat then f m else m) ms.

(** [UPDATE campaigns SET ... WHERE id = ?]. *)
Definition update_campaign (campaignId : nat) (f : campaign -> campaign)
  (cs : list campaign) : list campaign :=
  map (fun c => if (camp_id c =? campaignId)%nat then f c else c) cs.

(** [SET status = 'sent', sent_at = CURRENT_TIMESTAMP,
    vendor_message_id = ?]; [updated_at] follows every update of a row. *)
Definition mark_sent (vendorMessageId : string) (t : nat) (m : message)
  : message :=
  {| id := id m; campaign_id := campaign_id m; customer_id := customer_id m;
     message_content := message_content m;
     status := Sent; sent_at := Some (At t);
     delivered_at := delivered_at m; failure_reason := failure_reason m;
     vendor_message_id := Some vendorMessageId; updated_at := At t |}.

(** [SET status = 'failed', failure_reason = ?]. *)
Definition mark_failed (reason : string) (t : nat) (m : message) : message :=
  {| id := id m; campaign_id := campaign_id m; customer_id := customer_id m;
     message_content := message_content m;
     status := Failed; sent_at := sent_at m;
     delivered_at := delivered_at m; failure_reason := Some reason;
     vendor_message_id := vendor_message_id m; updated_at := At t |}.

(** [SET status = 'delivered', delivered_at = ?, vendor_message_id = ?,
    updated_at = CURRENT_TIMESTAMP]. *)
Definition mark_delivered (deliveredAt : datetime) (vendorMessageId : string)
  (t : nat) (m : message) : message :=
  {| id := id m; campaign_id := campaign_id m; customer_id := customer_id m;
     message_content := message_content m;
     status := Delivered; sent_at := sent_at m;
     delivered_at := Some deliveredAt; failure_reason := failure_reason m;
     vendor_message_id := Some vendorMessageId; updated_at := At t |}.

(** [SET status = "sent", sent_at = CURRENT_TIMESTAMP]. *)
Definition campaign_sent (t : nat) (c : campaign) : campaign :=
  {| camp_id := camp_id c; camp_segment_id := camp_segment_id c;
     camp_message_template := camp_message_template c;
     camp_status := CampaignSent; camp_sent_at := Some (At t) |}.

(** [SET status = "failed"]. *)
Definition campaign_failed (c : campaign) : campaign :=
  {| camp_id := camp_id c; camp_segment_id := camp_segment_id c;
     camp_message_template := camp_message_template c;
     camp_status := CampaignFailed; camp_sent_at := camp_sent_at c |}.

(** The row [INSERT INTO communication_log (campaign_id, customer_id,
    message_content, status) VALUES (?, ?, ?, 'pending')] creates. *)
Definition pending_message (messageId campaignId customerId : nat)
  (content : string) (t : nat) : message :=
  {| id := messageId; campaign_id := campaignId; customer_id := customerId;
     message_content := content;
     status := Pending; sent_at := None; delivered_at := None;
     failure_reason := None; vendor_message_id := None; updated_at := At t |}.

Definition select_segment_rules (segmentId : nat) : io (list segment) :=
  execute (SelectSegmentRules segmentId)
    (fun w =>
       (Ok (filter (fun s => (segment_id s =? segmentId)%nat) (segments w)), w)).

Definition select_customers (whereClause : string) (ps : list param)
  : io (list customer) :=
  execute (SelectCustomers whereClause ps)
    (fun w => (customers_where w whereClause ps, w)).

(** [SELECT COUNT( * ) as count FROM customers WHERE ...]. *)
Definition count_customers (whereClause : string) (ps : list param)
  : io nat :=
  execute (CountCustomers whereClause ps)
    (fun w =>
       (match customers_where w whereClause ps with
        | Ok rows => Ok (List.length rows)
        | Throw e => Throw e
        end, w)).

(** [SELECT ... FROM customers WHERE ... LIMIT 10]. *)
Definition sample_customers (whereClause : string) (ps : list param)
  : io (list customer) :=
  execute (SampleCustomers whereClause ps)
    (fun w =>
       (match customers_where w whereClause ps with
        | Ok rows => Ok (firstn 10 rows)
        | Throw e => Throw e
        end, w)).

(** [INSERT INTO segments ...] with [JSON.stringify(value.rules)];
    returns [insertId].  The new row records the tree that was
    serialised. *)
Definition insert_segment (rules : json) (audienceSize : nat) : io nat :=
  execute (InsertSegment rules audienceSize)
    (fun w =>
       let i := next_segment_id w in
       (Ok i,
        {| segments := segments w ++ [{| segment_id := i; parsed := Ok rules |}];
           customers_where := customers_where w;
           campaigns := campaigns w;
           communication_log := communication_log w;
           next_segment_id := S i;
           next_message_id := next_message_id w;
           clock := clock w; faults := faults w; randoms := randoms w;
           issued := issued w |})).

Definition select_segment (segmentId : nat) : io (list segment) :=
  execute (SelectSegment segmentId)
    (fun w =>
       (Ok (filter (fun s => (segment_id s =? segmentId)%nat) (segments w)), w)).

(** Returns [insertId]. *)
Definition insert_message (campaignId customerId : nat) (content : string)
  : io nat :=
  execute (InsertMessage campaignId customerId content)
    (fun w =>
       let i := next_message_id w in
       (Ok i,
        {| segments := segments w; customers_where := customers_where w;
           campaigns := campaigns w;
           communication_log :=
             communication_log w ++
             [pending_message i campaignId customerId content (clock w)];
           next_segment_id := next_segment_id w;
           next_message_id := S i;
           clock := clock w; faults := faults w; randoms := randoms w;
           issued := issued w |})).

Definition update_message_sent (messageId : nat) (vendorMessageId : string)
  : io unit :=
  execute (UpdateMessageSent messageId vendorMessageId)
    (fun w =>
       (Ok tt,
        with_messages w
          (update_message messageId (mark_sent vendorMessageId (clock w))
             (communication_log w)))).

Definition update_message_failed (messageId : nat) (reason : string)
  : io unit :=
  execute (UpdateMessageFailed messageId reason)
    (fun w =>
       (Ok tt,
        with_messages w
          (update_message messageId (mark_failed reason (clock w))
             (communication_log w)))).

Definition update_campaign_sent (campaignId : nat) : io unit :=
  execute (UpdateCampaignSent campaignId)
    (fun w =>
       (Ok tt,
        with_campaigns w
          (update_campaign campaignId (campaign_sent (clock w))
             (campaigns w)))).

Definition update_campaign_failed (campaignId : nat) : io unit :=
  execute (UpdateCampaignFailed campaignId)
    (fun w =>
       (Ok tt,
        with_campaigns w
          (update_campaign campaignId campaign_failed (campaigns w)))).

(** [SELECT * FROM communication_log WHERE id = ?]. *)
Definition select_message (messageId : nat) : io (list message) :=
  execute (SelectMessage messageId)
    (fun w =>
       (Ok (filter (fun m => (id m =? messageId)%nat) (communication_log w)), w)).

Definition update_message_delivered (messageId : nat) (deliveredAt : datetime)
  (vendorMessageId : string) : io unit :=
  execute (UpdateMessageDelivered messageId deliveredAt vendorMessageId)
    (fun w =>
       (Ok tt,
        with_messages w
          (update_message messageId
             (mark_delivered deliveredAt vendorMessageId (clock w))
             (communication_log w)))).

Definition update_message_receipt_failed (messageId : nat) (reason : string)
  : io unit :=
  execute (UpdateMessageReceiptFailed messageId reason)
    (fun w =>
       (Ok tt,
        with_messages w
          (update_message messageId (mark_failed reason (clock w))
             (communication_log w)))).

(** [status IN ('sent', 'delivered', 'failed')]. *)
Definition processed_status (s : message_status) : bool :=
  match s with
  | Sent | Delivered | Failed => true
  | Pending | Bounced => false
  end.

(** A value of a result row as the driver hands it to the handler: a
    [COUNT] (a BIGINT) as a number, a [SUM] (a DECIMAL) as its decimal
    text, [NULL] as [null]. *)
Inductive column : Type :=
| Number (n : nat)
| Decimal (text : string)
| Null.

(** The text of a DECIMAL that has no fraction digits. *)
Definition decimal_text (n : nat) : string :=
  NilEmpty.string_of_uint (Nat.to_uint n).

(** [SUM(CASE WHEN ... THEN 1 ELSE 0 END)] over [rows], [n] of which
    satisfy the condition: [NULL] over no row. *)
Definition sum_of (rows : list message) (n : nat) : column :=
  match rows with
  | [] => Null
  | _ :: _ => Decimal (decimal_text n)
  end.

Record campaign_stats : Type := {
  total : nat;
  processed : column
}.

(** [SELECT COUNT( * ) as total, SUM(CASE WHEN status IN (...) THEN 1 ELSE 0
    END) as processed FROM communication_log WHERE campaign_id = ?]. *)
Definition stats_of (campaignId : nat) (ms : list message) : campaign_stats :=
  let rows := filter (fun m => (campaign_id m =? campaignId)%nat) ms in
  {| total := List.length rows;
     processed :=
       sum_of rows
         (List.length (filter (fun m => processed_status (status m)) rows)) |}.

Definition select_campaign_stats (campaignId : nat) : io campaign_stats :=
  execute (SelectCampaignStats campaignId)
    (fun w => (Ok (stats_of campaignId (communication_log w)), w)).

End Sql.

(* ================================================================= *)
(** * The request handlers *)

Module Http.
Import Store.

Inductive payload : Type :=
| ErrorMessage (error : string)
| ValidationFailed (details : string)
| SegmentCreated (segment : option segment)
| Preview (audienceSize : nat) (sampleCustomers : list customer)
| ReceiptProcessed.

(** [res.status(code).json(body)]. *)
Record response : Type := {
  code : nat;
  body : payload
}.

End Http.

(** ** [routes/segments.js] *)
Module Segments.
Import Store Sql Http.

(** The outcome of [segmentSchema.validate(req.body)]: the error details,
    or the validated value, of which the handler reads [rules] (an object,
    by the schema). *)
Inductive validation : Type :=
| Invalid (details : string)
| Valid (rules : json).

(** [!whereClause]. *)
Definition empty_clause (whereClause : string) : bool := whereClause =? "".

(** [POST /api/segments], from the validation of the body on. *)
Definition createSegment (validated : validation) : io response :=
  try_catch
    (match validated with
     | Invalid details =>
         ret {| code := 400; body := ValidationFailed details |}
     | Valid rules =>
         cq <- lift (Compiler.buildSegmentQuery rules) ;;
         if empty_clause (Compiler.query cq) then
           ret {| code := 400; body := ErrorMessage "Invalid segment rules" |}
         else
           audienceSize <- count_customers (Compiler.query cq) (Compiler.params cq) ;;
           insertId <- insert_segment rules audienceSize ;;
           newSegment <- select_segment insertId ;;
           ret {| code := 201; body := SegmentCreated (hd_error newSegment) |}
     end)
    (fun _ =>
       ret {| code := 500; body := ErrorMessage "Failed to create segment" |}).

(** [POST /api/segments/preview]; [rules] is [req.body.rules]. *)
Definition previewSegment (rules : jsval) : io response :=
  try_catch
    (match rules with
     | None =>
         ret {| code := 400; body := ErrorMessage "Rules are required" |}
     | Some r =>
         if negb (truthy rules) then
           ret {| code := 400; body := ErrorMessage "Rules are required" |}
         else
           cq <- lift (Compiler.buildSegmentQuery r) ;;
           if empty_clause (Compiler.query cq) then
             ret {| code := 400;
                    body := ErrorMessage "Invalid segment rules" |}
           else
             audienceSize <- count_customers (Compiler.query cq) (Compiler.params cq) ;;
             sampleCustomers <- sample_customers (Compiler.query cq) (Compiler.params cq) ;;
             ret {| code := 200;
                    body := Preview audienceSize sampleCustomers |}
     end)
    (fun _ =>
       ret {| code := 500; body := ErrorMessage "Failed to preview segment" |}).

End Segments.

(** ** [routes/campaigns.js] *)
Module Campaigns.
Import Store Sql.

(** An element of [communicationLogs]. *)
Record log_entry : Type := {
  log_id : nat;
  log_customer_id : nat;
  log_message_content : string
}.

(** What [sendCampaignMessages] resolves to. *)
Record summary : Type := {
  totalSent : nat;
  success : bool
}.

(** [error.message]. *)
Definition error_message (e : exn) : string :=
  match e with
  | Error message => message
  | TypeError => "TypeError"
  end.

(** Decimal text of a number inside a template literal. *)
Definition decimal (n : nat) : string :=
  NilEmpty.string_of_uint (Nat.to_uint n).

(** [Math.random() > 0.1]. *)
Definition vendor_accepts (r : Q) : bool := negb (Qle_bool r (1 # 10)).

Section Dispatch.

(** The three chained [messageTemplate.replace] calls that substitute
    [{name}], [{email}] and [{total_spent}]. *)
Variable personalize : string -> customer -> string.

(** The first loop: one [pending] row per customer, its [insertId] kept. *)
Fixpoint create_logs (campaignId : nat) (messageTemplate : string)
  (customers : list customer) : io (list log_entry) :=
  match customers with
  | [] => ret []
  | customer :: rest =>
      let personalizedMessage := personalize messageTemplate customer in
      insertId <- insert_message campaignId (cust_id customer)
                    personalizedMessage ;;
      logs <- create_logs campaignId messageTemplate rest ;;
      ret ({| log_id := insertId; log_customer_id := cust_id customer;
              log_message_content := personalizedMessage |} :: logs)
  end.

(** The body of the second loop. *)
Definition send_message (log : log_entry) : io unit :=
  try_catch
    (r <- random ;;
     if vendor_accepts r then
       t <- now ;;
       update_message_sent (log_id log)
         ("msg_" ++ decimal t ++ "_" ++ decimal (log_customer_id log))
     else
       update_message_failed (log_id log) "Vendor API error")
    (fun error => update_message_failed (log_id log) (error_message error)).

(** The [try] block of [sendCampaignMessages]. *)
Definition dispatch (campaignId segmentId : nat) (messageTemplate : string)
  : io summary :=
  rows <- select_segment_rules segmentId ;;
  match rows with
  | [] => throw (Error "Segment not found")
  | row :: _ =>
      rules <- lift (parsed row) ;;
      cq <- lift (Compiler.buildSegmentQuery rules) ;;
      customers <- select_customers (Compiler.query cq) (Compiler.params cq) ;;
      communicationLogs <- create_logs campaignId messageTemplate customers ;;
      for_each communicationLogs send_message ;;
      update_campaign_sent campaignId ;;
      ret {| totalSent := List.length communicationLogs; success := true |}
  end.

Definition sendCampaignMessages (campaignId segmentId : nat)
  (messageTemplate : string) : io summary :=
  try_catch (dispatch campaignId segmentId messageTemplate)
    (fun error => update_campaign_failed campaignId ;; throw error).

End Dispatch.

End Campaigns.

(** ** The vendor routes (second part of [routes/campaigns.js]) *)
Module Vendor.
Import Store Sql Http.

(** The body of a delivery receipt: a field is absent ([None]) or holds a
    number ([message_id]) or a string. *)
Record receipt : Type := {
  r_message_id : option nat;
  r_status : option string;
  r_delivered_at : option string;
  r_failed_at : option string;
  r_failure_reason : option string;
  r_vendor_message_id : option string
}.

(** [x || fallback] on an optional string. *)
Definition or_else (x : option string) (fallback : string) : string :=
  match x with
  | Some s => if s =? "" then fallback else s
  | None => fallback
  end.

(** [!message_id || !status]. *)
Definition missing_fields (req : receipt) : bool :=
  match r_message_id req, r_status req with
  | Some n, Some s => (n =? 0)%nat || (s =? "")
  | _, _ => true
  end.

(** [delivered_at || new Date()]. *)
Definition delivery_time (req : receipt) (t : nat) : datetime :=
  match r_delivered_at req with
  | Some s => if s =? "" then At t else Text s
  | None => At t
  end.

(** [a === b] on two values of a result row: values of different types
    are never equal. *)
Definition strict_equal (a b : column) : bool :=
  match a, b with
  | Number x, Number y => (x =? y)%nat
  | Decimal s, Decimal t => s =? t
  | Null, Null => true
  | _, _ => false
  end.

(** The update of the message by the receipt; the driver refuses an
    undefined bind parameter with a [TypeError]. *)
Definition apply_receipt (req : receipt) (messageId : nat) (outcome : string)
  : io unit :=
  if outcome =? "delivered" then
    t <- now ;;
    match r_vendor_message_id req with
    | Some vendorMessageId =>
        update_message_delivered messageId (delivery_time req t)
          vendorMessageId
    | None => throw TypeError
    end
  else if outcome =? "failed" then
    update_message_receipt_failed messageId
      (or_else (r_failure_reason req) "Unknown error")
  else ret tt.

(** [POST /api/vendor/delivery-receipt]. *)
Definition deliveryReceipt (req : receipt) : io response :=
  try_catch
    (match r_message_id req, r_status req with
     | Some messageId, Some outcome =>
         if missing_fields req then
           ret {| code := 400;
                  body := ErrorMessage
                            "Missing required fields: message_id, status" |}
         else
           logs <- select_message messageId ;;
           match logs with
           | [] => ret {| code := 404; body := ErrorMessage "Message not found" |}
           | log :: _ =>
               apply_receipt req messageId outcome ;;
               stats <- select_campaign_stats (campaign_id log) ;;
               (if strict_equal (processed stats) (Number (total stats))
                   && (0 <? total stats)%nat
                then update_campaign_sent (campaign_id log)
                else ret tt) ;;
               ret {| code := 200; body := ReceiptProcessed |}
           end
     | _, _ =>
         ret {| code := 400;
                body := ErrorMessage
                          "Missing required fields: message_id, status" |}
     end)
    (fun _ =>
       ret {| code := 500;
              body := ErrorMessage "Failed to process delivery receipt" |}).

End Vendor.

(* ================================================================= *)
(** * Concrete inputs *)

(** ** Rule trees *)

Definition condition (field operator : string) (value : json) : json :=
  JObj [("field", JStr field); ("operator", JStr operator); ("value", value)].

Definition composite (operator : string) (conditions : list json) : json :=
  JObj [("operator", JStr operator); ("conditions", JArr conditions)].

(** [{field: 'total_spent', operator: 'between',
      value: {min: 1000, max: 2000}}]. *)
Definition spent_between : json :=
  condition "total_spent" "between"
    (JObj [("min", JNum 1000%Q); ("max", JNum 2000%Q)]).

(** [{field: 'last_visit', operator: 'is_null'}], without a [value] key. *)
Definition never_visited : json :=
  JObj [("field", JStr "last_visit"); ("operator", JStr "is_null")].

(** [status = active AND (total_spent BETWEEN 1000 AND 2000 OR
    last_visit IS NULL OR <unsupported leaf>) AND total_orders > 5]. *)
Definition sample_tree : json :=
  composite "AND"
    [ condition "status" "equals" (JStr "active");
      composite "OR"
        [ spent_between;
          condition "last_visit" "is_null" JNull;
          condition "status" "greater_than" (JNum 3%Q) ];
      condition "total_orders" "greater_than" (JNum 5%Q) ].

(** ** Customers, worlds and receipts *)

Definition alice : Store.customer :=
  {| Store.cust_id := 1; Store.cust_name := "Alice";
     Store.cust_email := "alice@example.com";
     Store.cust_total_spent := "15000.00" |}.

Definition bob : Store.customer :=
  {| Store.cust_id := 2; Store.cust_name := "Bob";
     Store.cust_email := "bob@example.com";
     Store.cust_total_spent := "5000.00" |}.

(** The personalization of a template that has no placeholder. *)
Definition no_placeholder (template : string) (_ : Store.customer) : string :=
  template.

(** Segment 7 selects the active customers, Alice and Bob; campaign 3 has
    just been created for it, in status [sending], and has no message yet.
    The vendor accepts the first message and rejects the second. *)
Definition sample_world : Store.world :=
  {| Store.segments :=
       [ {| Store.segment_id := 7;
            Store.parsed := Ok (condition "status" "equals" (JStr "active")) |} ];
     Store.customers_where :=
       (fun whereClause _ =>
          if whereClause =? "status = ?" then Ok [alice; bob]
          else Throw (Error "You have an error in your SQL syntax"));
     Store.campaigns :=
       [ {| Store.camp_id := 3; Store.camp_segment_id := 7;
            Store.camp_message_template := "Big sale today!";
            Store.camp_status := Store.Sending;
            Store.camp_sent_at := None |} ];
     Store.communication_log := [];
     Store.next_segment_id := 8;
     Store.next_message_id := 1;
     Store.clock := 100;
     Store.faults := [];
     Store.randoms := [(1 # 2)%Q; (1 # 20)%Q];
     Store.issued := [] |}.

(** The same world, where the database fails the fourth statement: the
    insertion of the message for Bob. *)
Definition interrupted_world : Store.world :=
  {| Store.segments := Store.segments sample_world;
     Store.customers_where := Store.customers_where sample_world;
     Store.campaigns := Store.campaigns sample_world;
     Store.communication_log := [];
     Store.next_segment_id := 8;
     Store.next_message_id := 1;
     Store.clock := 100;
     Store.faults := [false; false; false; true];
     Store.randoms := [(1 # 2)%Q; (1 # 20)%Q];
     Store.issued := [] |}.

(** The world at the end of the send loop of campaign 3, before the
    campaign itself is updated: message 1 is [sent], message 2 is
    [failed], the campaign is still [sending]. *)
Definition receipt_world : Store.world :=
  {| Store.segments := Store.segments sample_world;
     Store.customers_where := Store.customers_where sample_world;
     Store.campaigns := Store.campaigns sample_world;
     Store.communication_log :=
       [ Sql.mark_sent "msg_100_1" 100
           (Sql.pending_message 1 3 1 "Big sale today!" 100);
         Sql.mark_failed "Vendor API error" 100
           (Sql.pending_message 2 3 2 "Big sale today!" 100) ];
     Store.next_segment_id := 8;
     Store.next_message_id := 3;
     Store.clock := 130;
     Store.faults := [];
     Store.randoms := [];
     Store.issued := [] |}.

(** The vendor reports message 1 delivered. *)
Definition delivered_receipt : Vendor.receipt :=
  {| Vendor.r_message_id := Some 1;
     Vendor.r_status := Some "delivered";
     Vendor.r_delivered_at := Some "2025-09-14T10:00:30.000Z";
     Vendor.r_failed_at := None;
     Vendor.r_failure_reason := None;
     Vendor.r_vendor_message_id := Some "vendor_130_1" |}.

(** The vendor reports message 2, which failed at dispatch, delivered. *)
Definition late_delivery : Vendor.receipt :=
  {| Vendor.r_message_id := Some 2;
     Vendor.r_status := Some "delivered";
     Vendor.r_delivered_at := Some "2025-09-14T10:00:30.000Z";
     Vendor.r_failed_at := None;
     Vendor.r_failure_reason := None;
     Vendor.r_vendor_message_id := Some "vendor_130_2" |}.

(** The vendor reports message 2 failed, with its own reason. *)
Definition repeated_failure : Vendor.receipt :=
  {| Vendor.r_message_id := Some 2;
     Vendor.r_status := Some "failed";
     Vendor.r_delivered_at := None;
     Vendor.r_failed_at := Some "2025-09-14T10:00:30.000Z";
     Vendor.r_failure_reason := Some "Network timeout";
     Vendor.r_vendor_message_id := None |}.

(** The world the dispatch of campaign 3 leaves behind [sample_world]. *)
Definition dispatched_world : Store.world :=
  snd (Campaigns.sendCampaignMessages no_placeholder 3 7 "Big sale today!"
         sample_world).

(** The world in which the [try] block of the dispatch raises, started
    from [interrupted_world]. *)
Definition interruption : Store.world :=
  snd (Campaigns.dispatch no_placeholder 3 7 "Big sale today!"
         interrupted_world).

(** The worlds the receipts leave behind [receipt_world]. *)
Definition delivered_world : Store.world :=
  snd (Vendor.deliveryReceipt delivered_receipt receipt_world).

Definition late_delivery_world : Store.world :=
  snd (Vendor.deliveryReceipt late_delivery receipt_world).

Definition repeated_failure_world : Store.world :=
  snd (Vendor.deliveryReceipt repeated_failure receipt_world).

(* ================================================================= *)
(** * Notions used in the statements *)

(** The node is a composite: its [operator] is ['AND'] or ['OR']. *)
Definition is_composite (props : list (string * json)) : bool :=
  is_str "AND" (assoc "operator" props) || is_str "OR" (assoc "operator" props).

(** The children of a node: the elements of [conditions] when the node is a
    composite whose [conditions] is an array. *)
Definition children (rule : json) : option (list json) :=
  match rule with
  | JObj props =>
      if is_composite props then
        match assoc "conditions" props with
        | Some (JArr items) => Some items
        | _ => None
        end
      else None
  | _ => None
  end.

(** ** Rule trees: leaves, placeholders, validity *)
Module RuleTree.
Import Compiler.

(** The leaf conditions of a rule tree, left to right, depth first: a node
    with children contributes the leaves of its children in order, any
    other node is a leaf. *)
Fixpoint leaves (rule : json) : list json :=
  match rule with
  | JObj props =>
      if is_composite props then
        match read "conditions"
                (fun c => match c with
                          | JArr items => Some (flat_map leaves items)
                          | _ => None
                          end) props with
        | Some (Some ls) => ls
        | _ => [rule]
        end
      else [rule]
  | _ => [rule]
  end.

(** What a leaf compiles to when compiled on its own: its comparison and
    the values it appends (nothing when it raises). *)
Definition leaf_expression (leaf : json) : string :=
  match processRule leaf [] with
  | Ok (q, _) => q
  | Throw _ => ""
  end.

Definition leaf_values (leaf : json) : list param :=
  match processRule leaf [] with
  | Ok (_, d) => d
  | Throw _ => []
  end.

(** The leaves retained in the compiled expression: those that do not
    compile to the empty expression. *)
Definition retained_leaves (rule : json) : list json :=
  filter (fun leaf => negb (leaf_expression leaf =? "")) (leaves rule).

(** Number of positional [?] placeholders of an expression. *)
Fixpoint placeholders (s : string) : nat :=
  match s with
  | EmptyString => 0
  | String c s' => (if Ascii.eqb c "?" then 1 else 0) + placeholders s'
  end.

(** Number of values a retained leaf binds, by its operator: two for
    [between], none for [is_null], one for every other operator. *)
Definition operator_arity (operator : jsval) : nat :=
  if is_str "between" operator then 2
  else if is_str "is_null" operator then 0
  else 1.

Definition arity (leaf : json) : nat :=
  match leaf with
  | JObj props => operator_arity (assoc "operator" props)
  | _ => 1
  end.

(** Values of the shapes the operator table lists: a number, a string
    (status, date), or no value ([null]). *)
Definition primitive (v : json) : bool :=
  match v with
  | JNull | JBool _ | JNum _ | JStr _ => true
  | JArr _ | JObj _ => false
  end.

Definition nonempty_string (v : jsval) : bool :=
  match v with
  | Some (JStr s) => negb (s =? "")
  | _ => false
  end.

(** A valid leaf: non-empty [field] and [operator], a defined [value] whose
    shape is the one the operator takes: an object of bounds for
    [between], a primitive otherwise. *)
Definition valid_condition (field operator value : jsval) : bool :=
  nonempty_string field && nonempty_string operator &&
  match value with
  | None => false
  | Some v =>
      if is_str "between" operator then
        match v with
        | JObj bounds => forallb (fun kv => primitive (snd kv)) bounds
        | _ => false
        end
      else primitive v
  end.

(** A valid rule tree: every composite has an array of valid rules, every
    other node is a valid leaf. *)
Fixpoint valid_rule (rule : json) : bool :=
  match rule with
  | JObj props =>
      if is_composite props then
        match read "conditions"
                (fun c => match c with
                          | JArr items => Some (forallb valid_rule items)
                          | _ => None
                          end) props with
        | Some (Some ok) => ok
        | _ => false
        end
      else valid_condition (assoc "field" props) (assoc "operator" props)
             (assoc "value" props)
  | _ => false
  end.

(** What [sample_tree] compiles to. *)
Definition sample_compiled : compiled_query :=
  {| query :=
       "(status = ? AND (total_spent BETWEEN ? AND ? OR last_visit IS NULL) AND total_orders > ?)";
     params :=
       [ Value (Some (JStr "active"));
         ParseFloat (Some (JNum 1000%Q));
         ParseFloat (Some (JNum 2000%Q));
         ParseInt (Some (JNum 5%Q)) ] |}.

End RuleTree.

(** ** Runs of the compiler *)
Module Frames.
Import Compiler.

(** A computation only appends to [params], and what it returns and
    appends does not depend on what the array held before. *)
Definition framed {A} (m : compile A) : Prop :=
  forall ps,
    m ps = match m [] with
           | Ok (a, d) => Ok (a, ps ++ d)
           | Throw e => Throw e
           end.

(** The results of compiling each rule of a list on its own, put together
    the way [map] does: the first exception wins, the appended parameters
    follow each other. *)
Fixpoint sequence (rs : list (result (string * list param))) :
  result (list string * list param) :=
  match rs with
  | [] => Ok ([], [])
  | Ok (q, d) :: rest =>
      match sequence rest with
      | Ok (qs, ds) => Ok (q :: qs, d ++ ds)
      | Throw e => Throw e
      end
  | Throw e :: _ => Throw e
  end.

End Frames.

(** ** Worlds and rows before and after a step *)
Module Pipeline.
Import Store Sql.

Definition respects {A} (R : world -> world -> Prop) (m : io A) : Prop :=
  forall w r w', m w = (r, w') -> R w w'.

(** The same, for the runs that raise. *)
Definition respects_raising {A} (R : world -> world -> Prop) (m : io A)
  : Prop :=
  forall w e w', m w = (Throw e, w') -> R w w'.

(** The step leaves the [campaigns] table and the clock as they are. *)
Definition same_campaigns (w w' : world) : Prop :=
  campaigns w' = campaigns w /\ clock w' = clock w.

(** The same message: a step may change its status and the columns that
    go with it, never the message it is. *)
Definition same_row (m m' : message) : Prop :=
  id m' = id m /\ campaign_id m' = campaign_id m /\
  customer_id m' = customer_id m /\ message_content m' = message_content m.

(** A status the dispatch loop leaves a message in. *)
Definition settled (s : message_status) : bool :=
  match s with
  | Sent | Failed => true
  | Pending | Delivered | Bounced => false
  end.

(** The effect of the send attempts for the messages [ids] on a row: it is
    settled if it is one of them, untouched otherwise. *)
Definition settles (ids : list nat) (m m' : message) : Prop :=
  same_row m m' /\
  (In (id m) ids -> settled (status m') = true) /\
  (~ In (id m) ids -> m' = m).

(** The messages of a campaign, and the three counts
    [GET /api/campaigns] reports for it. *)
Definition messages_of (campaignId : nat) (ms : list message) : list message :=
  filter (fun m => (campaign_id m =? campaignId)%nat) ms.

Definition is_sent (m : message) : bool :=
  match status m with Sent => true | _ => false end.

Definition is_failed (m : message) : bool :=
  match status m with Failed => true | _ => false end.

Definition total_messages (campaignId : nat) (ms : list message) : nat :=
  List.length (messages_of campaignId ms).

Definition sent_messages (campaignId : nat) (ms : list message) : nat :=
  List.length (filter is_sent (messages_of campaignId ms)).

Definition failed_messages (campaignId : nat) (ms : list message) : nat :=
  List.length (filter is_failed (messages_of campaignId ms)).

(** The log after a step: every row it had is still there, as the same
    message, followed by the rows created for the campaign meanwhile. *)
Definition extends (campaignId : nat) (ms ms' : list message) : Prop :=
  exists created,
    Forall2 same_row (ms ++ created) ms' /\
    Forall (fun m => campaign_id m = campaignId) created.

Definition grows (campaignId : nat) (w w' : world) : Prop :=
  extends campaignId (communication_log w) (communication_log w').

End Pipeline.

(** ** What the first loop of the dispatch produces *)
Module Phases.
Import Store Sql Campaigns.

Section Dispatch.
Variable personalize : string -> customer -> string.

(** The rows the first loop creates, the first with identifier [i]. *)
Fixpoint pending_rows (i campaignId : nat) (messageTemplate : string)
  (t : nat) (customers : list customer) : list message :=
  match customers with
  | [] => []
  | customer :: rest =>
      pending_message i campaignId (cust_id customer)
        (personalize messageTemplate customer) t
      :: pending_rows (S i) campaignId messageTemplate t rest
  end.

(** The elements it pushes on [communicationLogs]. *)
Fixpoint entries (i : nat) (messageTemplate : string)
  (customers : list customer) : list log_entry :=
  match customers with
  | [] => []
  | customer :: rest =>
      {| log_id := i; log_customer_id := cust_id customer;
         log_message_content := personalize messageTemplate customer |}
      :: entries (S i) messageTemplate rest
  end.

(** The [INSERT] statements it issues. *)
Definition inserts (campaignId : nat) (messageTemplate : string)
  (customers : list customer) : list statement :=
  map (fun customer =>
         InsertMessage campaignId (cust_id customer)
           (personalize messageTemplate customer)) customers.

End Dispatch.

End Phases.

(** ** What a receipt asks for *)
Module Receipts.
Import Store Sql Vendor.

(** The status a receipt asks for. *)
Definition receipt_status (outcome : string) : option message_status :=
  if outcome =? "delivered" then Some Delivered
  else if outcome =? "failed" then Some Failed
  else None.

(** What [apply_receipt] does to a row it updates. *)
Definition receipt_update (req : receipt) (outcome : string) (t : nat)
  (m : message) : message :=
  if outcome =? "delivered" then
    match r_vendor_message_id req with
    | Some v => mark_delivered (delivery_time req t) v t m
    | None => m
    end
  else if outcome =? "failed" then
    mark_failed (or_else (r_failure_reason req) "Unknown error") t m
  else m.

(** The completion test of the handler:
    [stats.processed === stats.total && stats.total > 0]. *)
Definition all_processed (stats : campaign_stats) : bool :=
  strict_equal (processed stats) (Number (total stats))
  && (0 <? total stats)%nat.

End Receipts.

(* ================================================================= *)
(** * Further code and notions *)

(** ** The expressions the compiler emits *)
Module Expressions.
Import Compiler.

(** The comparisons a leaf can emit: one per supported pair of field and
    operator. *)
Definition comparisons : list ((string * string) * string) :=
  [ (("total_spent", "greater_than"), "total_spent > ?");
    (("total_spent", "less_than"), "total_spent < ?");
    (("total_spent", "equals"), "total_spent = ?");
    (("total_spent", "between"), "total_spent BETWEEN ? AND ?");
    (("total_orders", "greater_than"), "total_orders > ?");
    (("total_orders", "less_than"), "total_orders < ?");
    (("total_orders", "equals"), "total_orders = ?");
    (("last_visit", "days_ago"), "last_visit < DATE_SUB(NOW(), INTERVAL ? DAY)");
    (("last_visit", "within_days"),
     "last_visit >= DATE_SUB(NOW(), INTERVAL ? DAY)");
    (("last_visit", "is_null"), "last_visit IS NULL");
    (("status", "equals"), "status = ?");
    (("status", "not_equals"), "status != ?");
    (("registration_date", "after"), "registration_date > ?");
    (("registration_date", "before"), "registration_date < ?");
    (("registration_date", "between"), "registration_date BETWEEN ? AND ?") ].

(** The comparison of a pair of field and operator, if it is supported. *)
Fixpoint comparison_of (field operator : string)
  (table : list ((string * string) * string)) : option string :=
  match table with
  | [] => None
  | ((f, o), c) :: rest =>
      if (f =? field) && (o =? operator) then Some c
      else comparison_of field operator rest
  end.

(** The text of a string value. *)
Definition text_of (v : jsval) : option string :=
  match v with
  | Some (JStr s) => Some s
  | _ => None
  end.

(** The expressions made of the fixed comparisons, joined by [AND] or [OR]
    inside parentheses. *)
#[local] Unset Elimination Schemes.
Inductive clause : string -> Prop :=
| clause_comparison pair c :
    In (pair, c) comparisons -> clause c
| clause_join op c cs :
    op = "AND" \/ op = "OR" ->
    Forall clause (c :: cs) ->
    clause ("(" ++ String.concat (" " ++ op ++ " ") (c :: cs) ++ ")").
#[local] Set Elimination Schemes.

(** What the operator of a supported pair binds. *)
Inductive binding : Type :=
| BindsFloat | BindsFloatRange | BindsInt | BindsNothing | BindsValue
| BindsValueRange.

Definition binding_of (field operator : string) : binding :=
  if field =? "total_spent" then
    if operator =? "between" then BindsFloatRange else BindsFloat
  else if field =? "total_orders" then BindsInt
  else if field =? "last_visit" then
    if operator =? "is_null" then BindsNothing else BindsInt
  else if field =? "status" then BindsValue
  else if operator =? "between" then BindsValueRange
  else BindsValue.

(** [value.k] once the read is known not to raise. *)
Definition member (value : jsval) (k : string) : jsval :=
  match value with
  | Some (JObj props) => assoc k props
  | _ => None
  end.

Definition bound (b : binding) (value : jsval) : list param :=
  match b with
  | BindsFloat => [ParseFloat value]
  | BindsFloatRange =>
      [ParseFloat (member value "min"); ParseFloat (member value "max")]
  | BindsInt => [ParseInt value]
  | BindsNothing => []
  | BindsValue => [Value value]
  | BindsValueRange => [Value (member value "start"); Value (member value "end")]
  end.

(** What the operator table gives for a leaf: its comparison and the
    values it binds, nothing when the pair of field and operator is not
    supported or the value is undefined. *)
Definition table_entry (field operator value : jsval)
  : string * list param :=
  match value, text_of field, text_of operator with
  | Some _, Some f, Some o =>
      match comparison_of f o comparisons with
      | Some c => (c, bound (binding_of f o) value)
      | None => ("", [])
      end
  | _, _, _ => ("", [])
  end.

End Expressions.

(** ** Invariants of the tables *)
Module Invariants.
Import Store Sql Pipeline.

(** The tables a read-only step leaves alone. *)
Definition same_tables (w w' : world) : Prop :=
  segments w' = segments w /\ campaigns w' = campaigns w /\
  communication_log w' = communication_log w /\
  next_segment_id w' = next_segment_id w /\
  next_message_id w' = next_message_id w.

(** Every stored segment has an identifier below the counter of the
    table. *)
Definition fresh_segment_ids (w : world) : Prop :=
  Forall (fun s => segment_id s < next_segment_id w) (segments w).

(** The same for the messages. *)
Definition fresh_message_ids (w : world) : Prop :=
  Forall (fun m => id m < next_message_id w) (communication_log w).

(** The database fails none of the next [n] statements. *)
Definition database_up (n : nat) (w : world) : Prop :=
  forall k, k < n -> nth k (faults w) false = false.

(** The customers the dispatch would address: what the statements before
    its first loop compute, or the exception they raise. *)
Definition audience (segmentId : nat) (w : world) : result (list customer) :=
  match filter (fun s => (segment_id s =? segmentId)%nat) (segments w) with
  | [] => Throw (Error "Segment not found")
  | row :: _ =>
      match parsed row with
      | Throw e => Throw e
      | Ok rules =>
          match Compiler.buildSegmentQuery rules with
          | Throw e => Throw e
          | Ok cq => customers_where w (Compiler.query cq) (Compiler.params cq)
          end
      end
  end.

(** What a send attempt leaves on the row: a [sent] message has its
    [sent_at] and the identifier given by the vendor, a [failed] one its
    reason. *)
Definition recorded (m : message) : Prop :=
  match status m with
  | Sent => sent_at m <> None /\ vendor_message_id m <> None
  | Failed => failure_reason m <> None
  | Pending | Delivered | Bounced => False
  end.

(** The effect of the send attempts for the messages [ids] on a row. *)
Definition attempted (ids : list nat) (m m' : message) : Prop :=
  same_row m m' /\
  (In (id m) ids -> recorded m') /\
  (~ In (id m) ids -> m' = m).

(** An [UPDATE] of the send loop, for one of the messages [ids]. *)
Definition send_statement (ids : list nat) (stmt : statement) : Prop :=
  match stmt with
  | UpdateMessageSent messageId _ | UpdateMessageFailed messageId _ =>
      In messageId ids
  | _ => False
  end.

(** A row does not go back to [pending], and does not become [bounced]. *)
Definition never_regresses (m m' : message) : Prop :=
  same_row m m' /\
  (status m <> Pending -> status m' <> Pending) /\
  (status m' = Bounced -> status m = Bounced).

(** The log after a step: the rows it had, none of which has regressed,
    followed by new rows. *)
Definition keeps_progress (w w' : world) : Prop :=
  exists kept added,
    communication_log w' = kept ++ added /\
    Forall2 never_regresses (communication_log w) kept.

(** What a receipt for the message [messageId] may do to a row. *)
Definition receipt_effect (messageId : nat) (m m' : message) : Prop :=
  same_row m m' /\
  sent_at m' = sent_at m /\
  (id m <> messageId -> m' = m) /\
  (status m' = status m \/ status m' = Delivered \/ status m' = Failed).

(** The step changes the log by what a receipt for [messageId] may do. *)
Definition touches_only (messageId : nat) (w w' : world) : Prop :=
  Forall2 (receipt_effect messageId)
    (communication_log w) (communication_log w').

(** The step leaves the log as it is. *)
Definition same_log (w w' : world) : Prop :=
  communication_log w' = communication_log w.

End Invariants.

(** ** The statistics of a campaign *)
Module Statistics.
Import Store Sql.

(** [status = 's']. *)
Definition has_status (s : message_status) (m : message) : bool :=
  match s, status m with
  | Pending, Pending | Sent, Sent | Delivered, Delivered | Failed, Failed
  | Bounced, Bounced => true
  | _, _ => false
  end.

(** The rows in status [s]. *)
Definition count_status (s : message_status) (rows : list message) : nat :=
  List.length (filter (has_status s) rows).

(** [SUM(CASE WHEN status = 's' THEN 1 ELSE 0 END)]. *)
Definition sum_case (s : message_status) (rows : list message) : column :=
  sum_of rows (count_status s rows).

(** The row [GET /api/campaigns/:id/stats] selects, as the driver hands it
    over: the count as a number, the sums as decimal texts or [NULL]. *)
Record statistics : Type := {
  total_messages : nat;
  sent_messages : column;
  failed_messages : column;
  delivered_messages : column;
  pending_messages : column
}.

Definition campaign_statistics (campaignId : nat) (ms : list message)
  : statistics :=
  let rows := filter (fun m => (campaign_id m =? campaignId)%nat) ms in
  {| total_messages := List.length rows;
     sent_messages := sum_case Sent rows;
     failed_messages := sum_case Failed rows;
     delivered_messages := sum_case Delivered rows;
     pending_messages := sum_case Pending rows |}.

(** The [bounced] messages of the campaign, which no column reports. *)
Definition bounced_messages (campaignId : nat) (ms : list message) : nat :=
  List.length
    (filter (has_status Bounced)
       (filter (fun m => (campaign_id m =? campaignId)%nat) ms)).

End Statistics.

(** ** The simulated vendor ([POST /api/vendor/send]) *)
Module VendorApi.
Import Store Sql Campaigns Vendor.

#[local] Set Warnings "-abstract-large-number".

(** The body of the request: a field is absent ([None]) or holds a number
    (the identifiers) or a string. *)
Record send_request : Type := {
  s_message_id : option nat;
  s_customer_id : option nat;
  s_message_content : option string;
  s_callback_url : option string
}.

Inductive send_payload : Type :=
| SendError (error : string)
| Accepted (message_id : nat) (vendor_message_id estimated_delivery : string)
| Rejected (message_id : nat) (failure_reason : option string).

Record send_response : Type := {
  send_code : nat;
  send_body : send_payload
}.

Definition failureReasons : list string :=
  [ "Invalid phone number"; "Customer opted out"; "Network timeout";
    "Rate limit exceeded"; "Invalid message format" ].

(** [failureReasons[Math.floor(r * failureReasons.length)]]. *)
Definition failure_reason_at (r : Q) : option string :=
  match Qfloor (r * 5) with
  | Z0 => nth_error failureReasons 0
  | Zpos p => nth_error failureReasons (Pos.to_nat p)
  | Zneg _ => None
  end.

(** [deliveryData]. *)
Definition deliveryData (message_id customer_id : nat) (iso : string)
  (t : nat) : receipt :=
  {| r_message_id := Some message_id;
     r_status := Some "delivered";
     r_delivered_at := Some iso;
     r_failed_at := None;
     r_failure_reason := None;
     r_vendor_message_id :=
       Some ("vendor_" ++ decimal t ++ "_" ++ decimal customer_id)%string |}.

(** [failureData]. *)
Definition failureData (message_id : nat) (iso : string)
  (failureReason : option string) : receipt :=
  {| r_message_id := Some message_id;
     r_status := Some "failed";
     r_delivered_at := None;
     r_failed_at := Some iso;
     r_failure_reason := failureReason;
     r_vendor_message_id := None |}.

(** [!message_id || !customer_id || !message_content]. *)
Definition missing_send_fields (req : send_request) : bool :=
  match s_message_id req, s_customer_id req, s_message_content req with
  | Some m, Some c, Some text => (m =? 0)%nat || (c =? 0)%nat || (text =? "")
  | _, _, _ => true
  end.

Section Callback.

(** [new Date(t).toISOString()]. *)
Variable toISOString : nat -> string.

(** [axios.post(callback_url, data, ...)]: what the request does to the
    world, and whether the promise is rejected. *)
Variable post : string -> receipt -> io unit.

(** [if (callback_url) { try { await axios.post(...) } catch { ... } }]. *)
Definition notify (callback_url : option string) (data : receipt) : io unit :=
  match callback_url with
  | Some url =>
      if url =? "" then ret tt
      else try_catch (post url data) (fun _ => ret tt)
  | None => ret tt
  end.

Definition vendorSend (req : send_request) : io send_response :=
  try_catch
    (match s_message_id req, s_customer_id req, s_message_content req with
     | Some message_id, Some customer_id, Some message_content =>
         if missing_send_fields req then
           ret {| send_code := 400;
                  send_body :=
                    SendError "Missing required fields: message_id, customer_id, message_content" |}
         else
           random ;;
           r <- random ;;
           if vendor_accepts r then
             d <- now ;;
             t <- now ;;
             let data := deliveryData message_id customer_id (toISOString d) t in
             notify (s_callback_url req) data ;;
             t' <- now ;;
             ret {| send_code := 200;
                    send_body :=
                      Accepted message_id
                        ("vendor_" ++ decimal t ++ "_" ++ decimal customer_id)%string
                        (toISOString (t' + 30000)) |}
           else
             r' <- random ;;
             let failureReason := failure_reason_at r' in
             d <- now ;;
             let data := failureData message_id (toISOString d) failureReason in
             notify (s_callback_url req) data ;;
             ret {| send_code := 400;
                    send_body := Rejected message_id failureReason |}
     | _, _, _ =>
         ret {| send_code := 400;
                send_body :=
                  SendError "Missing required fields: message_id, customer_id, message_content" |}
     end)
    (fun _ =>
       ret {| send_code := 500;
              send_body := SendError "Internal vendor API error" |}).

End Callback.

(** The callback is the receipt endpoint of the application: the promise
    is rejected when the answer is not a 2xx. *)
Definition receipt_endpoint (_ : string) (data : receipt) : io unit :=
  answer <- deliveryReceipt data ;;
  if (200 <=? Http.code answer)%nat && (Http.code answer <? 300)%nat then ret tt
  else throw (Error "Request failed").

End VendorApi.

(** ** Further worlds and requests *)
Module Scenarios.
Import Store Sql Http Segments Campaigns Vendor VendorApi.

Definition with_faults (fs : list bool) (w : world) : world :=
  {| segments := segments w; customers_where := customers_where w;
     campaigns := campaigns w; communication_log := communication_log w;
     next_segment_id := next_segment_id w;
     next_message_id := next_message_id w;
     clock := clock w; faults := fs; randoms := randoms w;
     issued := issued w |}.

Definition with_randoms (rs : list Q) (w : world) : world :=
  {| segments := segments w; customers_where := customers_where w;
     campaigns := campaigns w; communication_log := communication_log w;
     next_segment_id := next_segment_id w;
     next_message_id := next_message_id w;
     clock := clock w; faults := faults w; randoms := rs;
     issued := issued w |}.

Definition with_customers
  (answer : string -> list param -> result (list customer)) (w : world)
  : world :=
  {| segments := segments w; customers_where := answer;
     campaigns := campaigns w; communication_log := communication_log w;
     next_segment_id := next_segment_id w;
     next_message_id := next_message_id w;
     clock := clock w; faults := faults w; randoms := randoms w;
     issued := issued w |}.

(** [{field: 'status', operator: 'equals', value: 'active'}]. *)
Definition active_customers : json :=
  condition "status" "equals" (JStr "active").

(** The world after the creation of a second segment for the active
    customers, which gets the identifier 8. *)
Definition created_world : world :=
  snd (createSegment (Valid active_customers) sample_world).

Definition created_answer : response :=
  {| code := 201;
     body := SegmentCreated
               (Some {| segment_id := 8; parsed := Ok active_customers |}) |}.

(** The preview of the same rules. *)
Definition previewed_world : world :=
  snd (previewSegment (Some active_customers) sample_world).

Definition preview_answer : response :=
  {| code := 200; body := Preview 2 [alice; bob] |}.

(** The database fails the third statement of the creation: the read-back
    of the segment. *)
Definition readback_fault_world : world :=
  with_faults [false; false; true] sample_world.

Definition unread_world : world :=
  snd (createSegment (Valid active_customers) readback_fault_world).

(** The database fails the fourth statement of the dispatch, the insertion
    of the message for Bob, and the statement after it: the update of the
    campaign by the catch block. *)
Definition double_fault_world : world :=
  with_faults [false; false; false; true; true] sample_world.

Definition doubly_failed_world : world :=
  snd (sendCampaignMessages no_placeholder 3 7 "Big sale today!"
         double_fault_world).

(** No customer is active. *)
Definition quiet_world : world :=
  with_customers (fun _ _ => Ok []) sample_world.

(** Campaign 3 is dispatched a second time, in the world where it has its
    two messages; the vendor rejects both new messages. *)
Definition redispatched_world : world :=
  snd (sendCampaignMessages no_placeholder 3 7 "Big sale today!"
         receipt_world).

(** A receipt for a message that is not in the log. *)
Definition unknown_message : receipt :=
  {| r_message_id := Some 9;
     r_status := Some "delivered";
     r_delivered_at := None;
     r_failed_at := None;
     r_failure_reason := None;
     r_vendor_message_id := Some "vendor_130_9" |}.

(** A receipt whose status is not one the handler knows. *)
Definition read_receipt : receipt :=
  {| r_message_id := Some 1;
     r_status := Some "read";
     r_delivered_at := None;
     r_failed_at := None;
     r_failure_reason := None;
     r_vendor_message_id := None |}.

Definition unknown_message_world : world :=
  snd (deliveryReceipt unknown_message receipt_world).

Definition read_world : world :=
  snd (deliveryReceipt read_receipt receipt_world).

(** Message 1 of [receipt_world]. *)
Definition message_1 : message :=
  mark_sent "msg_100_1" 100 (pending_message 1 3 1 "Big sale today!" 100).

(** Message 1 is handed to the vendor, which is to call the receipt
    endpoint back; the vendor accepts it. *)
Definition send_message_1 : send_request :=
  {| s_message_id := Some 1;
     s_customer_id := Some 1;
     s_message_content := Some "Big sale today!";
     s_callback_url :=
       Some "http://localhost:5000/api/vendor/delivery-receipt" |}.

Definition vendor_world : world :=
  with_randoms [(3 # 4)%Q; (1 # 2)%Q] receipt_world.

(** A rendering of the dates. *)
Definition epoch_text (t : nat) : string := decimal t ++ "ms".

Definition accepted_answer : send_response :=
  {| send_code := 200;
     send_body := Accepted 1 "vendor_130_1" "30130ms" |}.

Definition notified_world : world :=
  snd (vendorSend epoch_text receipt_endpoint send_message_1 vendor_world).

End Scenarios.

(* ================================================================= *)
(** * Reasoning about JSON values and the compiler monad *)

(** Induction over a JSON value, with the hypothesis for every element of
    an array and every property value of an object. *)
Section JsonInduction.
  Variable P : json -> Prop.
  Hypothesis P_null : P JNull.
  Hypothesis P_bool : forall b, P (JBool b).
  Hypothesis P_num : forall q, P (JNum q).
  Hypothesis P_str : forall s, P (JStr s).
  Hypothesis P_arr : forall items, Forall P items -> P (JArr items).
  Hypothesis P_obj :
    forall props, Forall (fun kv => P (snd kv)) props -> P (JObj props).

Fixpoint json_ind (v : json) : P v :=
  match v with
  | JNull => P_null
  | JBool b => P_bool b
  | JNum q => P_num q
  | JStr s => P_str s
  | JArr items =>
      P_arr items
        ((fix all (l : list json) : Forall P l :=
            match l with
            | [] => Forall_nil P
            | x :: l' => Forall_cons x (json_ind x) (all l')
            end) items)
  | JObj props =>
      P_obj props
        ((fix all (l : list (string * json)) :
            Forall (fun kv => P (snd kv)) l :=
            match l with
            | [] => Forall_nil _
            | kv :: l' =>
                Forall_cons (P := fun kv => P (snd kv)) kv
                  (json_ind (snd kv)) (all l')
            end) props)
  end.

End JsonInduction.

Lemma read_assoc {B} (k : string) (f : json -> B) props :
  read k f props = option_map f (assoc k props).
Proof.
  induction props as [|[k' v] rest IH]; simpl; [reflexivity|].
  destruct (k =? k'); [reflexivity | exact IH].
Qed.

Lemma assoc_In k props v :
  assoc k props = Some v -> In (k, v) props.
Proof.
  induction props as [|[k' v'] rest IH]; simpl; [discriminate|].
  destruct (String.eqb_spec k k') as [->|_].
  - intros [= ->]. now left.
  - intros H. right. auto.
Qed.

Lemma is_str_true s v : is_str s v = true -> v = Some (JStr s).
Proof.
  destruct v as [[]|]; simpl; try discriminate.
  intros H. apply String.eqb_eq in H. now subst.
Qed.

(** Induction over a rule tree: a property holds of every node as soon as
    it holds of a node whenever it holds of its children. *)
Lemma rule_ind (P : json -> Prop) :
  (forall rule,
      (forall items, children rule = Some items -> Forall P items) ->
      P rule) ->
  forall rule, P rule.
Proof.
  intros step.
  assert (H : forall v,
             P v /\ (forall items, v = JArr items -> Forall P items)).
  { induction v as [| | | |items IH|props IH] using json_ind;
      try (split; [apply step; simpl; discriminate | discriminate]).
    - assert (Hall : Forall P items).
      { eapply Forall_impl; [|exact IH]. now intros x [Hx _]. }
      split; [apply step; simpl; discriminate|].
      now intros items' [= <-].
    - split; [|discriminate].
      apply step. simpl. intros items.
      destruct (is_composite props); [|discriminate].
      destruct (assoc "conditions" props) as [[| | | |items'|]|] eqn:Hc;
        try discriminate.
      intros [= <-]. apply assoc_In in Hc.
      rewrite Forall_forall in IH. specialize (IH _ Hc).
      now apply IH. }
  intros rule. apply H.
Qed.

Module CompilerFacts.
Import Compiler Frames.

(** [processRule] on an object, with the property reads written as
    [assoc]. *)
Lemma processRule_obj props :
  processRule (JObj props) =
  if is_composite props then
    match assoc "conditions" props with
    | Some (JArr items) =>
        compiled <- mapM processRule items ;;
        ret (joined (op_text (assoc "operator" props)) compiled)
    | _ => throw TypeError
    end
  else processCondition (assoc "field" props) (assoc "operator" props)
         (assoc "value" props).
Proof.
  unfold is_composite. simpl. rewrite read_assoc.
  destruct (_ || _); [|reflexivity].
  destruct (assoc "conditions" props) as [[]|]; reflexivity.
Qed.

(** A node with children compiles them in turn and joins the results. *)
Lemma processRule_children rule items :
  children rule = Some items ->
  exists props,
    rule = JObj props /\ is_composite props = true /\
    processRule rule =
    (compiled <- mapM processRule items ;;
     ret (joined (op_text (assoc "operator" props)) compiled)).
Proof.
  destruct rule as [| | | | |props]; try discriminate. simpl children.
  destruct (is_composite props) eqn:Hc; [|discriminate].
  destruct (assoc "conditions" props) as [[| | | |items'|]|] eqn:Hi;
    try discriminate.
  intros [= <-]. exists props. split; [reflexivity|]. split; [exact Hc|].
  now rewrite processRule_obj, Hc, Hi.
Qed.

(** A node without children is a leaf, or raises. *)
Lemma processRule_no_children rule :
  children rule = None ->
  processRule rule =
  match rule with
  | JNull => throw TypeError
  | JObj props =>
      if is_composite props then throw TypeError
      else processCondition (assoc "field" props) (assoc "operator" props)
             (assoc "value" props)
  | _ => processCondition None None None
  end.
Proof.
  destruct rule as [| | | | |props]; try reflexivity. simpl children.
  rewrite processRule_obj.
  destruct (is_composite props); [|reflexivity].
  destruct (assoc "conditions" props) as [[| | | |items'|]|];
    try reflexivity; discriminate.
Qed.

Lemma framed_ret {A} (a : A) : framed (ret a).
Proof. intros ps. unfold ret. now rewrite app_nil_r. Qed.

Lemma framed_throw {A} e : framed (@throw A e).
Proof. intros ps. reflexivity. Qed.

Lemma framed_push xs : framed (push xs).
Proof. intros ps. reflexivity. Qed.

Lemma framed_lift {A} (r : result A) : framed (lift r).
Proof. intros ps. destruct r; simpl; [now rewrite app_nil_r | reflexivity]. Qed.

Lemma framed_bind {A B} (m : compile A) (k : A -> compile B) :
  framed m -> (forall a, framed (k a)) -> framed (bind m k).
Proof.
  intros Hm Hk ps. unfold bind. rewrite (Hm ps).
  destruct (m []) as [[a d]|e]; [|reflexivity].
  rewrite (Hk a (ps ++ d)), (Hk a d).
  destruct (k a []) as [[b d']|e]; [|reflexivity].
  now rewrite app_assoc.
Qed.

Lemma framed_parseFloat v : framed (parseFloat v).
Proof.
  destruct v as [j|]; simpl; [destruct (toString_throws j)|];
    auto using framed_ret, framed_throw.
Qed.

Lemma framed_parseInt v : framed (parseInt v).
Proof.
  destruct v as [j|]; simpl; [destruct (toString_throws j)|];
    auto using framed_ret, framed_throw.
Qed.

Lemma framed_prop v k : framed (prop v k).
Proof. destruct v; simpl; auto using framed_lift, framed_throw. Qed.

Lemma framed_mapM {A B} (f : A -> compile B) xs :
  Forall (fun x => framed (f x)) xs -> framed (mapM f xs).
Proof.
  induction 1 as [|x rest Hx _ IH]; simpl.
  - apply framed_ret.
  - apply framed_bind; [exact Hx|]. intros y.
    apply framed_bind; [exact IH|]. intros ys. apply framed_ret.
Qed.

Create HintDb framed.
#[local] Hint Resolve framed_ret framed_throw framed_push framed_lift
  framed_parseFloat framed_parseInt framed_prop : framed.

Ltac framed_step :=
  match goal with
  | |- framed (if ?b then _ else _) => destruct b
  | |- framed (bind _ _) => apply framed_bind; [|intros ?]
  | |- framed _ => solve [auto with framed]
  end.

Lemma framed_processCondition field operator value :
  framed (processCondition field operator value).
Proof. unfold processCondition. repeat framed_step. Qed.

Lemma framed_processRule rule : framed (processRule rule).
Proof.
  induction rule as [rule IH] using rule_ind.
  destruct (children rule) as [items|] eqn:Hch.
  - destruct (processRule_children _ _ Hch) as (props & _ & _ & ->).
    apply framed_bind; [|intros; apply framed_ret].
    apply framed_mapM. now apply IH.
  - rewrite (processRule_no_children _ Hch).
    destruct rule as [| | | | |props]; try apply framed_processCondition.
    + apply framed_throw.
    + destruct (is_composite props);
        [apply framed_throw | apply framed_processCondition].
Qed.

Lemma mapM_sequence items :
  mapM processRule items [] =
  sequence (map (fun rule => processRule rule []) items).
Proof.
  induction items as [|x rest IH]; [reflexivity|].
  simpl. unfold bind at 1.
  destruct (processRule x []) as [[q d]|e]; [|reflexivity].
  assert (F : framed (mapM processRule rest)).
  { apply framed_mapM, Forall_forall. intros; apply framed_processRule. }
  unfold bind. rewrite (F d), IH.
  destruct (sequence _) as [[qs ds]|e]; reflexivity.
Qed.

Lemma sequence_Forall2 rs qs ds :
  sequence rs = Ok (qs, ds) ->
  exists each,
    Forall2 (fun r qd => r = Ok qd) rs each /\
    qs = map fst each /\ ds = List.concat (map snd each).
Proof.
  revert qs ds. induction rs as [|[[q d]|e] rest IH]; simpl; intros qs ds.
  - intros [= <- <-]. exists []. repeat constructor.
  - destruct (sequence rest) as [[qs' ds']|e]; [|discriminate].
    intros [= <- <-].
    destruct (IH _ _ eq_refl) as (each & Hall & -> & ->).
    exists ((q, d) :: each). repeat constructor. exact Hall.
  - discriminate.
Qed.

Lemma Forall2_sequence rs each :
  Forall2 (fun r qd => r = Ok qd) rs each ->
  sequence rs = Ok (map fst each, List.concat (map snd each)).
Proof.
  induction 1 as [|r [q d] rs each -> _ IH]; simpl; [reflexivity|].
  now rewrite IH.
Qed.

End CompilerFacts.

(* ================================================================= *)
(** * Leaves, placeholders and validity of a tree *)

Module RuleTreeFacts.
Import Compiler RuleTree.

Lemma leaves_children rule items :
  children rule = Some items -> leaves rule = flat_map leaves items.
Proof.
  destruct rule as [| | | | |props]; try discriminate. simpl.
  rewrite read_assoc.
  destruct (is_composite props); [|discriminate].
  destruct (assoc "conditions" props) as [[| | | |items'|]|];
    try discriminate.
  now intros [= <-].
Qed.

Lemma leaves_no_children rule :
  children rule = None -> leaves rule = [rule].
Proof.
  destruct rule as [| | | | |props]; try reflexivity. simpl.
  rewrite read_assoc.
  destruct (is_composite props); [|reflexivity].
  destruct (assoc "conditions" props) as [[| | | |items'|]|];
    try reflexivity; discriminate.
Qed.

Lemma valid_rule_children rule items :
  children rule = Some items ->
  valid_rule rule = forallb valid_rule items.
Proof.
  destruct rule as [| | | | |props]; try discriminate. simpl.
  rewrite read_assoc.
  destruct (is_composite props); [|discriminate].
  destruct (assoc "conditions" props) as [[| | | |items'|]|];
    try discriminate.
  now intros [= <-].
Qed.

Lemma valid_rule_no_children rule :
  children rule = None -> valid_rule rule = true ->
  exists props,
    rule = JObj props /\ is_composite props = false /\
    valid_condition (assoc "field" props) (assoc "operator" props)
      (assoc "value" props) = true.
Proof.
  destruct rule as [| | | | |props]; try discriminate. simpl.
  rewrite read_assoc.
  destruct (is_composite props) eqn:Hc.
  - destruct (assoc "conditions" props) as [[| | | |items'|]|];
      discriminate.
  - intros _ H. exists props. split; [reflexivity|]. split; assumption.
Qed.

Lemma placeholders_app s t :
  placeholders (s ++ t) = placeholders s + placeholders t.
Proof. induction s as [|c s IH]; simpl; [reflexivity|]. rewrite IH. lia. Qed.

Lemma placeholders_concat sep l :
  placeholders sep = 0 ->
  placeholders (String.concat sep l) = list_sum (map placeholders l).
Proof.
  intros Hsep. induction l as [|s [|t l] IH]; simpl in *; [reflexivity|lia|].
  rewrite !placeholders_app, Hsep, IH. reflexivity.
Qed.

End RuleTreeFacts.

(* ================================================================= *)
(** * What a leaf emits, and when a tree compiles *)

Module LeafFacts.
Import Compiler CompilerFacts RuleTree RuleTreeFacts.

(** Case analysis following the two [switch] statements. *)
Ltac switch_on :=
  match goal with
  | |- context [if is_str ?s ?x then _ else _] =>
      let E := fresh "E" in
      destruct (is_str s x) eqn:E;
      [apply is_str_true in E; subst x; simpl is_str; cbv iota |]
  end.

Ltac run_leaf :=
  unfold bind, parseFloat, parseInt, prop, lift, get, push, ret, throw;
  repeat (match goal with
    | |- context [toString_throws ?j] => destruct (toString_throws j)
    | |- context [match ?x with _ => _ end] => is_var x; destruct x
    | |- context [assoc ?k ?p] => destruct (assoc k p)
    end; cbv beta iota).

(** A leaf that returns has as many placeholders as it appended values;
    it appends nothing when its expression is empty, and as many values as
    its operator takes otherwise. *)
Lemma processCondition_emits field operator value q d :
  processCondition field operator value [] = Ok (q, d) ->
  placeholders q = List.length d /\
  (q = "" -> d = []) /\
  (q <> "" -> List.length d = operator_arity operator).
Proof.
  unfold processCondition.
  destruct (_ || _ || _).
  { unfold ret. intros [= <- <-]. repeat split; congruence. }
  repeat switch_on; run_leaf; try discriminate; intros [= <- <-];
    (split; [reflexivity
            | split; [discriminate || reflexivity
                     | reflexivity || congruence]]).
Qed.

Lemma leaf_emits rule q d :
  children rule = None ->
  processRule rule [] = Ok (q, d) ->
  placeholders q = List.length d /\
  (q = "" -> d = []) /\
  (q <> "" -> List.length d = arity rule).
Proof.
  intros Hch. rewrite (processRule_no_children _ Hch).
  destruct rule as [| | | | |props]; try discriminate;
    try (unfold processCondition, ret; simpl; intros [= <- <-];
         repeat split; congruence).
  destruct (is_composite props); [discriminate|].
  apply processCondition_emits.
Qed.

Lemma primitive_toString v : primitive v = true -> toString_throws v = false.
Proof. destruct v; simpl; congruence. Qed.

Lemma bounds_primitive bounds k j :
  forallb (fun kv => primitive (snd kv)) bounds = true ->
  assoc k bounds = Some j -> toString_throws j = false.
Proof.
  intros H Hk. apply assoc_In in Hk.
  rewrite forallb_forall in H. apply primitive_toString, (H _ Hk).
Qed.

Ltac run_valid :=
  unfold bind, parseFloat, parseInt, prop, lift, get, push, ret, throw;
  repeat (match goal with
    | H : primitive ?j = true |- context [toString_throws ?j] =>
        rewrite (primitive_toString j H)
    | H : forallb _ ?b = true, E : assoc ?k ?b = Some ?j
      |- context [toString_throws ?j] =>
        rewrite (bounds_primitive b k j H E)
    | |- context [match ?x with _ => _ end] => is_var x; destruct x
    | |- context [assoc ?k ?p] =>
        let E := fresh "E" in destruct (assoc k p) eqn:E
    end; cbv beta iota).

(** A valid leaf never raises. *)
Lemma valid_condition_compiles field operator value :
  valid_condition field operator value = true ->
  exists q d, processCondition field operator value [] = Ok (q, d).
Proof.
  unfold valid_condition. intros H.
  apply andb_prop in H as [_ Hv].
  destruct value as [v|]; [|discriminate].
  unfold processCondition.
  destruct (_ || _ || _); [unfold ret; eauto|].
  repeat switch_on; simpl in Hv; run_valid; try discriminate; eauto.
Qed.

End LeafFacts.

(* ================================================================= *)
(** * Properties of the predicate compiler *)

Module CompilerProperties.
Import Compiler Frames CompilerFacts RuleTree RuleTreeFacts LeafFacts.

Lemma Forall2_map_left {A B C} (f : A -> B) (R : B -> C -> Prop) l l' :
  Forall2 R (map f l) l' -> Forall2 (fun x y => R (f x) y) l l'.
Proof.
  revert l'. induction l as [|x l IH]; simpl; intros l' H; inversion H; subst;
    constructor; auto.
Qed.

Lemma Forall2_map_right {A B C} (f : A -> B) (R : B -> C -> Prop) l l' :
  Forall2 (fun x y => R (f x) y) l l' -> Forall2 R (map f l) l'.
Proof. induction 1; simpl; constructor; auto. Qed.

(** [map] over the children returns the children's own results. *)
Lemma mapM_each items qs ds :
  mapM processRule items [] = Ok (qs, ds) ->
  exists each,
    Forall2 (fun rule qd => processRule rule [] = Ok qd) items each /\
    qs = map fst each /\ ds = List.concat (map snd each).
Proof.
  rewrite mapM_sequence. intros H.
  destruct (sequence_Forall2 _ _ _ H) as (each & Hall & -> & ->).
  exists each. split; [|split; reflexivity].
  now apply Forall2_map_left in Hall.
Qed.

Lemma each_mapM items each ps :
  Forall2 (fun rule qd => processRule rule [] = Ok qd) items each ->
  mapM processRule items ps =
  Ok (map fst each, ps ++ List.concat (map snd each)).
Proof.
  intros Hall.
  assert (F : framed (mapM processRule items)).
  { apply framed_mapM, Forall_forall. intros; apply framed_processRule. }
  rewrite (F ps), mapM_sequence.
  now rewrite (Forall2_sequence _ each (Forall2_map_right _ _ _ _ Hall)).
Qed.

Lemma composite_operator props :
  is_composite props = true ->
  placeholders (" " ++ op_text (assoc "operator" props) ++ " ") = 0.
Proof.
  unfold is_composite. intros H. apply orb_prop in H as [H|H];
    apply is_str_true in H; rewrite H; reflexivity.
Qed.

Lemma placeholders_filter qs :
  list_sum (map placeholders (filter (fun s => negb (s =? "")) qs)) =
  list_sum (map placeholders qs).
Proof.
  induction qs as [|q qs IH]; simpl; [reflexivity|].
  destruct (String.eqb_spec q "") as [->|_]; simpl; now rewrite IH.
Qed.

Lemma placeholders_joined op qs :
  placeholders (" " ++ op ++ " ") = 0 ->
  placeholders (joined op qs) = list_sum (map placeholders qs).
Proof.
  intros Hop. unfold joined. rewrite <- placeholders_filter.
  destruct (filter _ qs) as [|q conds]; [reflexivity|].
  cbv beta iota zeta. change (0 <? _)%nat with true. cbv iota.
  rewrite !placeholders_app, (placeholders_concat _ _ Hop). simpl. lia.
Qed.

(** The parameters of a compiled tree are the values of its leaves in
    order, and there are as many of them as placeholders. *)
Lemma processRule_emission rule :
  forall q d,
    processRule rule [] = Ok (q, d) ->
    d = flat_map leaf_values (leaves rule) /\
    placeholders q = List.length d.
Proof.
  induction rule as [rule IH] using rule_ind. intros q d Hrun.
  destruct (children rule) as [items|] eqn:Hch.
  - specialize (IH _ eq_refl).
    destruct (processRule_children _ _ Hch) as (props & -> & Hc & Heq).
    rewrite Heq in Hrun. unfold bind in Hrun.
    destruct (mapM processRule items []) as [[qs ds]|e] eqn:Hmap;
      [|discriminate].
    unfold ret in Hrun. injection Hrun as <- <-.
    rewrite (leaves_children _ _ Hch).
    rewrite placeholders_joined by now apply composite_operator.
    destruct (mapM_each _ _ _ Hmap) as (each & Hall & -> & ->).
    clear Hmap Heq Hch Hc.
    induction Hall as [|child [q d] items each Hchild Hall IHall];
      [split; reflexivity|].
    inversion IH as [|? ? IHchild IHrest]; subst.
    destruct (IHall IHrest) as [Hd Hq].
    destruct (IHchild _ _ Hchild) as [Hd' Hq'].
    simpl. rewrite flat_map_app, length_app, <- Hd, <- Hd', <- Hq, <- Hq'.
    split; reflexivity.
  - rewrite (leaves_no_children _ Hch). simpl. rewrite app_nil_r.
    unfold leaf_values. rewrite Hrun. split; [reflexivity|].
    now apply (leaf_emits _ _ _ Hch Hrun).
Qed.

(** Every leaf listed by [leaves] is a node without children. *)
Lemma leaves_childless rule :
  forall leaf, In leaf (leaves rule) -> children leaf = None.
Proof.
  induction rule as [rule IH] using rule_ind. intros leaf Hin.
  destruct (children rule) as [items|] eqn:Hch.
  - specialize (IH _ eq_refl). rewrite (leaves_children _ _ Hch) in Hin.
    apply in_flat_map in Hin as (child & Hchild & Hin).
    rewrite Forall_forall in IH. exact (IH _ Hchild _ Hin).
  - rewrite (leaves_no_children _ Hch) in Hin.
    destruct Hin as [<-|[]]. exact Hch.
Qed.

(** A leaf binds [arity] values when retained, none otherwise. *)
Lemma leaf_values_arity leaf :
  children leaf = None ->
  List.length (leaf_values leaf) =
  if negb (leaf_expression leaf =? "") then arity leaf else 0.
Proof.
  intros Hch. unfold leaf_values, leaf_expression.
  destruct (processRule leaf []) as [[q d]|e] eqn:Hrun; [|reflexivity].
  destruct (leaf_emits _ _ _ Hch Hrun) as (_ & Hempty & Harity).
  destruct (String.eqb_spec q "") as [Hq|Hq]; simpl.
  - now rewrite (Hempty Hq).
  - exact (Harity Hq).
Qed.

Lemma length_leaf_values ls :
  (forall leaf, In leaf ls -> children leaf = None) ->
  List.length (flat_map leaf_values ls) =
  list_sum (map arity
              (filter (fun leaf => negb (leaf_expression leaf =? "")) ls)).
Proof.
  induction ls as [|leaf ls IH]; intros Hall; [reflexivity|].
  simpl. rewrite length_app, IH by (intros; apply Hall; now right).
  rewrite leaf_values_arity by (apply Hall; now left).
  destruct (negb _); reflexivity.
Qed.

(** A valid rule tree compiles. *)
Lemma valid_rule_compiles rule :
  valid_rule rule = true -> exists q d, processRule rule [] = Ok (q, d).
Proof.
  induction rule as [rule IH] using rule_ind. intros Hvalid.
  destruct (children rule) as [items|] eqn:Hch.
  - specialize (IH _ eq_refl).
    rewrite (valid_rule_children _ _ Hch) in Hvalid.
    destruct (processRule_children _ _ Hch) as (props & _ & _ & ->).
    assert (Heach : exists each,
               Forall2 (fun rule qd => processRule rule [] = Ok qd)
                 items each).
    { clear Hch. induction IH as [|child items Hchild _ IHitems].
      - exists []. constructor.
      - simpl in Hvalid. apply andb_prop in Hvalid as [Hv Hvs].
        destruct (Hchild Hv) as (q & d & Hrun).
        destruct (IHitems Hvs) as (each & Hall).
        exists ((q, d) :: each). now constructor. }
    destruct Heach as (each & Hall).
    unfold bind. rewrite (each_mapM _ _ [] Hall). unfold ret. eauto.
  - destruct (valid_rule_no_children _ Hch Hvalid) as (props & -> & Hc & Hv).
    rewrite processRule_obj, Hc. now apply valid_condition_compiles.
Qed.

(** ** The compiler on small inputs *)

(** The fixture of the specification: [status = active AND
    total_spent > 10000]. *)
Example compile_active_big_spenders :
  buildSegmentQuery
    (composite "AND"
       [ condition "status" "equals" (JStr "active");
         condition "total_spent" "greater_than" (JNum 10000%Q) ]) =
  Ok {| query := "(status = ? AND total_spent > ?)";
        params := [ Value (Some (JStr "active"));
                    ParseFloat (Some (JNum 10000%Q)) ] |}.
Proof. reflexivity. Qed.

(** A composite all of whose children are dropped compiles to the empty
    expression, and so does a composite of it. *)
Example compile_all_dropped :
  buildSegmentQuery
    (composite "OR"
       [ never_visited;
         composite "AND" [ condition "status" "between" (JNum 1%Q) ] ]) =
  Ok {| query := ""; params := [] |}.
Proof. reflexivity. Qed.

(** [between] on a [null] value reads a property of [null]. *)
Example compile_between_null_raises :
  buildSegmentQuery (condition "total_spent" "between" JNull) =
  Throw TypeError.
Proof. reflexivity. Qed.

(** A composite without [conditions] calls [map] on [undefined]. *)
Example compile_missing_conditions_raises :
  buildSegmentQuery (JObj [("operator", JStr "AND")]) = Throw TypeError.
Proof. reflexivity. Qed.

(** C8.  A composite node compiles every child, drops exactly the children
    whose expression is empty, joins the remaining expressions with its
    operator inside parentheses, and compiles to the empty expression when
    no child remains; the values of the children follow each other in the
    parameter list. *)
Theorem composite_joins_surviving_children props op items each ps :
  assoc "operator" props = Some (JStr op) ->
  op = "AND" \/ op = "OR" ->
  assoc "conditions" props = Some (JArr items) ->
  Forall2 (fun child qd => processRule child [] = Ok qd) items each ->
  let surviving := filter (fun q => negb (q =? "")) (map fst each) in
  processRule (JObj props) ps =
  Ok (match surviving with
      | [] => ""
      | _ :: _ =>
          ("(" ++ String.concat (" " ++ op ++ " ") surviving ++ ")")%string
      end,
      ps ++ List.concat (map snd each)).
Proof.
  intros Hop Hand Hconds Hall surviving.
  assert (Hc : is_composite props = true).
  { unfold is_composite. rewrite Hop.
    destruct Hand as [-> | ->]; reflexivity. }
  rewrite processRule_obj, Hc, Hconds. unfold bind.
  rewrite (each_mapM _ _ ps Hall). unfold ret, joined. rewrite Hop. simpl.
  fold surviving. destruct surviving; reflexivity.
Qed.

Lemma composite_joins_surviving_children_witness :
  processRule
    (composite "OR"
       [ spent_between;
         condition "status" "greater_than" (JNum 3%Q);
         condition "last_visit" "is_null" JNull ])
    [Value (Some (JStr "active"))] =
  Ok ("(total_spent BETWEEN ? AND ? OR last_visit IS NULL)",
      [Value (Some (JStr "active"));
       ParseFloat (Some (JNum 1000%Q)); ParseFloat (Some (JNum 2000%Q))]).
Proof.
  apply (composite_joins_surviving_children
           [ ("operator", JStr "OR");
             ("conditions",
              JArr [ spent_between;
                     condition "status" "greater_than" (JNum 3%Q);
                     condition "last_visit" "is_null" JNull ]) ]
           "OR"
           [ spent_between;
             condition "status" "greater_than" (JNum 3%Q);
             condition "last_visit" "is_null" JNull ]
           [ ("total_spent BETWEEN ? AND ?",
              [ParseFloat (Some (JNum 1000%Q));
               ParseFloat (Some (JNum 2000%Q))]);
             ("", []);
             ("last_visit IS NULL", []) ]
           [Value (Some (JStr "active"))]).
  - reflexivity.
  - right. reflexivity.
  - reflexivity.
  - repeat constructor.
Defined.

(** C9.  The parameter list of a compiled tree holds the values of its
    leaves in emission order, left to right and depth first, and the
    compiled expression has exactly as many [?] placeholders as the list
    has parameters. *)
Theorem params_in_emission_order rule cq :
  buildSegmentQuery rule = Ok cq ->
  params cq = flat_map leaf_values (leaves rule) /\
  placeholders (query cq) = List.length (params cq).
Proof.
  unfold buildSegmentQuery.
  destruct (processRule rule []) as [[q d]|e] eqn:Hrun; [|discriminate].
  intros [= <-]. simpl. now apply processRule_emission.
Qed.

Lemma params_in_emission_order_witness :
  buildSegmentQuery sample_tree = Ok sample_compiled /\
  params sample_compiled = flat_map leaf_values (leaves sample_tree) /\
  placeholders (query sample_compiled) = List.length (params sample_compiled).
Proof.
  split; [reflexivity|].
  exact (params_in_emission_order sample_tree sample_compiled eq_refl).
Defined.

(** C3, as stated, fails: the [between] leaf of the specification's own
    fixture is one retained leaf and binds two parameters. *)
Lemma between_leaf_binds_two_parameters :
  valid_rule spent_between = true /\
  exists cq,
    buildSegmentQuery spent_between = Ok cq /\
    List.length (retained_leaves spent_between) = 1 /\
    List.length (params cq) = 2.
Proof.
  split; [reflexivity|].
  eexists. split; [reflexivity|]. split; reflexivity.
Qed.

(** C3, amended.  A valid rule tree compiles, and the length of its
    parameter list is the number of retained leaves where a [between] leaf
    counts twice and an [is_null] leaf does not count. *)
Theorem params_length_by_arity rule :
  valid_rule rule = true ->
  exists cq,
    buildSegmentQuery rule = Ok cq /\
    List.length (params cq) = list_sum (map arity (retained_leaves rule)).
Proof.
  intros Hvalid. unfold buildSegmentQuery.
  destruct (valid_rule_compiles _ Hvalid) as (q & d & Hrun).
  rewrite Hrun. eexists. split; [reflexivity|]. simpl.
  destruct (processRule_emission _ _ _ Hrun) as [-> _].
  apply length_leaf_values, leaves_childless.
Qed.

Lemma params_length_by_arity_witness :
  valid_rule sample_tree = true /\
  exists cq,
    buildSegmentQuery sample_tree = Ok cq /\
    List.length (params cq) =
    list_sum (map arity (retained_leaves sample_tree)).
Proof.
  split; [reflexivity|].
  apply (params_length_by_arity sample_tree). reflexivity.
Defined.

(** C10.  A [last_visit] / [is_null] leaf compiles to the empty expression
    when it has no [value], and to [last_visit IS NULL] as soon as some
    value, whatever it is, is present; it binds no parameter either way. *)
Theorem is_null_requires_value props :
  assoc "field" props = Some (JStr "last_visit") ->
  assoc "operator" props = Some (JStr "is_null") ->
  buildSegmentQuery (JObj props) =
  Ok {| query := match assoc "value" props with
                 | None => ""
                 | Some _ => "last_visit IS NULL"
                 end;
        params := [] |}.
Proof.
  intros Hfield Hop. unfold buildSegmentQuery.
  rewrite processRule_obj. unfold is_composite.
  rewrite Hfield, Hop. simpl.
  destruct (assoc "value" props); reflexivity.
Qed.

Lemma is_null_requires_value_witness :
  buildSegmentQuery never_visited = Ok {| query := ""; params := [] |} /\
  buildSegmentQuery (condition "last_visit" "is_null" JNull) =
  Ok {| query := "last_visit IS NULL"; params := [] |}.
Proof.
  split.
  - apply (is_null_requires_value
             [("field", JStr "last_visit"); ("operator", JStr "is_null")]);
      reflexivity.
  - apply (is_null_requires_value
             [("field", JStr "last_visit"); ("operator", JStr "is_null");
              ("value", JNull)]);
      reflexivity.
Defined.

End CompilerProperties.

(* ================================================================= *)
(** * Reasoning about handler steps *)

Module StoreFacts.
Import Store Sql Pipeline.

Lemma bind_ok {A B} (m : io A) (k : A -> io B) w b w' :
  bind m k w = (Ok b, w') ->
  exists a w1, m w = (Ok a, w1) /\ k a w1 = (Ok b, w').
Proof.
  unfold bind. destruct (m w) as [[a|e] w1]; [eauto | discriminate].
Qed.

Lemma bind_throw {A B} (m : io A) (k : A -> io B) w e w' :
  bind m k w = (Throw e, w') ->
  m w = (Throw e, w') \/
  exists a w1, m w = (Ok a, w1) /\ k a w1 = (Throw e, w').
Proof.
  unfold bind. destruct (m w) as [[a|e'] w1]; [eauto|].
  intros [= -> ->]. now left.
Qed.

Lemma execute_ok {A} stmt (run : world -> result A * world) w a w' :
  execute stmt run w = (Ok a, w') ->
  hd false (faults w) = false /\ run (snd (submit stmt w)) = (Ok a, w').
Proof.
  unfold execute. simpl. destruct (hd false (faults w)); [discriminate|].
  auto.
Qed.

Lemma execute_throw {A} stmt (run : world -> result A * world) w e w' :
  execute stmt run w = (Throw e, w') ->
  (hd false (faults w) = true /\ w' = snd (submit stmt w)) \/
  (hd false (faults w) = false /\ run (snd (submit stmt w)) = (Throw e, w')).
Proof.
  unfold execute. simpl. destruct (hd false (faults w)).
  - intros [= _ <-]. now left.
  - intros H. now right.
Qed.

Lemma execute_run {A} stmt (run : world -> result A * world) w :
  hd false (faults w) = false ->
  execute stmt run w = run (snd (submit stmt w)).
Proof. unfold execute. simpl. now intros ->. Qed.

Lemma try_catch_ok {A} (m : io A) (h : exn -> io A) w a w' :
  try_catch m h w = (Ok a, w') ->
  m w = (Ok a, w') \/
  exists e w1, m w = (Throw e, w1) /\ h e w1 = (Ok a, w').
Proof.
  unfold try_catch. destruct (m w) as [[a'|e] w1]; [|eauto].
  intros [= -> ->]. now left.
Qed.

(** ** Steps that keep a relation between the worlds before and after *)

Section Respects.
Variable R : world -> world -> Prop.
Hypothesis R_refl : forall w, R w w.
Hypothesis R_trans : forall w1 w2 w3, R w1 w2 -> R w2 w3 -> R w1 w3.

Lemma respects_ret {A} (a : A) : respects R (ret a).
Proof. intros w r w' [= _ <-]. apply R_refl. Qed.

Lemma respects_throw {A} e : respects R (@throw A e).
Proof. intros w r w' [= _ <-]. apply R_refl. Qed.

Lemma respects_lift {A} (x : result A) : respects R (lift x).
Proof. intros w r w' [= _ <-]. apply R_refl. Qed.

Lemma respects_now : respects R now.
Proof. intros w r w' [= _ <-]. apply R_refl. Qed.

Lemma respects_bind {A B} (m : io A) (k : A -> io B) :
  respects R m -> (forall a, respects R (k a)) -> respects R (bind m k).
Proof.
  intros Hm Hk w r w'. unfold bind.
  destruct (m w) as [[a|e] w1] eqn:E.
  - intros H. eapply R_trans; [eapply Hm, E | eapply Hk, H].
  - intros [= _ <-]. eapply Hm, E.
Qed.

Lemma respects_try_catch {A} (m : io A) (h : exn -> io A) :
  respects R m -> (forall e, respects R (h e)) -> respects R (try_catch m h).
Proof.
  intros Hm Hh w r w'. unfold try_catch.
  destruct (m w) as [[a|e] w1] eqn:E.
  - intros [= _ <-]. eapply Hm, E.
  - intros H. eapply R_trans; [eapply Hm, E | eapply Hh, H].
Qed.

Lemma respects_for_each {A} (xs : list A) (body : A -> io unit) :
  (forall x, respects R (body x)) -> respects R (for_each xs body).
Proof.
  intros Hb. induction xs as [|x xs IH]; simpl.
  - apply respects_ret.
  - apply respects_bind; auto.
Qed.

Lemma respects_raising_weaken {A} (m : io A) :
  respects R m -> respects_raising R m.
Proof. intros H w e w' E. eapply H, E. Qed.

Lemma respects_raising_bind {A B} (m : io A) (k : A -> io B) :
  respects R m -> (forall a, respects_raising R (k a)) ->
  respects_raising R (bind m k).
Proof.
  intros Hm Hk w e w' H. apply bind_throw in H as [H|(a & w1 & H1 & H2)].
  - eapply Hm, H.
  - eapply R_trans; [eapply Hm, H1 | eapply Hk, H2].
Qed.

(** Handing a statement to the database and consuming a random value keep
    the relation. *)
Hypothesis R_submit : forall stmt w, R w (snd (submit stmt w)).
Hypothesis R_random : forall w, R w (snd (random w)).

Lemma respects_random : respects R random.
Proof.
  intros w r w' H. replace w' with (snd (random w)) by now rewrite H.
  apply R_random.
Qed.

Lemma respects_execute {A} stmt (run : world -> result A * world) :
  (forall w r w', run w = (r, w') -> R w w') ->
  respects R (execute stmt run).
Proof.
  intros Hrun w r w'. unfold execute.
  pose proof (R_submit stmt w) as Hs.
  destruct (submit stmt w) as [failed w1]. simpl in Hs.
  destruct failed.
  - now intros [= _ <-].
  - intros H. eapply R_trans; [exact Hs | eapply Hrun, H].
Qed.

End Respects.

(** ** The tables a step leaves alone *)

Lemma same_campaigns_refl w : same_campaigns w w.
Proof. split; reflexivity. Qed.

Lemma same_campaigns_trans w1 w2 w3 :
  same_campaigns w1 w2 -> same_campaigns w2 w3 -> same_campaigns w1 w3.
Proof. intros [H1 H2] [H3 H4]. split; congruence. Qed.

Create HintDb steps.
#[export] Hint Resolve same_campaigns_refl same_campaigns_trans : steps.

Ltac step_frame :=
  repeat match goal with
    | |- respects _ (bind _ _) => apply respects_bind; [eauto with steps ..|intros ?]
    | |- respects _ (try_catch _ _) =>
        apply respects_try_catch; [eauto with steps ..|intros ?]
    | |- respects _ (if ?b then _ else _) => destruct b
    | |- respects _ (ret _) => apply respects_ret; eauto with steps
    | |- respects _ (throw _) => apply respects_throw; eauto with steps
    | |- respects _ (lift _) => apply respects_lift; eauto with steps
    | |- respects _ now => apply respects_now; eauto with steps
    | |- respects _ random =>
        apply respects_random; intros; split; reflexivity
    | |- respects _ (execute _ _) =>
        apply respects_execute;
        [eauto with steps | intros; split; reflexivity
        | intros ? ? ? [= _ <-]; split; reflexivity]
    end.

Lemma insert_message_campaigns cid cust content :
  respects same_campaigns (insert_message cid cust content).
Proof. unfold insert_message. step_frame. Qed.

Lemma select_segment_rules_campaigns sid :
  respects same_campaigns (select_segment_rules sid).
Proof. unfold select_segment_rules. step_frame. Qed.

Lemma select_customers_campaigns q ps :
  respects same_campaigns (select_customers q ps).
Proof. unfold select_customers. step_frame. Qed.

(** ** Rows of [communication_log] before and after a step *)

Lemma same_row_refl m : same_row m m.
Proof. repeat split. Qed.

Lemma same_row_trans m1 m2 m3 :
  same_row m1 m2 -> same_row m2 m3 -> same_row m1 m3.
Proof.
  intros (A1 & A2 & A3 & A4) (B1 & B2 & B3 & B4).
  repeat split; congruence.
Qed.

Lemma Forall2_refl {A} (R : A -> A -> Prop) l :
  (forall a, R a a) -> Forall2 R l l.
Proof. intros H. induction l; constructor; auto. Qed.

Lemma Forall2_compose {A} (R S T : A -> A -> Prop) l0 l1 l2 :
  (forall a b c, R a b -> S b c -> T a c) ->
  Forall2 R l0 l1 -> Forall2 S l1 l2 -> Forall2 T l0 l2.
Proof.
  intros H H01. revert l2.
  induction H01 as [|a b l0 l1 Hab _ IH]; intros l2 H12;
    inversion H12; subst; constructor; eauto.
Qed.

Lemma Forall2_filter {A} (R : A -> A -> Prop) (p : A -> bool) l l' :
  (forall a b, R a b -> p b = p a) ->
  Forall2 R l l' -> Forall2 R (filter p l) (filter p l').
Proof.
  intros Hp. induction 1 as [|a b l l' Hab _ IH]; simpl; [constructor|].
  rewrite (Hp _ _ Hab). destruct (p a); [constructor|]; assumption.
Qed.

Lemma settles_nil m : settles [] m m.
Proof. split; [apply same_row_refl|]. split; [intros []|reflexivity]. Qed.

Lemma settles_cons i ids m0 m1 m2 :
  settles [i] m0 m1 -> settles ids m1 m2 -> settles (i :: ids) m0 m2.
Proof.
  intros (S1 & In1 & Out1) (S2 & In2 & Out2).
  assert (Hid : id m1 = id m0) by apply S1.
  split; [eapply same_row_trans; eassumption|]. rewrite Hid in In2, Out2.
  destruct (in_dec Nat.eq_dec (id m0) ids) as [Hin|Hout].
  - split; [auto|]. intros H. exfalso. apply H. now right.
  - rewrite (Out2 Hout). split.
    + intros [Heq|Hin]; [|contradiction]. apply In1. now left.
    + intros H. apply Out1. intros [Heq|[]]. apply H. now left.
Qed.

Lemma update_message_settles mid f ms :
  (forall m, same_row m (f m) /\ settled (status (f m)) = true) ->
  Forall2 (settles [mid]) ms (update_message mid f ms).
Proof.
  intros Hf. induction ms as [|m ms IH]; simpl; constructor; [|exact IH].
  destruct (Nat.eqb_spec (id m) mid) as [Heq|Hne].
  - destruct (Hf m) as [Hsame Hset]. split; [exact Hsame|]. split; [auto|].
    intros H. exfalso. apply H. now left.
  - split; [apply same_row_refl|]. split; [|reflexivity].
    intros [H|[]]. congruence.
Qed.

Lemma update_message_same_row mid f ms :
  (forall m, same_row m (f m)) ->
  Forall2 same_row ms (update_message mid f ms).
Proof.
  intros Hf. induction ms as [|m ms IH]; simpl; constructor; [|exact IH].
  destruct (id m =? mid)%nat; [apply Hf | apply same_row_refl].
Qed.

Lemma mark_sent_settles v t m :
  same_row m (mark_sent v t m) /\ settled (status (mark_sent v t m)) = true.
Proof. repeat split. Qed.

Lemma mark_failed_settles reason t m :
  same_row m (mark_failed reason t m) /\
  settled (status (mark_failed reason t m)) = true.
Proof. repeat split. Qed.

Lemma extends_refl cid ms : extends cid ms ms.
Proof.
  exists []. rewrite app_nil_r. split; [|constructor].
  apply Forall2_refl, same_row_refl.
Qed.

Lemma extends_trans cid ms1 ms2 ms3 :
  extends cid ms1 ms2 -> extends cid ms2 ms3 -> extends cid ms1 ms3.
Proof.
  intros (c1 & H12 & Hc1) (c2 & H23 & Hc2).
  apply Forall2_app_inv_l in H23 as (a & b & Ha & Hb & ->).
  exists (c1 ++ c2). split; [|now apply Forall_app].
  rewrite app_assoc. apply Forall2_app; [|exact Hb].
  eapply Forall2_compose; [apply same_row_trans | exact H12 | exact Ha].
Qed.

Lemma extends_same_rows cid ms ms' :
  Forall2 same_row ms ms' -> extends cid ms ms'.
Proof. intros H. exists []. rewrite app_nil_r. split; [exact H|constructor]. Qed.

Lemma grows_refl cid w : grows cid w w.
Proof. apply extends_refl. Qed.

Lemma grows_trans cid w1 w2 w3 :
  grows cid w1 w2 -> grows cid w2 w3 -> grows cid w1 w3.
Proof. apply extends_trans. Qed.

#[export] Hint Resolve grows_refl grows_trans : steps.

Lemma settled_counts ms :
  Forall (fun m => settled (status m) = true) ms ->
  List.length (filter is_sent ms) + List.length (filter is_failed ms) =
  List.length ms.
Proof.
  induction 1 as [|m ms Hm _ IH]; [reflexivity|].
  simpl. unfold is_sent at 1, is_failed at 1.
  destruct (status m); try discriminate; simpl; lia.
Qed.

End StoreFacts.

(* ================================================================= *)
(** * The dispatch, phase by phase *)

Module DispatchFacts.
Import Store Sql Campaigns Pipeline Phases Invariants StoreFacts.

Section Dispatch.
Variable personalize : string -> customer -> string.

Lemma create_logs_ok cid tpl customers :
  forall w logs w1,
    create_logs personalize cid tpl customers w = (Ok logs, w1) ->
    communication_log w1 =
      communication_log w ++
      pending_rows personalize (next_message_id w) cid tpl (clock w) customers /\
    logs = entries personalize (next_message_id w) tpl customers /\
    issued w1 = issued w ++ inserts personalize cid tpl customers.
Proof.
  induction customers as [|c rest IH]; intros w logs w1; simpl.
  - intros [= <- <-]. unfold inserts. simpl. rewrite !app_nil_r.
    repeat split.
  - intros H. apply bind_ok in H as (i & wa & Hins & H).
    apply bind_ok in H as (logs' & wb & Hrest & H).
    injection H as <- <-.
    apply execute_ok in Hins as [_ Hins]. injection Hins as <- <-.
    apply IH in Hrest as (Hlog & -> & Hissued). simpl in *.
    rewrite Hlog, Hissued, <- !app_assoc. repeat split.
Qed.

Lemma create_logs_campaigns cid tpl customers :
  respects same_campaigns (create_logs personalize cid tpl customers).
Proof.
  induction customers as [|c rest IH]; simpl.
  - step_frame.
  - apply respects_bind; eauto with steps.
    + apply insert_message_campaigns.
    + intros i. apply respects_bind; eauto with steps.
      intros logs. step_frame.
Qed.

Lemma send_message_campaigns log :
  respects same_campaigns (send_message log).
Proof.
  unfold send_message, update_message_sent, update_message_failed.
  step_frame.
Qed.

(** A run of the [try] block that returns went through every phase. *)
Lemma dispatch_ok cid sid tpl w s w' :
  dispatch personalize cid sid tpl w = (Ok s, w') ->
  exists row rows rules cq customers logs wa wb w1 w2,
    select_segment_rules sid w = (Ok (row :: rows), wa) /\
    parsed row = Ok rules /\
    Compiler.buildSegmentQuery rules = Ok cq /\
    select_customers (Compiler.query cq) (Compiler.params cq) wa =
      (Ok customers, wb) /\
    create_logs personalize cid tpl customers wb = (Ok logs, w1) /\
    for_each logs send_message w1 = (Ok tt, w2) /\
    update_campaign_sent cid w2 = (Ok tt, w') /\
    s = {| totalSent := List.length logs; success := true |}.
Proof.
  unfold dispatch. intros H.
  apply bind_ok in H as ([|row rows] & wa & Hsel & H); [discriminate|].
  apply bind_ok in H as (rules & wa' & Hparsed & H).
  unfold lift in Hparsed. injection Hparsed as Hparsed <-.
  apply bind_ok in H as (cq & wa' & Hcq & H).
  unfold lift in Hcq. injection Hcq as Hcq <-.
  apply bind_ok in H as (customers & wb & Hcust & H).
  apply bind_ok in H as (logs & w1 & Hlogs & H).
  apply bind_ok in H as ([] & w2 & Hsend & H).
  apply bind_ok in H as ([] & w3 & Hupd & H).
  injection H as <- <-.
  exists row, rows, rules, cq, customers, logs, wa, wb, w1, w2.
  repeat split; assumption.
Qed.

(** The handler of [sendCampaignMessages] rethrows: a run that returns is
    a run of the [try] block that returned. *)
Lemma sendCampaignMessages_ok cid sid tpl w s w' :
  sendCampaignMessages personalize cid sid tpl w = (Ok s, w') ->
  dispatch personalize cid sid tpl w = (Ok s, w').
Proof.
  unfold sendCampaignMessages. intros H.
  apply try_catch_ok in H as [H|(e & w1 & _ & H)]; [exact H|].
  apply bind_ok in H as (? & ? & _ & H). discriminate.
Qed.

Lemma before_campaign_update cid sid tpl w s w' :
  dispatch personalize cid sid tpl w = (Ok s, w') ->
  exists w2,
    same_campaigns w w2 /\ update_campaign_sent cid w2 = (Ok tt, w').
Proof.
  intros H.
  destruct (dispatch_ok _ _ _ _ _ _ H)
    as (row & rows & rules & cq & customers & logs & wa & wb & w1 & w2
        & Hsel & _ & _ & Hcust & Hlogs & Hsend & Hupd & _).
  exists w2. split; [|exact Hupd].
  apply select_segment_rules_campaigns in Hsel.
  apply select_customers_campaigns in Hcust.
  apply create_logs_campaigns in Hlogs.
  apply (respects_for_each same_campaigns same_campaigns_refl
           same_campaigns_trans _ _ send_message_campaigns) in Hsend.
  eauto using same_campaigns_trans.
Qed.

(** The attempt raises only when the database fails the update: no row
    has changed then. *)
Lemma send_attempt_raising log w e w' :
  (r <- random ;;
   if vendor_accepts r then
     t <- now ;;
     update_message_sent (log_id log)
       ("msg_" ++ decimal t ++ "_" ++ decimal (log_customer_id log))
   else update_message_failed (log_id log) "Vendor API error") w
  = (Throw e, w') ->
  communication_log w' = communication_log w /\ clock w' = clock w.
Proof.
  intros H. apply bind_throw in H as [H|(r & wa & Hr & H)]; [discriminate|].
  injection Hr as _ <-.
  destruct (vendor_accepts _).
  - apply bind_throw in H as [H|(t & wb & Ht & H)]; [discriminate|].
    injection Ht as _ <-.
    apply execute_throw in H as [[_ ->]|[_ H]]; [|discriminate].
    split; reflexivity.
  - apply execute_throw in H as [[_ ->]|[_ H]]; [|discriminate].
    split; reflexivity.
Qed.

(** A send attempt that completes has settled its message and touched no
    other. *)
Lemma send_message_ok log w w' :
  send_message log w = (Ok tt, w') ->
  Forall2 (settles [log_id log]) (communication_log w) (communication_log w').
Proof.
  unfold send_message. intros H.
  apply try_catch_ok in H as [H|(e & w1 & Hraise & H)].
  - apply bind_ok in H as (r & wa & Hr & H). injection Hr as _ <-.
    destruct (vendor_accepts _).
    + apply bind_ok in H as (t & wb & Ht & H). injection Ht as _ <-.
      apply execute_ok in H as [_ H]. injection H as <-.
      apply update_message_settles, mark_sent_settles.
    + apply execute_ok in H as [_ H]. injection H as <-.
      apply update_message_settles, mark_failed_settles.
  - apply send_attempt_raising in Hraise as [Hlog _].
    apply execute_ok in H as [_ H]. injection H as <-. simpl.
    rewrite Hlog. apply update_message_settles, mark_failed_settles.
Qed.

Lemma send_loop_ok logs :
  forall w w',
    for_each logs send_message w = (Ok tt, w') ->
    Forall2 (settles (map log_id logs))
      (communication_log w) (communication_log w').
Proof.
  induction logs as [|log logs IH]; intros w w'; simpl.
  - intros [= <-]. apply Forall2_refl, settles_nil.
  - intros H. apply bind_ok in H as ([] & w1 & Hone & Hrest).
    eapply Forall2_compose;
      [apply settles_cons | apply send_message_ok, Hone | apply IH, Hrest].
Qed.

Lemma pending_rows_campaign i cid tpl t customers :
  messages_of cid (pending_rows personalize i cid tpl t customers) =
  pending_rows personalize i cid tpl t customers.
Proof.
  revert i. induction customers as [|c rest IH]; intros i; simpl;
    [reflexivity|].
  unfold messages_of in *. simpl. now rewrite Nat.eqb_refl, IH.
Qed.

Lemma pending_rows_ids i cid tpl t customers :
  map id (pending_rows personalize i cid tpl t customers) =
  map log_id (entries personalize i tpl customers).
Proof.
  revert i. induction customers as [|c rest IH]; intros i; simpl;
    [reflexivity|].
  now rewrite IH.
Qed.

Lemma pending_rows_customers i cid tpl t customers :
  map customer_id (pending_rows personalize i cid tpl t customers) =
  map cust_id customers.
Proof.
  revert i. induction customers as [|c rest IH]; intros i; simpl;
    [reflexivity|].
  now rewrite IH.
Qed.

Lemma pending_rows_pending i cid tpl t customers :
  Forall (fun m => status m = Pending) (pending_rows personalize i cid tpl t customers).
Proof.
  revert i. induction customers as [|c rest IH]; intros i; simpl;
    constructor; auto.
Qed.

Lemma entries_length i tpl customers :
  List.length (entries personalize i tpl customers) = List.length customers.
Proof.
  revert i. induction customers as [|c rest IH]; intros i; simpl;
    [reflexivity|].
  now rewrite IH.
Qed.

(** Rows all of which were attempted are all settled afterwards. *)
Lemma attempted_rows_settled ids ms ms' :
  Forall2 (settles ids) ms ms' ->
  incl (map id ms) ids ->
  map customer_id ms' = map customer_id ms /\
  Forall (fun m => settled (status m) = true) ms'.
Proof.
  induction 1 as [|m m' ms ms' (Hsame & Hin & _) _ IH]; simpl; intros Hincl.
  - split; constructor.
  - destruct IH as [IH1 IH2].
    { intros x Hx. apply Hincl. now right. }
    split.
    + f_equal; [apply Hsame | exact IH1].
    + constructor; [|exact IH2]. apply Hin, Hincl. now left.
Qed.

(** ** The statements of the send loop *)

Lemma send_statement_weaken ids ids' stmts :
  incl ids ids' ->
  Forall (send_statement ids) stmts -> Forall (send_statement ids') stmts.
Proof.
  intros Hincl. apply Forall_impl. intros [] H; try exact H; now apply Hincl.
Qed.

(** When the attempt raises, the database has failed the one [UPDATE] it
    issued. *)
Lemma send_attempt_raising_issued log w e w' :
  (r <- random ;;
   if vendor_accepts r then
     t <- now ;;
     update_message_sent (log_id log)
       ("msg_" ++ decimal t ++ "_" ++ decimal (log_customer_id log))
   else update_message_failed (log_id log) "Vendor API error") w
  = (Throw e, w') ->
  exists stmt,
    issued w' = issued w ++ [stmt] /\ send_statement [log_id log] stmt.
Proof.
  intros H. apply bind_throw in H as [H|(r & wa & Hr & H)]; [discriminate|].
  injection Hr as _ <-.
  destruct (vendor_accepts _).
  - apply bind_throw in H as [H|(t & wb & Ht & H)]; [discriminate|].
    injection Ht as _ <-.
    apply execute_throw in H as [[_ ->]|[_ H]]; [|discriminate].
    eexists. split; [reflexivity|]. now left.
  - apply execute_throw in H as [[_ ->]|[_ H]]; [|discriminate].
    eexists. split; [reflexivity|]. now left.
Qed.

(** A send attempt that completes has issued one [UPDATE] of its message,
    or two when the database failed the first. *)
Lemma send_message_issued log w w' :
  send_message log w = (Ok tt, w') ->
  exists attempts,
    issued w' = issued w ++ attempts /\
    attempts <> [] /\
    Forall (send_statement [log_id log]) attempts.
Proof.
  unfold send_message. intros H.
  apply try_catch_ok in H as [H|(e & w1 & Hraise & H)].
  - apply bind_ok in H as (r & wa & Hr & H). injection Hr as _ <-.
    destruct (vendor_accepts _).
    + apply bind_ok in H as (t & wb & Ht & H). injection Ht as _ <-.
      apply execute_ok in H as [_ H]. injection H as <-.
      eexists. split; [reflexivity|]. split; [discriminate|].
      repeat constructor.
    + apply execute_ok in H as [_ H]. injection H as <-.
      eexists. split; [reflexivity|]. split; [discriminate|].
      repeat constructor.
  - apply send_attempt_raising_issued in Hraise as (stmt & Hissued & Hstmt).
    apply execute_ok in H as [_ H]. injection H as <-. simpl.
    rewrite Hissued, <- app_assoc.
    eexists. split; [reflexivity|]. split; [discriminate|].
    constructor; [exact Hstmt|]. repeat constructor.
Qed.

Lemma send_loop_issued logs :
  forall w w',
    for_each logs send_message w = (Ok tt, w') ->
    exists attempts,
      issued w' = issued w ++ attempts /\
      List.length logs <= List.length attempts /\
      Forall (send_statement (map log_id logs)) attempts.
Proof.
  induction logs as [|log logs IH]; intros w w'; simpl.
  - intros [= <-]. exists []. rewrite app_nil_r. repeat split; constructor.
  - intros H. apply bind_ok in H as ([] & w1 & Hone & Hrest).
    apply send_message_issued in Hone as (a1 & E1 & Hne & F1).
    apply IH in Hrest as (a2 & E2 & Hlen & F2).
    exists (a1 ++ a2). split; [now rewrite E2, E1, app_assoc|]. split.
    + rewrite length_app. destruct a1; [contradiction|]. simpl. lia.
    + apply Forall_app. split.
      * eapply send_statement_weaken; [|exact F1].
        intros i [<-|[]]. now left.
      * eapply send_statement_weaken; [|exact F2].
        intros i Hi. now right.
Qed.

(** ** Runs of the dispatch that raise *)

Ltac step_grows :=
  repeat match goal with
    | |- respects _ (bind _ _) =>
        apply respects_bind; [eauto with steps ..|intros ?]
    | |- respects _ (try_catch _ _) =>
        apply respects_try_catch; [eauto with steps ..|intros ?]
    | |- respects _ (if ?b then _ else _) => destruct b
    | |- respects _ (ret _) => apply respects_ret; eauto with steps
    | |- respects _ (throw _) => apply respects_throw; eauto with steps
    | |- respects _ (lift _) => apply respects_lift; eauto with steps
    | |- respects _ now => apply respects_now; eauto with steps
    | |- respects _ random =>
        apply respects_random; intros; unfold grows; simpl;
        apply extends_refl
    | |- respects _ (execute _ _) =>
        apply respects_execute;
        [eauto with steps
        | intros; unfold grows; simpl; apply extends_refl
        | intros ? ? ? [= _ <-]; unfold grows; simpl]
    end.

Lemma select_segment_rules_grows cid sid :
  respects (grows cid) (select_segment_rules sid).
Proof. unfold select_segment_rules. step_grows. apply extends_refl. Qed.

Lemma select_customers_grows cid q ps :
  respects (grows cid) (select_customers q ps).
Proof. unfold select_customers. step_grows. apply extends_refl. Qed.

Lemma insert_message_grows cid cust content :
  respects (grows cid) (insert_message cid cust content).
Proof.
  unfold insert_message. step_grows.
  eexists. split; [apply Forall2_refl, same_row_refl|].
  repeat constructor.
Qed.

Lemma update_message_sent_grows cid mid v :
  respects (grows cid) (update_message_sent mid v).
Proof.
  unfold update_message_sent. step_grows.
  apply extends_same_rows, update_message_same_row.
  intros m. apply mark_sent_settles.
Qed.

Lemma update_message_failed_grows cid mid reason :
  respects (grows cid) (update_message_failed mid reason).
Proof.
  unfold update_message_failed. step_grows.
  apply extends_same_rows, update_message_same_row.
  intros m. apply mark_failed_settles.
Qed.

Lemma update_campaign_sent_grows cid cid' :
  respects (grows cid) (update_campaign_sent cid').
Proof. unfold update_campaign_sent. step_grows. apply extends_refl. Qed.

Lemma create_logs_grows cid tpl customers :
  respects (grows cid) (create_logs personalize cid tpl customers).
Proof.
  induction customers as [|c rest IH]; simpl.
  - step_grows.
  - apply respects_bind; eauto with steps.
    + apply insert_message_grows.
    + intros i. apply respects_bind; eauto with steps.
      intros logs. step_grows.
Qed.

Lemma send_message_grows cid log : respects (grows cid) (send_message log).
Proof.
  unfold send_message.
  apply respects_try_catch; eauto with steps.
  - apply respects_bind; eauto with steps; [step_grows|].
    intros r. destruct (vendor_accepts r).
    + apply respects_bind; eauto with steps; [step_grows|].
      intros t. apply update_message_sent_grows.
    + apply update_message_failed_grows.
  - intros e. apply update_message_failed_grows.
Qed.

(** Whatever its outcome, the [try] block only adds rows for the campaign
    to the log and keeps every row that was there. *)
Lemma dispatch_grows cid sid tpl :
  respects (grows cid) (dispatch personalize cid sid tpl).
Proof.
  unfold dispatch.
  apply respects_bind; eauto with steps;
    [apply select_segment_rules_grows|].
  intros [|row rows]; [step_grows|].
  apply respects_bind; eauto with steps; [step_grows|]. intros rules.
  apply respects_bind; eauto with steps; [step_grows|]. intros cq.
  apply respects_bind; eauto with steps; [apply select_customers_grows|].
  intros customers.
  apply respects_bind; eauto with steps; [apply create_logs_grows|].
  intros logs.
  apply respects_bind; eauto with steps.
  { apply respects_for_each; eauto with steps.
    intros log. apply send_message_grows. }
  intros _.
  apply respects_bind; eauto with steps; [apply update_campaign_sent_grows|].
  intros _. step_grows.
Qed.

(** A run of the [try] block that raises has not written to [campaigns]:
    the only write is the last statement. *)
Lemma dispatch_raising_campaigns cid sid tpl :
  respects_raising same_campaigns (dispatch personalize cid sid tpl).
Proof.
  unfold dispatch.
  apply respects_raising_bind; eauto with steps;
    [apply select_segment_rules_campaigns|].
  intros [|row rows].
  { apply respects_raising_weaken. step_frame. }
  apply respects_raising_bind; eauto with steps; [step_frame|].
  intros rules.
  apply respects_raising_bind; eauto with steps; [step_frame|].
  intros cq.
  apply respects_raising_bind; eauto with steps;
    [apply select_customers_campaigns|].
  intros customers.
  apply respects_raising_bind; eauto with steps;
    [apply create_logs_campaigns|].
  intros logs.
  apply respects_raising_bind; eauto with steps.
  { apply respects_for_each; eauto with steps.
    intros log. apply send_message_campaigns. }
  intros _ w e w' H.
  apply bind_throw in H as [H|(? & ? & _ & H)]; [|discriminate].
  apply execute_throw in H as [[_ ->]|[_ H]]; [|discriminate].
  split; reflexivity.
Qed.

End Dispatch.
End DispatchFacts.

(* ================================================================= *)
(** * Properties of the dispatch *)

Module DispatchProperties.
Import Store Sql Campaigns Pipeline Phases Invariants Scenarios.
Import StoreFacts DispatchFacts.

Section Dispatch.
Variable personalize : string -> customer -> string.


(** C6.  A dispatch that runs to its end over the N customers its segment
    selects, for a campaign that had no message yet, is the first loop,
    then the second loop, then the update of the campaign.  The first loop
    issues the N [INSERT]s right after the two [SELECT]s and leaves one
    [pending] message per customer.  Every statement issued after it, up to
    the final update of the campaign, is an [UPDATE] of one of these
    messages, and there are at least N of them: all N messages are created
    before any send is attempted.  After the second loop each of the N
    messages is [sent] or [failed] and
    [sent_messages + failed_messages = N]. *)
Theorem dispatch_creates_then_settles cid sid tpl w s w' :
  sendCampaignMessages personalize cid sid tpl w = (Ok s, w') ->
  messages_of cid (communication_log w) = [] ->
  exists row rules cq customers logs w1 w2 attempts,
    hd_error (filter (fun s => (segment_id s =? sid)%nat) (segments w))
      = Some row /\
    parsed row = Ok rules /\
    Compiler.buildSegmentQuery rules = Ok cq /\
    customers_where w (Compiler.query cq) (Compiler.params cq)
      = Ok customers /\
    create_logs personalize cid tpl customers
      (snd (submit (SelectCustomers (Compiler.query cq) (Compiler.params cq))
              (snd (submit (SelectSegmentRules sid) w))))
      = (Ok logs, w1) /\
    map customer_id (messages_of cid (communication_log w1))
      = map cust_id customers /\
    Forall (fun m => status m = Pending)
      (messages_of cid (communication_log w1)) /\
    issued w1 =
      issued w ++
      SelectSegmentRules sid
      :: SelectCustomers (Compiler.query cq) (Compiler.params cq)
      :: inserts personalize cid tpl customers /\
    for_each logs send_message w1 = (Ok tt, w2) /\
    update_campaign_sent cid w2 = (Ok tt, w') /\
    issued w' = issued w1 ++ attempts ++ [UpdateCampaignSent cid] /\
    Forall
      (send_statement (map id (messages_of cid (communication_log w1))))
      attempts /\
    List.length customers <= List.length attempts /\
    map customer_id (messages_of cid (communication_log w'))
      = map cust_id customers /\
    Forall (fun m => settled (status m) = true)
      (messages_of cid (communication_log w')) /\
    total_messages cid (communication_log w') = List.length customers /\
    sent_messages cid (communication_log w')
      + failed_messages cid (communication_log w') = List.length customers /\
    totalSent s = List.length customers.
Proof.
  intros H Hnone. apply sendCampaignMessages_ok in H.
  destruct (dispatch_ok _ _ _ _ _ _ _ H)
    as (row & rows & rules & cq & customers & logs & wa & wb & w1 & w2
        & Hsel & Hparsed & Hcq & Hcust & Hlogs & Hsend & Hupd & ->).
  apply execute_ok in Hsel as [_ Hsel]. injection Hsel as Hrows <-.
  apply execute_ok in Hcust as [_ Hcust]. injection Hcust as Hcust <-.
  simpl in Hrows, Hcust.
  destruct (create_logs_ok _ _ _ _ _ _ _ Hlogs) as (Hlog1 & Hentries & Hissued).
  simpl in Hlog1, Hentries, Hissued.
  assert (Hmine : messages_of cid (communication_log w1) =
                  pending_rows personalize (next_message_id w) cid tpl
                    (clock w) customers).
  { rewrite Hlog1. unfold messages_of. rewrite filter_app.
    fold (messages_of cid (communication_log w)). rewrite Hnone.
    apply pending_rows_campaign. }
  pose proof (send_loop_ok _ _ _ Hsend) as Hloop.
  destruct (send_loop_issued _ _ _ Hsend)
    as (attempts & Hattempts & Hcount & Hall).
  pose proof Hupd as Hlast.
  apply execute_ok in Hlast as [_ Hlast]. injection Hlast as Hlast.
  assert (Hlog' : communication_log w' = communication_log w2)
    by now rewrite <- Hlast.
  assert (Hissued' : issued w' = issued w2 ++ [UpdateCampaignSent cid])
    by now rewrite <- Hlast.
  apply (Forall2_filter _
           (fun m => (campaign_id m =? cid)%nat)) in Hloop.
  2:{ intros a b (Hs & _). destruct Hs as (_ & -> & _). reflexivity. }
  fold (messages_of cid (communication_log w1)) in Hloop.
  fold (messages_of cid (communication_log w2)) in Hloop.
  apply attempted_rows_settled in Hloop as [Hcustomers Hsettled].
  2:{ rewrite Hmine, Hentries, pending_rows_ids. apply incl_refl. }
  rewrite Hmine, pending_rows_customers in Hcustomers.
  assert (Hlen : List.length (messages_of cid (communication_log w2)) =
                 List.length customers).
  { rewrite <- (length_map customer_id), Hcustomers. apply length_map. }
  exists row, rules, cq, customers, logs, w1, w2, attempts.
  split; [now rewrite Hrows|]. split; [exact Hparsed|]. split; [exact Hcq|].
  split; [exact Hcust|]. split; [exact Hlogs|].
  split; [rewrite Hmine; apply pending_rows_customers|].
  split; [rewrite Hmine; apply pending_rows_pending|].
  split; [rewrite Hissued, <- !app_assoc; reflexivity|].
  split; [exact Hsend|]. split; [exact Hupd|].
  split; [rewrite Hissued', Hattempts, <- app_assoc; reflexivity|].
  split; [now rewrite Hmine, pending_rows_ids, <- Hentries|].
  split; [now rewrite <- (entries_length personalize (next_message_id w) tpl),
            <- Hentries|].
  rewrite Hlog'.
  split; [exact Hcustomers|]. split; [exact Hsettled|].
  split; [exact Hlen|].
  split; [unfold sent_messages, failed_messages;
          rewrite settled_counts by exact Hsettled; exact Hlen|].
  simpl. rewrite Hentries. apply entries_length.
Qed.


End Dispatch.



Lemma dispatch_creates_then_settles_witness :
  exists row rules cq customers logs w1 w2 attempts,
    hd_error (filter (fun s => (segment_id s =? 7)%nat)
                (segments sample_world)) = Some row /\
    parsed row = Ok rules /\
    Compiler.buildSegmentQuery rules = Ok cq /\
    customers_where sample_world (Compiler.query cq) (Compiler.params cq)
      = Ok customers /\
    create_logs no_placeholder 3 "Big sale today!" customers
      (snd (submit (SelectCustomers (Compiler.query cq) (Compiler.params cq))
              (snd (submit (SelectSegmentRules 7) sample_world))))
      = (Ok logs, w1) /\
    map customer_id (messages_of 3 (communication_log w1))
      = map cust_id customers /\
    Forall (fun m => status m = Pending)
      (messages_of 3 (communication_log w1)) /\
    issued w1 =
      issued sample_world ++
      SelectSegmentRules 7
      :: SelectCustomers (Compiler.query cq) (Compiler.params cq)
      :: inserts no_placeholder 3 "Big sale today!" customers /\
    for_each logs send_message w1 = (Ok tt, w2) /\
    update_campaign_sent 3 w2 = (Ok tt, dispatched_world) /\
    issued dispatched_world =
      issued w1 ++ attempts ++ [UpdateCampaignSent 3] /\
    Forall
      (send_statement (map id (messages_of 3 (communication_log w1))))
      attempts /\
    List.length customers <= List.length attempts /\
    map customer_id (messages_of 3 (communication_log dispatched_world))
      = map cust_id customers /\
    Forall (fun m => settled (status m) = true)
      (messages_of 3 (communication_log dispatched_world)) /\
    total_messages 3 (communication_log dispatched_world)
      = List.length customers /\
    sent_messages 3 (communication_log dispatched_world)
      + failed_messages 3 (communication_log dispatched_world)
      = List.length customers /\
    totalSent {| totalSent := 2; success := true |} = List.length customers.
Proof.
  apply (dispatch_creates_then_settles no_placeholder 3 7 "Big sale today!"
           sample_world {| totalSent := 2; success := true |}
           dispatched_world).
  - vm_compute; reflexivity.
  - vm_compute; reflexivity.
Defined.

(** The statements of that dispatch, in the order they were issued: the
    two [INSERT]s precede the two [UPDATE]s of the messages. *)
Example dispatch_statements_in_order :
  issued dispatched_world =
    [ SelectSegmentRules 7;
      SelectCustomers "status = ?" [Value (Some (JStr "active"))];
      InsertMessage 3 1 "Big sale today!";
      InsertMessage 3 2 "Big sale today!";
      UpdateMessageSent 1 "msg_100_1";
      UpdateMessageFailed 2 "Vendor API error";
      UpdateCampaignSent 3 ].
Proof. vm_compute. reflexivity. Qed.



End DispatchProperties.

(* ================================================================= *)
(** * Properties of the segment handlers *)

Module SegmentProperties.
Import Store Sql Http Segments.

(** C5.  When the rule tree compiles to the empty expression, segment
    creation and segment preview both answer 400 and hand no statement to
    the database: the world is left exactly as it was. *)
Theorem empty_expression_is_rejected rules cq w :
  Compiler.buildSegmentQuery rules = Ok cq ->
  Compiler.query cq = "" ->
  createSegment (Valid rules) w =
    (Ok {| code := 400; body := ErrorMessage "Invalid segment rules" |}, w) /\
  exists error,
    previewSegment (Some rules) w =
      (Ok {| code := 400; body := ErrorMessage error |}, w).
Proof.
  intros Hcq Hempty. split.
  - unfold createSegment, try_catch, bind, lift. rewrite Hcq, Hempty.
    reflexivity.
  - unfold previewSegment, try_catch.
    destruct (truthy (Some rules)); simpl; [|eauto].
    unfold bind, lift. rewrite Hcq, Hempty. simpl. eauto.
Qed.

Lemma empty_expression_is_rejected_witness :
  createSegment (Valid never_visited) sample_world =
    (Ok {| code := 400; body := ErrorMessage "Invalid segment rules" |},
     sample_world) /\
  exists error,
    previewSegment (Some never_visited) sample_world =
      (Ok {| code := 400; body := ErrorMessage error |}, sample_world).
Proof.
  apply (empty_expression_is_rejected never_visited
           {| Compiler.query := ""; Compiler.params := [] |} sample_world).
  - vm_compute; reflexivity.
  - vm_compute; reflexivity.
Defined.

End SegmentProperties.

(* ================================================================= *)
(** * The delivery receipt, step by step *)

Module ReceiptFacts.
Import Store Sql Http Vendor Pipeline Receipts StoreFacts.

Lemma apply_receipt_ok req mid outcome w w' :
  apply_receipt req mid outcome w = (Ok tt, w') ->
  communication_log w' =
    update_message mid (receipt_update req outcome (clock w))
      (communication_log w) /\
  campaigns w' = campaigns w /\ clock w' = clock w /\
  (outcome = "delivered" -> r_vendor_message_id req <> None).
Proof.
  unfold apply_receipt, receipt_update.
  destruct (String.eqb_spec outcome "delivered") as [Heq|Hne].
  - intros H. apply bind_ok in H as (t & wa & Ht & H). injection Ht as <- <-.
    destruct (r_vendor_message_id req); [|discriminate].
    apply execute_ok in H as [_ H]. injection H as <-.
    repeat split. discriminate.
  - destruct (outcome =? "failed").
    + intros H. apply execute_ok in H as [_ H]. injection H as <-.
      repeat split. contradiction.
    + intros [= <-]. repeat split; [|contradiction]. unfold update_message.
      rewrite <- (map_id (communication_log w)) at 1.
      apply map_ext. intros m. now destruct (_ =? _)%nat.
Qed.

(** The completion test compares a decimal text, or [null], with a
    number: it fails whatever the log holds. *)
Lemma completion_test_fails cid ms : all_processed (stats_of cid ms) = false.
Proof.
  unfold all_processed, stats_of. cbn [processed total]. unfold sum_of.
  now destruct (filter _ ms).
Qed.

(** A receipt answered with 200 went through every step. *)
Lemma deliveryReceipt_ok req w resp w' :
  deliveryReceipt req w = (Ok resp, w') ->
  code resp = 200 ->
  exists mid outcome log logs,
    r_message_id req = Some mid /\ r_status req = Some outcome /\
    filter (fun m => (id m =? mid)%nat) (communication_log w) = log :: logs /\
    communication_log w' =
      update_message mid (receipt_update req outcome (clock w))
        (communication_log w) /\
    campaigns w' = campaigns w /\
    (outcome = "delivered" -> r_vendor_message_id req <> None).
Proof.
  unfold deliveryReceipt. intros H Hcode.
  apply try_catch_ok in H as [H|(e & w1 & _ & H)].
  2:{ injection H as <- _. discriminate. }
  destruct (r_message_id req) as [mid|] eqn:Hmid.
  2:{ injection H as <- _. discriminate. }
  destruct (r_status req) as [outcome|] eqn:Hstatus.
  2:{ injection H as <- _. discriminate. }
  destruct (missing_fields req).
  { injection H as <- _. discriminate. }
  apply bind_ok in H as ([|log logs] & wa & Hsel & H).
  { injection H as <- _. discriminate. }
  apply execute_ok in Hsel as [_ Hsel]. injection Hsel as Hsel <-.
  apply bind_ok in H as ([] & wb & Happly & H).
  apply apply_receipt_ok in Happly as (Hlog & Hcamp & Hclock & Hvendor).
  simpl in Hlog, Hcamp, Hclock.
  apply bind_ok in H as (stats & wc & Hstats & H).
  apply execute_ok in Hstats as [_ Hstats]. injection Hstats as <- <-.
  apply bind_ok in H as ([] & wd & Hdone & H). injection H as _ <-.
  exists mid, outcome, log, logs.
  split; [reflexivity|]. split; [reflexivity|]. split; [exact Hsel|].
  fold (all_processed (stats_of (campaign_id log) (communication_log wb)))
    in Hdone.
  rewrite completion_test_fails in Hdone.
  injection Hdone as <-. simpl. rewrite Hlog, Hcamp.
  repeat split. exact Hvendor.
Qed.

Lemma update_message_status mid f s ms :
  (forall m, id (f m) = id m /\ status (f m) = s) ->
  forall m', In m' (update_message mid f ms) -> id m' = mid -> status m' = s.
Proof.
  intros Hf m' Hin Hid. unfold update_message in Hin.
  apply in_map_iff in Hin as (m & <- & _).
  destruct (Nat.eqb_spec (id m) mid) as [_|Hne]; [apply Hf | contradiction].
Qed.

Lemma update_message_same_status mid f s ms :
  (forall m, status (f m) = s) ->
  (forall m, In m ms -> id m = mid -> status m = s) ->
  map status (update_message mid f ms) = map status ms.
Proof.
  intros Hf Hs. unfold update_message. rewrite map_map.
  apply map_ext_in. intros m Hin.
  destruct (Nat.eqb_spec (id m) mid) as [Heq|_]; [|reflexivity].
  now rewrite Hf, (Hs m Hin Heq).
Qed.

Lemma receipt_update_status req outcome t s :
  receipt_status outcome = Some s ->
  (outcome = "delivered" -> r_vendor_message_id req <> None) ->
  forall m,
    id (receipt_update req outcome t m) = id m /\
    status (receipt_update req outcome t m) = s.
Proof.
  unfold receipt_status, receipt_update. intros Hs Hv m.
  destruct (String.eqb_spec outcome "delivered") as [Heq|_].
  - injection Hs as <-.
    destruct (r_vendor_message_id req); [split; reflexivity|].
    now destruct (Hv Heq).
  - destruct (outcome =? "failed"); [|discriminate].
    injection Hs as <-. split; reflexivity.
Qed.

Lemma receipt_update_campaign req outcome t m :
  campaign_id (receipt_update req outcome t m) = campaign_id m.
Proof.
  unfold receipt_update.
  destruct (outcome =? "delivered");
    [destruct (r_vendor_message_id req); reflexivity|].
  destruct (outcome =? "failed"); reflexivity.
Qed.

Lemma apply_receipt_campaigns req mid outcome :
  respects same_campaigns (apply_receipt req mid outcome).
Proof.
  unfold apply_receipt, update_message_delivered,
    update_message_receipt_failed.
  destruct (outcome =? "delivered").
  - apply respects_bind; eauto with steps; [step_frame|].
    intros t. destruct (r_vendor_message_id req); step_frame.
  - step_frame.
Qed.

(** The completion test never succeeds, so the handler never writes to
    [campaigns], whatever it answers. *)
Lemma deliveryReceipt_campaigns req :
  respects same_campaigns (deliveryReceipt req).
Proof.
  unfold deliveryReceipt.
  apply respects_try_catch; eauto with steps; [|intros e; step_frame].
  destruct (r_message_id req) as [mid|]; [|step_frame].
  destruct (r_status req) as [outcome|]; [|step_frame].
  destruct (missing_fields req); [step_frame|].
  apply respects_bind; eauto with steps.
  { unfold select_message. step_frame. }
  intros [|log logs]; [step_frame|].
  apply respects_bind; eauto with steps; [apply apply_receipt_campaigns|].
  intros _ w r w'. unfold bind at 1, select_campaign_stats, execute.
  cbn [submit fst snd]. destruct (hd false (faults w)).
  { intros [= _ <-]. split; reflexivity. }
  match goal with
  | |- context [if ?test then _ else _] =>
      replace test with false
        by (symmetry;
            apply (completion_test_fails (campaign_id log)
                     (communication_log w)))
  end.
  intros [= _ <-]. split; reflexivity.
Qed.

End ReceiptFacts.

(* ================================================================= *)
(** * Properties of the delivery receipts *)

Module ReceiptProperties.
Import Store Sql Http Vendor Pipeline Receipts StoreFacts ReceiptFacts.


(** C2, amended.  A processed receipt whose outcome is [delivered] or
    [failed] sets the status of its message to that outcome, whatever the
    status was.  So a receipt whose outcome is already the status of the
    message changes no status, and neither does the same receipt processed
    a second time. *)
Theorem receipt_sets_status req w resp w' mid outcome s :
  deliveryReceipt req w = (Ok resp, w') ->
  code resp = 200 ->
  r_message_id req = Some mid ->
  r_status req = Some outcome ->
  receipt_status outcome = Some s ->
  (forall m', In m' (communication_log w') -> id m' = mid -> status m' = s) /\
  ((forall m, In m (communication_log w) -> id m = mid -> status m = s) ->
   map status (communication_log w') = map status (communication_log w)) /\
  (forall v resp2 v',
      communication_log v = communication_log w' ->
      deliveryReceipt req v = (Ok resp2, v') ->
      code resp2 = 200 ->
      map status (communication_log v') = map status (communication_log w')).
Proof.
  intros H Hcode Hmid Hstatus Hs.
  destruct (deliveryReceipt_ok _ _ _ _ H Hcode)
    as (mid' & outcome' & log & logs & Hmid' & Hstatus' & _ & Hlog & _
        & Hvendor).
  rewrite Hmid in Hmid'. injection Hmid' as <-.
  rewrite Hstatus in Hstatus'. injection Hstatus' as <-.
  pose proof (fun t => receipt_update_status req outcome t s Hs Hvendor)
    as Hupdate.
  assert (Hset : forall m',
             In m' (communication_log w') -> id m' = mid -> status m' = s).
  { rewrite Hlog. apply update_message_status, Hupdate. }
  split; [exact Hset|]. split.
  - intros Halready. rewrite Hlog.
    apply update_message_same_status with (s := s); [|exact Halready].
    intros m. apply Hupdate.
  - intros v resp2 v' Hv H2 Hcode2.
    destruct (deliveryReceipt_ok _ _ _ _ H2 Hcode2)
      as (mid2 & outcome2 & _ & _ & Hmid2 & Hstatus2 & _ & Hlog2 & _ & _).
    rewrite Hmid in Hmid2. injection Hmid2 as <-.
    rewrite Hstatus in Hstatus2. injection Hstatus2 as <-.
    rewrite Hlog2, Hv.
    apply update_message_same_status with (s := s); [|exact Hset].
    intros m. apply Hupdate.
Qed.

Lemma receipt_sets_status_witness :
  (forall m',
      In m' (communication_log delivered_world) -> id m' = 1 ->
      status m' = Delivered) /\
  ((forall m,
       In m (communication_log receipt_world) -> id m = 1 ->
       status m = Delivered) ->
   map status (communication_log delivered_world) =
   map status (communication_log receipt_world)) /\
  (forall v resp2 v',
      communication_log v = communication_log delivered_world ->
      deliveryReceipt delivered_receipt v = (Ok resp2, v') ->
      code resp2 = 200 ->
      map status (communication_log v') =
      map status (communication_log delivered_world)).
Proof.
  apply (receipt_sets_status delivered_receipt receipt_world
           {| code := 200; body := ReceiptProcessed |} delivered_world
           1 "delivered" Delivered).
  - vm_compute; reflexivity.
  - vm_compute; reflexivity.
  - vm_compute; reflexivity.
  - vm_compute; reflexivity.
  - vm_compute; reflexivity.
Defined.

(** C2, as stated, fails: message 2 is [failed], a terminal status; the
    later receipt that reports it delivered is processed and moves it to
    [delivered].  And the receipt that reports it failed again, whose
    outcome matches its status, rewrites its failure reason. *)
Lemma later_receipt_overwrites_terminal_status :
  map status (communication_log receipt_world) = [Sent; Failed] /\
  deliveryReceipt late_delivery receipt_world =
    (Ok {| code := 200; body := ReceiptProcessed |}, late_delivery_world) /\
  map status (communication_log late_delivery_world) = [Sent; Delivered] /\
  map failure_reason (communication_log receipt_world) =
    [None; Some "Vendor API error"] /\
  deliveryReceipt repeated_failure receipt_world =
    (Ok {| code := 200; body := ReceiptProcessed |}, repeated_failure_world) /\
  map status (communication_log repeated_failure_world) = [Sent; Failed] /\
  map failure_reason (communication_log repeated_failure_world) =
    [None; Some "Network timeout"].
Proof. vm_compute. repeat split. Qed.

End ReceiptProperties.

(* ================================================================= *)
(** * Further properties of the compiler *)

Module ExpressionFacts.
Import Compiler Frames CompilerFacts RuleTree RuleTreeFacts LeafFacts
  CompilerProperties Expressions.

Lemma comparison_of_In field operator table c :
  comparison_of field operator table = Some c ->
  In ((field, operator), c) table.
Proof.
  induction table as [|[[f o] c'] rest IH]; simpl; [discriminate|].
  destruct (String.eqb_spec f field) as [->|_]; simpl; [|auto].
  destruct (String.eqb_spec o operator) as [->|_]; simpl; [|auto].
  intros [= ->]. now left.
Qed.

Lemma table_entry_unsupported field operator value :
  (forall f o c,
      In ((f, o), c) comparisons ->
      field = Some (JStr f) -> operator = Some (JStr o) -> False) ->
  table_entry field operator value = ("", []).
Proof.
  intros H. unfold table_entry.
  destruct value as [v|]; [|reflexivity].
  destruct field as [[| | |f| |]|]; try reflexivity.
  destruct operator as [[| | |o| |]|]; try reflexivity. cbn [text_of].
  destruct (comparison_of f o comparisons) eqn:E; [|reflexivity].
  apply comparison_of_In in E. now destruct (H _ _ _ E eq_refl eq_refl).
Qed.

Ltac not_in_table :=
  apply table_entry_unsupported;
  let f := fresh "f" in
  let o := fresh "o" in
  let c := fresh "c" in
  let Hin := fresh "Hin" in
  intros f o c Hin ? ?; subst;
  simpl in Hin;
  repeat (destruct Hin as [Hin|Hin];
          [injection Hin as <- <- <-; simpl in *; discriminate|]);
  destruct Hin.

(** The two [switch] statements look the pair up in the table. *)
Lemma processCondition_table field operator value q d :
  processCondition field operator value [] = Ok (q, d) ->
  (q, d) = table_entry field operator value.
Proof.
  destruct value as [v|].
  2:{ unfold processCondition. simpl is_undefined. rewrite orb_true_r.
      unfold ret. intros [= <- <-]. symmetry. unfold table_entry.
      reflexivity. }
  unfold processCondition.
  destruct (_ || _ || _) eqn:Hguard.
  { unfold ret. intros [= <- <-]. symmetry.
    simpl in Hguard. rewrite orb_false_r in Hguard. not_in_table. }
  clear Hguard.
  repeat switch_on.
  all: try (unfold ret; intros [= <- <-]; symmetry; not_in_table).
  all: match goal with
       | |- _ -> _ = ?t =>
           let t' := eval cbv -[assoc] in t in change t with t'
       end.
  all: run_leaf; try discriminate; intros [= <- <-]; reflexivity.
Qed.

(** A leaf object compiles to its entry of the table. *)
Lemma leaf_table props ps q ps' :
  is_composite props = false ->
  processRule (JObj props) ps = Ok (q, ps') ->
  exists d,
    ps' = ps ++ d /\
    (q, d) = table_entry (assoc "field" props) (assoc "operator" props)
               (assoc "value" props).
Proof.
  intros Hleaf H. rewrite (framed_processRule (JObj props) ps) in H.
  destruct (processRule (JObj props) []) as [[q0 d]|e] eqn:Hrun;
    [|discriminate].
  injection H as <- <-. exists d. split; [reflexivity|].
  rewrite processRule_obj, Hleaf in Hrun.
  now apply processCondition_table.
Qed.

Lemma table_entry_clause field operator value :
  fst (table_entry field operator value) = "" \/
  clause (fst (table_entry field operator value)).
Proof.
  unfold table_entry.
  destruct value; [|now left].
  destruct (text_of field) as [f|]; [|now left].
  destruct (text_of operator) as [o|]; [|now left].
  destruct (comparison_of f o comparisons) as [c|] eqn:E; [|now left].
  right. simpl. eapply clause_comparison, comparison_of_In, E.
Qed.

Lemma clause_nonempty q : clause q -> q <> "".
Proof.
  intros H. inversion H as [pair c Hin|op c cs _ _]; subst; [|discriminate].
  simpl in Hin.
  repeat (destruct Hin as [Hin|Hin]; [injection Hin as _ <-; discriminate|]).
  destruct Hin.
Qed.

Lemma joined_clause operator qs :
  is_str "AND" operator || is_str "OR" operator = true ->
  Forall (fun q => q = "" \/ clause q) qs ->
  joined (op_text operator) qs = "" \/ clause (joined (op_text operator) qs).
Proof.
  intros Hop Hall. unfold joined.
  assert (Hkept : Forall clause (filter (fun s => negb (s =? "")) qs)).
  { induction Hall as [|q qs Hq _ IH]; simpl; [constructor|].
    destruct (String.eqb_spec q "") as [->|Hne]; simpl; [exact IH|].
    constructor; [|exact IH]. now destruct Hq. }
  destruct (filter _ qs) as [|c cs]; [now left|]. right.
  cbv zeta. change (0 <? _)%nat with true. cbv iota.
  apply clause_join; [|exact Hkept].
  apply orb_prop in Hop as [H|H]; apply is_str_true in H; rewrite H; simpl;
    auto.
Qed.

Lemma joined_empty op qs :
  joined op qs = "" <-> Forall (fun q => q = "") qs.
Proof.
  unfold joined. split.
  - intros H. induction qs as [|q qs IH]; [constructor|].
    simpl in H. destruct (String.eqb_spec q "") as [->|Hne]; simpl in H.
    + constructor; auto.
    + discriminate.
  - intros H. induction H as [|q qs -> _ IH]; [reflexivity|].
    simpl. exact IH.
Qed.

Lemma processRule_clause rule :
  forall q d, processRule rule [] = Ok (q, d) -> q = "" \/ clause q.
Proof.
  induction rule as [rule IH] using rule_ind. intros q d Hrun.
  destruct (children rule) as [items|] eqn:Hch.
  - specialize (IH _ eq_refl).
    destruct (processRule_children _ _ Hch) as (props & -> & Hc & Heq).
    rewrite Heq in Hrun. unfold bind in Hrun.
    destruct (mapM processRule items []) as [[qs ds]|e] eqn:Hmap;
      [|discriminate].
    unfold ret in Hrun. injection Hrun as <- <-.
    apply joined_clause; [exact Hc|].
    destruct (mapM_each _ _ _ Hmap) as (each & Hall & -> & _).
    clear Hmap Heq Hch Hc.
    induction Hall as [|child [q d] items each Hchild Hall IHall];
      [constructor|].
    inversion IH as [|? ? IHchild IHrest]; subst.
    constructor; [exact (IHchild _ _ Hchild) | exact (IHall IHrest)].
  - rewrite (processRule_no_children _ Hch) in Hrun.
    destruct rule as [| | | | |props]; try discriminate;
      try (injection Hrun as <- _; now left).
    destruct (is_composite props); [discriminate|].
    apply processCondition_table in Hrun.
    pose proof (table_entry_clause (assoc "field" props)
                  (assoc "operator" props) (assoc "value" props)) as H.
    now rewrite <- Hrun in H.
Qed.

Lemma retained_children rule items :
  children rule = Some items ->
  retained_leaves rule = flat_map retained_leaves items.
Proof.
  intros Hch. unfold retained_leaves. rewrite (leaves_children _ _ Hch).
  clear Hch. induction items as [|x items IH]; [reflexivity|].
  cbn [flat_map]. rewrite filter_app, IH. reflexivity.
Qed.

Lemma flat_map_nil {A B} (f : A -> list B) l :
  flat_map f l = [] <-> Forall (fun x => f x = []) l.
Proof.
  induction l as [|x l IH]; simpl.
  - split; constructor.
  - split.
    + intros H. apply app_eq_nil in H as [Hx Hl]. constructor; [|apply IH];
        assumption.
    + intros H. inversion H as [|? ? Hx Hl]; subst. rewrite Hx. simpl.
      now apply IH.
Qed.

Lemma processRule_empty rule :
  forall q d,
    processRule rule [] = Ok (q, d) ->
    (q = "" <-> retained_leaves rule = []).
Proof.
  induction rule as [rule IH] using rule_ind. intros q d Hrun.
  destruct (children rule) as [items|] eqn:Hch.
  - specialize (IH _ eq_refl).
    rewrite (retained_children _ _ Hch), flat_map_nil.
    destruct (processRule_children _ _ Hch) as (props & -> & Hc & Heq).
    rewrite Heq in Hrun. unfold bind in Hrun.
    destruct (mapM processRule items []) as [[qs ds]|e] eqn:Hmap;
      [|discriminate].
    unfold ret in Hrun. injection Hrun as <- <-.
    rewrite joined_empty.
    destruct (mapM_each _ _ _ Hmap) as (each & Hall & -> & _).
    clear Hmap Heq Hch Hc.
    induction Hall as [|child [q d] items each Hchild Hall IHall].
    + split; constructor.
    + inversion IH as [|? ? IHchild IHrest]; subst.
      specialize (IHall IHrest). specialize (IHchild _ _ Hchild).
      simpl. split; intros H; inversion H; subst; constructor;
        try (now apply IHchild); now apply IHall.
  - unfold retained_leaves, leaf_expression.
    rewrite (leaves_no_children _ Hch). simpl. rewrite Hrun.
    destruct (String.eqb_spec q "") as [->|Hne]; simpl.
    + split; reflexivity.
    + split; [contradiction | discriminate].
Qed.

Lemma processCondition_raises field operator value ps e :
  processCondition field operator value ps = Throw e -> e = TypeError.
Proof.
  unfold processCondition.
  destruct (_ || _ || _); [discriminate|].
  repeat switch_on; run_leaf; try discriminate; now intros [= <-].
Qed.

Lemma sequence_throw rs e :
  sequence rs = Throw e -> In (Throw e) rs.
Proof.
  induction rs as [|[[q d]|e'] rest IH]; simpl; [discriminate| |].
  - destruct (sequence rest) as [[qs ds]|e0]; [discriminate|].
    intros [= ->]. right. now apply IH.
  - intros [= ->]. now left.
Qed.

Lemma sequence_ok rs qs ds r :
  sequence rs = Ok (qs, ds) -> In r rs -> exists qd, r = Ok qd.
Proof.
  intros H Hin. apply sequence_Forall2 in H as (each & Hall & _).
  clear qs ds. induction Hall as [|r0 qd rs each Hr _ IH]; [destruct Hin|].
  destruct Hin as [<-|Hin]; eauto.
Qed.

(** The compiler raises nothing but a [TypeError]. *)
Lemma processRule_raises rule :
  forall ps e, processRule rule ps = Throw e -> e = TypeError.
Proof.
  induction rule as [rule IH] using rule_ind. intros ps e Hrun.
  rewrite (framed_processRule rule ps) in Hrun.
  destruct (processRule rule []) as [[q d]|e0] eqn:H0; [discriminate|].
  injection Hrun as ->.
  destruct (children rule) as [items|] eqn:Hch.
  - specialize (IH _ eq_refl).
    destruct (processRule_children _ _ Hch) as (props & -> & Hc & Heq).
    rewrite Heq in H0. unfold bind in H0. rewrite mapM_sequence in H0.
    destruct (sequence _) as [[qs ds]|e1] eqn:Hseq; [discriminate|].
    injection H0 as ->. apply sequence_throw in Hseq.
    apply in_map_iff in Hseq as (child & Hchild & Hin).
    rewrite Forall_forall in IH. exact (IH _ Hin _ _ Hchild).
  - rewrite (processRule_no_children _ Hch) in H0.
    destruct rule as [| | | | |props]; try discriminate.
    + now injection H0 as <-.
    + destruct (is_composite props); [now injection H0 as <-|].
      now apply processCondition_raises in H0.
Qed.

End ExpressionFacts.

(* ================================================================= *)
(** * Further properties of the predicate compiler *)

Module ExpressionProperties.
Import Compiler Frames CompilerFacts RuleTree RuleTreeFacts LeafFacts
  CompilerProperties Expressions ExpressionFacts.

(** X1.  [processRule] only appends to the shared [params] array: what was
    bound before stays in place, and the expression and the values
    appended are the same whatever the array held. *)
Theorem processRule_only_appends rule ps q ps' :
  processRule rule ps = Ok (q, ps') ->
  exists d,
    ps' = ps ++ d /\
    forall ps0, processRule rule ps0 = Ok (q, ps0 ++ d).
Proof.
  intros H. rewrite (framed_processRule rule ps) in H.
  destruct (processRule rule []) as [[q0 d]|e] eqn:Hrun; [|discriminate].
  injection H as <- <-. exists d. split; [reflexivity|].
  intros ps0. now rewrite (framed_processRule rule ps0), Hrun.
Qed.

Lemma processRule_only_appends_witness :
  exists d,
    [Value (Some (JStr "active")); ParseFloat (Some (JNum 1000%Q));
     ParseFloat (Some (JNum 2000%Q))] =
    [Value (Some (JStr "active"))] ++ d /\
    forall ps0,
      processRule spent_between ps0 =
      Ok ("total_spent BETWEEN ? AND ?", ps0 ++ d).
Proof.
  apply (processRule_only_appends spent_between
           [Value (Some (JStr "active"))]).
  reflexivity.
Defined.

(** X2.  The compiled expression is empty exactly when no leaf of the tree
    is retained, and no parameter is bound then. *)
Theorem empty_expression_iff_nothing_retained rule cq :
  buildSegmentQuery rule = Ok cq ->
  (query cq = "" <-> retained_leaves rule = []) /\
  (query cq = "" -> params cq = []).
Proof.
  unfold buildSegmentQuery.
  destruct (processRule rule []) as [[q d]|e] eqn:Hrun; [|discriminate].
  intros [= <-]. simpl. split; [now apply (processRule_empty rule q d)|].
  intros ->. destruct (processRule_emission _ _ _ Hrun) as [_ Hlen].
  destruct d; [reflexivity | discriminate].
Qed.

Lemma empty_expression_iff_nothing_retained_witness :
  (query sample_compiled = "" <-> retained_leaves sample_tree = []) /\
  (query sample_compiled = "" -> params sample_compiled = []).
Proof.
  apply (empty_expression_iff_nothing_retained sample_tree sample_compiled).
  reflexivity.
Defined.

(** X3.  The compiled expression holds no text of the rule tree: it is
    empty, or one of the fixed comparisons, or expressions of that kind
    joined by [AND] or [OR] inside parentheses. *)
Theorem compiled_expression_is_a_clause rule cq :
  buildSegmentQuery rule = Ok cq ->
  query cq = "" \/ clause (query cq).
Proof.
  unfold buildSegmentQuery.
  destruct (processRule rule []) as [[q d]|e] eqn:Hrun; [|discriminate].
  intros [= <-]. simpl. exact (processRule_clause rule q d Hrun).
Qed.

Lemma compiled_expression_is_a_clause_witness :
  query sample_compiled = "" \/ clause (query sample_compiled).
Proof.
  apply (compiled_expression_is_a_clause sample_tree sample_compiled).
  reflexivity.
Defined.

(** X4.  The two nested [switch] statements are a table lookup: a leaf
    that compiles yields the comparison of its pair of field and operator
    and binds the values that comparison takes, and yields the empty
    expression and no value when the pair is not one of the fifteen
    supported ones or the value is undefined. *)
Theorem leaf_compiles_to_its_table_entry props cq :
  is_composite props = false ->
  buildSegmentQuery (JObj props) = Ok cq ->
  (query cq, params cq) =
  table_entry (assoc "field" props) (assoc "operator" props)
    (assoc "value" props).
Proof.
  intros Hleaf. unfold buildSegmentQuery.
  destruct (processRule (JObj props) []) as [[q d]|e] eqn:Hrun;
    [|discriminate].
  intros [= <-]. simpl.
  destruct (leaf_table _ _ _ _ Hleaf Hrun) as (d' & Hd & Htable).
  simpl in Hd. now subst d'.
Qed.

Lemma leaf_compiles_to_its_table_entry_witness :
  ("total_spent BETWEEN ? AND ?",
   [ParseFloat (Some (JNum 1000%Q)); ParseFloat (Some (JNum 2000%Q))]) =
  table_entry (Some (JStr "total_spent")) (Some (JStr "between"))
    (Some (JObj [("min", JNum 1000%Q); ("max", JNum 2000%Q)])).
Proof.
  apply (leaf_compiles_to_its_table_entry
           [("field", JStr "total_spent"); ("operator", JStr "between");
            ("value", JObj [("min", JNum 1000%Q); ("max", JNum 2000%Q)])]
           {| query := "total_spent BETWEEN ? AND ?";
              params := [ParseFloat (Some (JNum 1000%Q));
                         ParseFloat (Some (JNum 2000%Q))] |}).
  - reflexivity.
  - reflexivity.
Defined.

(** X5.  A composite with [null] among its conditions makes the whole
    compilation raise a [TypeError], wherever the composite sits and
    whatever its other conditions are. *)
Theorem null_condition_raises rule items ps :
  children rule = Some items ->
  In JNull items ->
  processRule rule ps = Throw TypeError.
Proof.
  intros Hch Hin.
  destruct (processRule rule ps) as [[q d]|e] eqn:Hrun.
  - exfalso. rewrite (framed_processRule rule ps) in Hrun.
    destruct (processRule_children _ _ Hch) as (props & -> & _ & Heq).
    rewrite Heq in Hrun. unfold bind in Hrun. rewrite mapM_sequence in Hrun.
    destruct (sequence _) as [[qs ds]|e] eqn:Hseq; [|discriminate].
    destruct (sequence_ok _ _ _ (processRule JNull []) Hseq) as (qd & H).
    + apply in_map_iff. exists JNull. now split.
    + discriminate.
  - f_equal. exact (processRule_raises rule ps e Hrun).
Qed.

Lemma null_condition_raises_witness :
  processRule
    (composite "AND" [condition "status" "equals" (JStr "active"); JNull])
    [] = Throw TypeError.
Proof.
  apply (null_condition_raises _
           [condition "status" "equals" (JStr "active"); JNull]).
  - reflexivity.
  - right. now left.
Defined.

End ExpressionProperties.

(* ================================================================= *)
(** * Further properties of the segment handlers *)

Module SegmentFacts.
Import Store Sql Http Segments Pipeline Invariants StoreFacts.

Lemma same_tables_refl w : same_tables w w.
Proof. repeat split. Qed.

Lemma same_tables_trans w1 w2 w3 :
  same_tables w1 w2 -> same_tables w2 w3 -> same_tables w1 w3.
Proof.
  intros (A1 & A2 & A3 & A4 & A5) (B1 & B2 & B3 & B4 & B5).
  repeat split; congruence.
Qed.

Lemma count_customers_tables q ps : respects same_tables (count_customers q ps).
Proof.
  apply respects_execute.
  - apply same_tables_trans.
  - intros. repeat split.
  - intros w r w' [= _ <-]. apply same_tables_refl.
Qed.

Lemma sample_customers_tables q ps :
  respects same_tables (sample_customers q ps).
Proof.
  apply respects_execute.
  - apply same_tables_trans.
  - intros. repeat split.
  - intros w r w' [= _ <-]. apply same_tables_refl.
Qed.

Lemma previewSegment_tables rules : respects same_tables (previewSegment rules).
Proof.
  unfold previewSegment.
  apply respects_try_catch; try apply same_tables_trans.
  2:{ intros e. apply respects_ret, same_tables_refl. }
  destruct rules as [r|]; [|apply respects_ret, same_tables_refl].
  destruct (negb _); [apply respects_ret, same_tables_refl|].
  apply respects_bind; try apply same_tables_trans.
  { apply respects_lift, same_tables_refl. }
  intros cq. destruct (empty_clause _); [apply respects_ret, same_tables_refl|].
  apply respects_bind; try apply same_tables_trans.
  { apply count_customers_tables. }
  intros n. apply respects_bind; try apply same_tables_trans.
  { apply sample_customers_tables. }
  intros sample. apply respects_ret, same_tables_refl.
Qed.

(** The identifier is that of one row at most once ids are fresh. *)
Lemma lookup_inserted w row :
  fresh_segment_ids w ->
  segment_id row = next_segment_id w ->
  filter (fun s => (segment_id s =? next_segment_id w)%nat)
    (segments w ++ [row]) = [row].
Proof.
  intros Hfresh Hid. rewrite filter_app. simpl.
  rewrite Hid, Nat.eqb_refl.
  replace (filter _ (segments w)) with (@nil segment); [reflexivity|].
  symmetry. unfold fresh_segment_ids in Hfresh.
  induction Hfresh as [|s l Hs _ IH]; [reflexivity|].
  simpl. destruct (Nat.eqb_spec (segment_id s) (next_segment_id w)); [lia|].
  exact IH.
Qed.

End SegmentFacts.

Module SegmentHandlerProperties.
Import Store Sql Http Segments Pipeline Invariants Scenarios.
Import StoreFacts SegmentFacts.

(** X6.  A rule tree on which the compiler raises is answered 500 by
    segment creation and, unless it is falsy, by the preview; neither
    hands a statement to the database. *)
Theorem compiler_exception_is_answered_500 rules e w :
  Compiler.buildSegmentQuery rules = Throw e ->
  truthy (Some rules) = true ->
  createSegment (Valid rules) w =
    (Ok {| code := 500; body := ErrorMessage "Failed to create segment" |},
     w) /\
  previewSegment (Some rules) w =
    (Ok {| code := 500; body := ErrorMessage "Failed to preview segment" |},
     w).
Proof.
  intros Hraise Htruthy. split.
  - unfold createSegment, try_catch, bind, lift. now rewrite Hraise.
  - unfold previewSegment, try_catch, bind, lift.
    now rewrite Htruthy, Hraise.
Qed.

Lemma compiler_exception_is_answered_500_witness :
  createSegment (Valid (JObj [("operator", JStr "AND")])) sample_world =
    (Ok {| code := 500; body := ErrorMessage "Failed to create segment" |},
     sample_world) /\
  previewSegment (Some (JObj [("operator", JStr "AND")])) sample_world =
    (Ok {| code := 500; body := ErrorMessage "Failed to preview segment" |},
     sample_world).
Proof.
  apply (compiler_exception_is_answered_500
           (JObj [("operator", JStr "AND")]) TypeError sample_world).
  - reflexivity.
  - reflexivity.
Defined.

(** X7.  A creation answered 201 has counted the customers that match the
    compiled expression, inserted the segment with that count as its
    audience size, and read it back: the segment returned is the one
    stored, under a fresh identifier. *)
Theorem created_segment_is_counted_and_stored rules w resp w' :
  createSegment (Valid rules) w = (Ok resp, w') ->
  code resp = 201 ->
  fresh_segment_ids w ->
  exists cq customers,
    Compiler.buildSegmentQuery rules = Ok cq /\
    Compiler.query cq <> "" /\
    customers_where w (Compiler.query cq) (Compiler.params cq)
      = Ok customers /\
    issued w' =
      issued w ++
      [ CountCustomers (Compiler.query cq) (Compiler.params cq);
        InsertSegment rules (List.length customers);
        SelectSegment (next_segment_id w) ] /\
    segments w' =
      segments w ++
      [{| segment_id := next_segment_id w; parsed := Ok rules |}] /\
    body resp =
      SegmentCreated
        (Some {| segment_id := next_segment_id w; parsed := Ok rules |}) /\
    fresh_segment_ids w'.
Proof.
  unfold createSegment. intros H Hcode Hfresh.
  apply try_catch_ok in H as [H|(e & w1 & _ & H)].
  2:{ injection H as <- _. discriminate. }
  apply bind_ok in H as (cq & w0 & Hcq & H).
  unfold lift in Hcq. injection Hcq as Hcq <-.
  destruct (empty_clause (Compiler.query cq)) eqn:Hempty.
  { injection H as <- _. discriminate. }
  apply bind_ok in H as (n & w1 & Hcount & H).
  apply execute_ok in Hcount as [_ Hcount]. simpl in Hcount.
  destruct (customers_where w _ _) as [customers|] eqn:Hcust;
    [|discriminate].
  injection Hcount as <- <-.
  apply bind_ok in H as (i & w2 & Hins & H).
  apply execute_ok in Hins as [_ Hins]. injection Hins as <- <-.
  apply bind_ok in H as (rows & w3 & Hsel & H).
  apply execute_ok in Hsel as [_ Hsel]. injection Hsel as <- <-.
  injection H as <- <-. simpl in *.
  exists cq, customers. split; [exact Hcq|].
  split. { intros Hq. unfold empty_clause in Hempty. now rewrite Hq in Hempty. }
  split; [exact Hcust|]. split; [now rewrite <- !app_assoc|].
  split; [reflexivity|]. split.
  - pose proof (lookup_inserted w
                  {| segment_id := next_segment_id w; parsed := Ok rules |}
                  Hfresh eq_refl) as Hlook.
    simpl in Hlook. now rewrite Hlook.
  - unfold fresh_segment_ids in *. simpl. apply Forall_app. split.
    + eapply Forall_impl; [|exact Hfresh]. simpl. intros; lia.
    + repeat constructor.
Qed.

Lemma created_segment_is_counted_and_stored_witness :
  exists cq customers,
    Compiler.buildSegmentQuery active_customers = Ok cq /\
    Compiler.query cq <> "" /\
    customers_where sample_world (Compiler.query cq) (Compiler.params cq)
      = Ok customers /\
    issued created_world =
      issued sample_world ++
      [ CountCustomers (Compiler.query cq) (Compiler.params cq);
        InsertSegment active_customers (List.length customers);
        SelectSegment (next_segment_id sample_world) ] /\
    segments created_world =
      segments sample_world ++
      [{| segment_id := next_segment_id sample_world;
          parsed := Ok active_customers |}] /\
    body created_answer =
      SegmentCreated
        (Some {| segment_id := next_segment_id sample_world;
                 parsed := Ok active_customers |}) /\
    fresh_segment_ids created_world.
Proof.
  apply (created_segment_is_counted_and_stored active_customers sample_world
           created_answer created_world).
  - vm_compute; reflexivity.
  - reflexivity.
  - unfold fresh_segment_ids. simpl. repeat constructor.
Defined.

(** X8.  A creation answered 500 is not rolled back: when the database
    fails the read-back, the segment inserted just before stays in the
    table.  In every other case the table is as it was.  The other tables
    are never touched. *)
Theorem creation_answered_500_is_not_rolled_back validated w resp w' :
  createSegment validated w = (Ok resp, w') ->
  code resp = 500 ->
  campaigns w' = campaigns w /\
  communication_log w' = communication_log w /\
  (segments w' = segments w \/
   exists rules audienceSize before,
     validated = Valid rules /\
     segments w' =
       segments w ++
       [{| segment_id := next_segment_id w; parsed := Ok rules |}] /\
     issued w' =
       before ++
       [InsertSegment rules audienceSize; SelectSegment (next_segment_id w)]).
Proof.
  unfold createSegment. intros H Hcode.
  apply try_catch_ok in H as [H|(e & w1 & Hraise & H)].
  { destruct validated as [details|rules].
    - injection H as <- _. discriminate.
    - apply bind_ok in H as (cq & w0 & _ & H).
      destruct (empty_clause _); [injection H as <- _; discriminate|].
      apply bind_ok in H as (n & wa & _ & H).
      apply bind_ok in H as (i & wb & _ & H).
      apply bind_ok in H as (rows & wc & _ & H).
      injection H as <- _. discriminate. }
  injection H as _ <-. clear Hcode resp.
  destruct validated as [details|rules]; [discriminate|].
  apply bind_throw in Hraise as [Hraise|(cq & w0 & Hcq & Hraise)].
  { injection Hraise as _ <-. auto. }
  injection Hcq as _ <-.
  destruct (empty_clause _); [discriminate|].
  apply bind_throw in Hraise as [Hraise|(n & wa & Hcount & Hraise)].
  { apply execute_throw in Hraise as [[_ ->]|[_ Hraise]];
      [|injection Hraise as _ <-]; auto. }
  apply execute_ok in Hcount as [_ Hcount]. injection Hcount as _ <-.
  apply bind_throw in Hraise as [Hraise|(i & wb & Hins & Hraise)].
  { apply execute_throw in Hraise as [[_ ->]|[_ Hraise]];
      [auto | discriminate]. }
  apply execute_ok in Hins as [_ Hins]. injection Hins as <- <-.
  apply bind_throw in Hraise as [Hraise|(rows & wc & _ & Hraise)];
    [|discriminate].
  apply execute_throw in Hraise as [[_ ->]|[_ Hraise]]; [|discriminate].
  simpl. split; [reflexivity|]. split; [reflexivity|]. right.
  exists rules, n. eexists. split; [reflexivity|]. split; [reflexivity|].
  rewrite <- app_assoc. reflexivity.
Qed.

Lemma creation_answered_500_is_not_rolled_back_witness :
  campaigns unread_world = campaigns readback_fault_world /\
  communication_log unread_world = communication_log readback_fault_world /\
  (segments unread_world = segments readback_fault_world \/
   exists rules audienceSize before,
     Valid active_customers = Valid rules /\
     segments unread_world =
       segments readback_fault_world ++
       [{| segment_id := next_segment_id readback_fault_world;
           parsed := Ok rules |}] /\
     issued unread_world =
       before ++
       [ InsertSegment rules audienceSize;
         SelectSegment (next_segment_id readback_fault_world) ]).
Proof.
  apply (creation_answered_500_is_not_rolled_back (Valid active_customers)
           readback_fault_world
           {| code := 500; body := ErrorMessage "Failed to create segment" |}
           unread_world).
  - vm_compute; reflexivity.
  - reflexivity.
Defined.

(** The read-back fails in [readback_fault_world]: the answer is 500 and
    segment 8 is stored. *)
Example readback_failure_keeps_the_segment :
  createSegment (Valid active_customers) readback_fault_world =
    (Ok {| code := 500; body := ErrorMessage "Failed to create segment" |},
     unread_world) /\
  map segment_id (segments unread_world) = [7; 8].
Proof. vm_compute. split; reflexivity. Qed.

(** X9.  The preview writes to no table, whatever it answers; answered
    200, it has issued the count and the sample with the same expression
    and parameters, reports the number of matching customers and the
    first ten of them. *)
Theorem preview_only_reads rules w resp w' :
  previewSegment rules w = (Ok resp, w') ->
  same_tables w w' /\
  (code resp = 200 ->
   exists r cq customers,
     rules = Some r /\
     Compiler.buildSegmentQuery r = Ok cq /\
     customers_where w (Compiler.query cq) (Compiler.params cq)
       = Ok customers /\
     issued w' =
       issued w ++
       [ CountCustomers (Compiler.query cq) (Compiler.params cq);
         SampleCustomers (Compiler.query cq) (Compiler.params cq) ] /\
     body resp = Preview (List.length customers) (firstn 10 customers)).
Proof.
  intros H. split; [exact (previewSegment_tables rules _ _ _ H)|].
  intros Hcode. unfold previewSegment in H.
  apply try_catch_ok in H as [H|(e & w1 & _ & H)].
  2:{ injection H as <- _. discriminate. }
  destruct rules as [r|]; [|injection H as <- _; discriminate].
  destruct (negb _); [injection H as <- _; discriminate|].
  apply bind_ok in H as (cq & w0 & Hcq & H).
  unfold lift in Hcq. injection Hcq as Hcq <-.
  destruct (empty_clause _); [injection H as <- _; discriminate|].
  apply bind_ok in H as (n & w1 & Hcount & H).
  apply execute_ok in Hcount as [_ Hcount]. simpl in Hcount.
  destruct (customers_where w _ _) as [customers|] eqn:Hcust;
    [|discriminate].
  injection Hcount as <- <-.
  apply bind_ok in H as (sample & w2 & Hsample & H).
  apply execute_ok in Hsample as [_ Hsample]. simpl in Hsample.
  rewrite Hcust in Hsample. injection Hsample as <- <-.
  injection H as <- <-. simpl.
  exists r, cq, customers. repeat split; try assumption.
  now rewrite <- app_assoc.
Qed.

Lemma preview_only_reads_witness :
  same_tables sample_world previewed_world /\
  (code preview_answer = 200 ->
   exists r cq customers,
     Some active_customers = Some r /\
     Compiler.buildSegmentQuery r = Ok cq /\
     customers_where sample_world (Compiler.query cq) (Compiler.params cq)
       = Ok customers /\
     issued previewed_world =
       issued sample_world ++
       [ CountCustomers (Compiler.query cq) (Compiler.params cq);
         SampleCustomers (Compiler.query cq) (Compiler.params cq) ] /\
     body preview_answer =
       Preview (List.length customers) (firstn 10 customers)).
Proof.
  apply (preview_only_reads (Some active_customers) sample_world
           preview_answer previewed_world).
  vm_compute; reflexivity.
Defined.

End SegmentHandlerProperties.

(* ================================================================= *)
(** * Further properties of the dispatch *)

Module DispatchSteps.
Import Store Sql Campaigns Pipeline Phases Invariants StoreFacts DispatchFacts.

Lemma database_up_step n stmt w :
  database_up (S n) w ->
  hd false (faults w) = false /\ database_up n (snd (submit stmt w)).
Proof.
  unfold database_up. intros H. split.
  - specialize (H 0 (Nat.lt_0_succ n)). now destruct (faults w).
  - intros k Hk. specialize (H (S k) (proj1 (Nat.succ_lt_mono k n) Hk)).
    simpl. destruct (faults w); [now destruct k | exact H].
Qed.

Lemma update_campaign_failed_status cid cs c :
  In c (update_campaign cid campaign_failed cs) -> camp_id c = cid ->
  camp_status c = CampaignFailed.
Proof.
  unfold update_campaign. intros Hc Hid.
  apply in_map_iff in Hc as (c0 & <- & _).
  destruct (Nat.eqb_spec (camp_id c0) cid) as [_|Hne];
    [reflexivity | contradiction].
Qed.

(** ** A relation every statement of the dispatch keeps is kept by the
    dispatch *)

Section Dispatch.
Variable personalize : string -> customer -> string.
Variable R : world -> world -> Prop.
Hypothesis R_refl : forall w, R w w.
Hypothesis R_trans : forall w1 w2 w3, R w1 w2 -> R w2 w3 -> R w1 w3.
Hypothesis R_submit : forall stmt w, R w (snd (submit stmt w)).
Hypothesis R_random : forall w, R w (snd (random w)).
Hypothesis R_insert :
  forall cid cust content, respects R (insert_message cid cust content).
Hypothesis R_sent : forall mid v, respects R (update_message_sent mid v).
Hypothesis R_failed :
  forall mid reason, respects R (update_message_failed mid reason).
Hypothesis R_campaign_sent : forall cid, respects R (update_campaign_sent cid).
Hypothesis R_campaign_failed :
  forall cid, respects R (update_campaign_failed cid).

Lemma query_respects {A} stmt (answer : world -> result A) :
  respects R (execute stmt (fun w => (answer w, w))).
Proof.
  apply respects_execute; [exact R_trans | exact R_submit |].
  intros w r w' [= _ <-]. apply R_refl.
Qed.

Lemma create_logs_respects cid tpl customers :
  respects R (create_logs personalize cid tpl customers).
Proof.
  induction customers as [|c rest IH]; simpl.
  - now apply respects_ret.
  - apply respects_bind; [exact R_trans | apply R_insert |].
    intros i. apply respects_bind; [exact R_trans | exact IH |].
    intros logs. now apply respects_ret.
Qed.

Lemma send_message_respects log : respects R (send_message log).
Proof.
  unfold send_message.
  apply respects_try_catch; [exact R_trans | | intros e; apply R_failed].
  apply respects_bind; [exact R_trans | now apply respects_random |].
  intros r. destruct (vendor_accepts r); [|apply R_failed].
  apply respects_bind; [exact R_trans | now apply respects_now |].
  intros t. apply R_sent.
Qed.

Lemma dispatch_respects cid sid tpl :
  respects R (dispatch personalize cid sid tpl).
Proof.
  unfold dispatch.
  apply respects_bind; [exact R_trans | apply query_respects |].
  intros [|row rows]; [now apply respects_throw|].
  apply respects_bind; [exact R_trans | now apply respects_lift |].
  intros rules.
  apply respects_bind; [exact R_trans | now apply respects_lift |].
  intros cq.
  apply respects_bind; [exact R_trans | apply query_respects |].
  intros customers.
  apply respects_bind; [exact R_trans | apply create_logs_respects |].
  intros logs.
  apply respects_bind; [exact R_trans | |].
  { apply respects_for_each; [exact R_refl | exact R_trans |].
    intros log. apply send_message_respects. }
  intros _.
  apply respects_bind; [exact R_trans | apply R_campaign_sent |].
  intros _. now apply respects_ret.
Qed.

Lemma sendCampaignMessages_respects cid sid tpl :
  respects R (sendCampaignMessages personalize cid sid tpl).
Proof.
  unfold sendCampaignMessages.
  apply respects_try_catch; [exact R_trans | apply dispatch_respects |].
  intros e.
  apply respects_bind; [exact R_trans | apply R_campaign_failed |].
  intros _. now apply respects_throw.
Qed.

End Dispatch.

(** ** No row regresses *)

Lemma never_regresses_refl m : never_regresses m m.
Proof. split; [apply same_row_refl|]. split; auto. Qed.

Lemma never_regresses_trans m1 m2 m3 :
  never_regresses m1 m2 -> never_regresses m2 m3 -> never_regresses m1 m3.
Proof.
  intros (S1 & P1 & B1) (S2 & P2 & B2).
  split; [eapply same_row_trans; eassumption|]. split; auto.
Qed.

Lemma keeps_progress_refl w : keeps_progress w w.
Proof.
  exists (communication_log w), []. split; [now rewrite app_nil_r|].
  apply Forall2_refl, never_regresses_refl.
Qed.

Lemma keeps_progress_trans w1 w2 w3 :
  keeps_progress w1 w2 -> keeps_progress w2 w3 -> keeps_progress w1 w3.
Proof.
  intros (k1 & a1 & E1 & H1) (k2 & a2 & E2 & H2).
  rewrite E1 in H2. apply Forall2_app_inv_l in H2 as (b & c & Hb & Hc & ->).
  exists b, (c ++ a2). split; [now rewrite E2, app_assoc|].
  eapply Forall2_compose; [apply never_regresses_trans | exact H1 | exact Hb].
Qed.

Lemma keeps_progress_same w w' :
  communication_log w' = communication_log w -> keeps_progress w w'.
Proof.
  intros E. exists (communication_log w), []. split; [now rewrite app_nil_r|].
  apply Forall2_refl, never_regresses_refl.
Qed.

Lemma update_message_pointwise (P : message -> message -> Prop) mid f ms :
  (forall m, P m m) -> (forall m, id m = mid -> P m (f m)) ->
  Forall2 P ms (update_message mid f ms).
Proof.
  intros Hrefl Hf. induction ms as [|m ms IH]; simpl; constructor;
    [|exact IH].
  destruct (Nat.eqb_spec (id m) mid); [now apply Hf | apply Hrefl].
Qed.

Lemma keeps_progress_update mid f w :
  (forall m, never_regresses m (f m)) ->
  keeps_progress w (with_messages w (update_message mid f (communication_log w))).
Proof.
  intros Hf. exists (update_message mid f (communication_log w)), [].
  split; [simpl; now rewrite app_nil_r|].
  apply update_message_pointwise; [apply never_regresses_refl | auto].
Qed.

Lemma mark_sent_progress v t m : never_regresses m (mark_sent v t m).
Proof. repeat split; discriminate. Qed.

Lemma mark_failed_progress reason t m : never_regresses m (mark_failed reason t m).
Proof. repeat split; discriminate. Qed.

Lemma mark_delivered_progress at_ v t m :
  never_regresses m (mark_delivered at_ v t m).
Proof. repeat split; discriminate. Qed.

Lemma execute_keeps_progress {A} stmt (run : world -> result A * world) :
  (forall w r w', run w = (r, w') -> keeps_progress w w') ->
  respects keeps_progress (execute stmt run).
Proof.
  intros Hrun. apply respects_execute;
    [apply keeps_progress_trans | | exact Hrun].
  intros st w. now apply keeps_progress_same.
Qed.

Lemma sendCampaignMessages_progress personalize cid sid tpl :
  respects keeps_progress (sendCampaignMessages personalize cid sid tpl).
Proof.
  apply sendCampaignMessages_respects.
  - apply keeps_progress_refl.
  - apply keeps_progress_trans.
  - intros st w. now apply keeps_progress_same.
  - intros w. now apply keeps_progress_same.
  - intros c cust content. apply execute_keeps_progress.
    intros w r w' [= _ <-].
    exists (communication_log w), [pending_message (next_message_id w) c cust content (clock w)].
    split; [reflexivity|]. apply Forall2_refl, never_regresses_refl.
  - intros mid v. apply execute_keeps_progress.
    intros w r w' [= _ <-]. apply keeps_progress_update.
    intros m. apply mark_sent_progress.
  - intros mid reason. apply execute_keeps_progress.
    intros w r w' [= _ <-]. apply keeps_progress_update.
    intros m. apply mark_failed_progress.
  - intros c. apply execute_keeps_progress.
    intros w r w' [= _ <-]. now apply keeps_progress_same.
  - intros c. apply execute_keeps_progress.
    intros w r w' [= _ <-]. now apply keeps_progress_same.
Qed.

(** ** What the send attempts record *)

Section Dispatch.
Variable personalize : string -> customer -> string.

Lemma attempted_nil m : attempted [] m m.
Proof. split; [apply same_row_refl|]. split; [intros []|reflexivity]. Qed.

Lemma attempted_cons i ids m0 m1 m2 :
  attempted [i] m0 m1 -> attempted ids m1 m2 -> attempted (i :: ids) m0 m2.
Proof.
  intros (S1 & In1 & Out1) (S2 & In2 & Out2).
  assert (Hid : id m1 = id m0) by apply S1.
  split; [eapply same_row_trans; eassumption|]. rewrite Hid in In2, Out2.
  destruct (in_dec Nat.eq_dec (id m0) ids) as [Hin|Hout].
  - split; [auto|]. intros H. exfalso. apply H. now right.
  - rewrite (Out2 Hout). split.
    + intros [Heq|Hin]; [|contradiction]. apply In1. now left.
    + intros H. apply Out1. intros [Heq|[]]. apply H. now left.
Qed.

Lemma update_message_attempted mid f ms :
  (forall m, same_row m (f m) /\ recorded (f m)) ->
  Forall2 (attempted [mid]) ms (update_message mid f ms).
Proof.
  intros Hf. induction ms as [|m ms IH]; simpl; constructor; [|exact IH].
  destruct (Nat.eqb_spec (id m) mid) as [Heq|Hne].
  - destruct (Hf m) as [Hsame Hrec]. split; [exact Hsame|]. split; [auto|].
    intros H. exfalso. apply H. now left.
  - split; [apply same_row_refl|]. split; [|reflexivity].
    intros [H|[]]. congruence.
Qed.

Lemma mark_sent_recorded v t m :
  same_row m (mark_sent v t m) /\ recorded (mark_sent v t m).
Proof. repeat split; discriminate. Qed.

Lemma mark_failed_recorded reason t m :
  same_row m (mark_failed reason t m) /\ recorded (mark_failed reason t m).
Proof. repeat split; discriminate. Qed.

Lemma send_message_attempted log w w' :
  send_message log w = (Ok tt, w') ->
  Forall2 (attempted [log_id log]) (communication_log w) (communication_log w').
Proof.
  unfold send_message. intros H.
  apply try_catch_ok in H as [H|(e & w1 & Hraise & H)].
  - apply bind_ok in H as (r & wa & Hr & H). injection Hr as _ <-.
    destruct (vendor_accepts _).
    + apply bind_ok in H as (t & wb & Ht & H). injection Ht as _ <-.
      apply execute_ok in H as [_ H]. injection H as <-.
      apply update_message_attempted, mark_sent_recorded.
    + apply execute_ok in H as [_ H]. injection H as <-.
      apply update_message_attempted, mark_failed_recorded.
  - apply send_attempt_raising in Hraise as [Hlog _].
    apply execute_ok in H as [_ H]. injection H as <-. simpl.
    rewrite Hlog. apply update_message_attempted, mark_failed_recorded.
Qed.

Lemma send_loop_attempted logs :
  forall w w',
    for_each logs send_message w = (Ok tt, w') ->
    Forall2 (attempted (map log_id logs))
      (communication_log w) (communication_log w').
Proof.
  induction logs as [|log logs IH]; intros w w'; simpl.
  - intros [= <-]. apply Forall2_refl, attempted_nil.
  - intros H. apply bind_ok in H as ([] & w1 & Hone & Hrest).
    eapply Forall2_compose;
      [apply attempted_cons | apply send_message_attempted, Hone
      | apply IH, Hrest].
Qed.

Lemma entries_ids i tpl customers :
  map log_id (entries personalize i tpl customers) =
  seq i (List.length customers).
Proof.
  revert i. induction customers as [|c rest IH]; intros i; simpl;
    [reflexivity|].
  now rewrite IH.
Qed.

Lemma untouched_rows ids ms ms' :
  Forall2 (attempted ids) ms ms' ->
  Forall (fun m => ~ In (id m) ids) ms ->
  ms' = ms.
Proof.
  induction 1 as [|m m' ms ms' (_ & _ & Hout) _ IH]; [reflexivity|].
  intros Hall. inversion Hall; subst. f_equal; auto.
Qed.

Lemma attempted_rows ids ms ms' :
  Forall2 (attempted ids) ms ms' ->
  incl (map id ms) ids ->
  map id ms' = map id ms /\
  map campaign_id ms' = map campaign_id ms /\
  map customer_id ms' = map customer_id ms /\
  map message_content ms' = map message_content ms /\
  Forall recorded ms'.
Proof.
  induction 1 as [|m m' ms ms' (Hsame & Hin & _) _ IH]; simpl; intros Hincl.
  - repeat split; constructor.
  - destruct IH as (I1 & I2 & I3 & I4 & I5).
    { intros x Hx. apply Hincl. now right. }
    destruct Hsame as (S1 & S2 & S3 & S4).
    repeat split; try (f_equal; assumption).
    constructor; [|exact I5]. apply Hin, Hincl. now left.
Qed.

Lemma pending_rows_contents i cid tpl t customers :
  map campaign_id (pending_rows personalize i cid tpl t customers) =
    repeat cid (List.length customers) /\
  map message_content (pending_rows personalize i cid tpl t customers) =
    map (personalize tpl) customers.
Proof.
  revert i. induction customers as [|c rest IH]; intros i; simpl;
    [split; reflexivity|].
  destruct (IH (S i)) as [-> ->]. split; reflexivity.
Qed.

End Dispatch.

End DispatchSteps.

Module DispatchOutcomes.
Import Store Sql Http Segments Campaigns Pipeline Phases Invariants Scenarios.
Import StoreFacts DispatchFacts SegmentFacts DispatchSteps.

Section Dispatch.
Variable personalize : string -> customer -> string.

(** X10.  When the segment of the campaign is missing, or its rules do
    not parse, or the compiler raises on them, or the query for the
    customers fails, and the database fails none of the (at most three)
    statements issued, the dispatch raises that exception, marks the
    campaign [failed] (its status is [failed] afterwards), and has created
    no message. *)
Theorem dispatch_without_audience_fails_campaign cid sid tpl w e :
  audience sid w = Throw e ->
  database_up 3 w ->
  exists w',
    sendCampaignMessages personalize cid sid tpl w = (Throw e, w') /\
    communication_log w' = communication_log w /\
    campaigns w' = update_campaign cid campaign_failed (campaigns w) /\
    (forall c,
        In c (campaigns w') -> camp_id c = cid ->
        camp_status c = CampaignFailed) /\
    exists before,
      issued w' = issued w ++ before ++ [UpdateCampaignFailed cid] /\
      (before = [SelectSegmentRules sid] \/
       exists q ps, before = [SelectSegmentRules sid; SelectCustomers q ps]).
Proof.
  unfold audience. intros Haud Hup.
  destruct (database_up_step 2 (SelectSegmentRules sid) w Hup) as [H0 Hup1].
  unfold sendCampaignMessages, try_catch, dispatch, bind at 1 2.
  unfold select_segment_rules. rewrite (execute_run _ _ _ H0).
  cbn [snd fst]. set (wa := snd (submit (SelectSegmentRules sid) w)) in *.
  change (segments wa) with (segments w).
  destruct (filter _ (segments w)) as [|row rows].
  { injection Haud as <-. unfold throw, bind, update_campaign_failed.
    destruct (database_up_step 1 (SelectSegmentRules sid) wa Hup1) as [H1 _].
    rewrite (execute_run _ _ _ H1). eexists. split; [reflexivity|].
    simpl. split; [reflexivity|]. split; [reflexivity|].
    split; [apply update_campaign_failed_status|].
    exists [SelectSegmentRules sid]. split; [now rewrite <- app_assoc|].
    now left. }
  unfold bind, lift.
  destruct (parsed row) as [rules|e1].
  2:{ injection Haud as <-. unfold update_campaign_failed.
      destruct (database_up_step 1 (SelectSegmentRules sid) wa Hup1) as [H1 _].
      rewrite (execute_run _ _ _ H1). eexists. split; [reflexivity|].
      simpl. split; [reflexivity|]. split; [reflexivity|].
    split; [apply update_campaign_failed_status|].
      exists [SelectSegmentRules sid]. split; [now rewrite <- app_assoc|].
      now left. }
  destruct (Compiler.buildSegmentQuery rules) as [cq|e1].
  2:{ injection Haud as <-. unfold update_campaign_failed.
      destruct (database_up_step 1 (SelectSegmentRules sid) wa Hup1) as [H1 _].
      rewrite (execute_run _ _ _ H1). eexists. split; [reflexivity|].
      simpl. split; [reflexivity|]. split; [reflexivity|].
    split; [apply update_campaign_failed_status|].
      exists [SelectSegmentRules sid]. split; [now rewrite <- app_assoc|].
      now left. }
  destruct (database_up_step 1
              (SelectCustomers (Compiler.query cq) (Compiler.params cq))
              wa Hup1) as [H1 Hup2].
  unfold select_customers. rewrite (execute_run _ _ _ H1). cbn [snd fst].
  set (wb := snd (submit _ wa)) in *.
  change (customers_where wb) with (customers_where w). rewrite Haud.
  destruct (database_up_step 0 (SelectSegmentRules sid) wb Hup2) as [H2 _].
  unfold update_campaign_failed. rewrite (execute_run _ _ _ H2).
  eexists. split; [reflexivity|].
  simpl. split; [reflexivity|]. split; [reflexivity|].
    split; [apply update_campaign_failed_status|].
  exists [SelectSegmentRules sid;
          SelectCustomers (Compiler.query cq) (Compiler.params cq)].
  split; [now rewrite <- !app_assoc|]. right. eauto.
Qed.

(** X11.  When the segment selects no customer and the database fails
    none of the three statements issued, the dispatch creates no message,
    marks the campaign [sent] and reports zero messages. *)
Theorem dispatch_to_empty_audience_marks_campaign_sent cid sid tpl w :
  audience sid w = Ok [] ->
  database_up 3 w ->
  exists w',
    sendCampaignMessages personalize cid sid tpl w =
      (Ok {| totalSent := 0; success := true |}, w') /\
    communication_log w' = communication_log w /\
    campaigns w' =
      update_campaign cid (campaign_sent (clock w)) (campaigns w).
Proof.
  unfold audience. intros Haud Hup.
  destruct (database_up_step 2 (SelectSegmentRules sid) w Hup) as [H0 Hup1].
  unfold sendCampaignMessages, try_catch, dispatch, bind at 1.
  unfold select_segment_rules. rewrite (execute_run _ _ _ H0).
  cbn [snd fst]. set (wa := snd (submit (SelectSegmentRules sid) w)) in *.
  change (segments wa) with (segments w).
  destruct (filter _ (segments w)) as [|row rows]; [discriminate|].
  unfold bind, lift.
  destruct (parsed row) as [rules|e1]; [|discriminate].
  destruct (Compiler.buildSegmentQuery rules) as [cq|e1]; [|discriminate].
  destruct (database_up_step 1
              (SelectCustomers (Compiler.query cq) (Compiler.params cq))
              wa Hup1) as [H1 Hup2].
  unfold select_customers. rewrite (execute_run _ _ _ H1). cbn [snd fst].
  set (wb := snd (submit _ wa)) in *.
  change (customers_where wb) with (customers_where w). rewrite Haud.
  cbn [create_logs for_each ret].
  destruct (database_up_step 0 (SelectSegmentRules sid) wb Hup2) as [H2 _].
  unfold update_campaign_sent. rewrite (execute_run _ _ _ H2).
  eexists. split; [reflexivity|]. simpl. split; reflexivity.
Qed.

(** X12.  A dispatch that runs to its end, in a log whose identifiers
    are below the counter of the table, leaves every row that was there
    exactly as it was and appends one row per customer of the audience:
    numbered from the counter on, for the campaign and the customer, with
    the personalized text, and [sent] with its [sent_at] and vendor
    identifier or [failed] with its reason. *)
Theorem completed_dispatch_appends_recorded_messages cid sid tpl w s w' :
  sendCampaignMessages personalize cid sid tpl w = (Ok s, w') ->
  fresh_message_ids w ->
  exists customers added,
    audience sid w = Ok customers /\
    communication_log w' = communication_log w ++ added /\
    map id added = seq (next_message_id w) (List.length customers) /\
    map customer_id added = map cust_id customers /\
    map message_content added = map (personalize tpl) customers /\
    Forall (fun m => campaign_id m = cid /\ recorded m) added /\
    totalSent s = List.length customers.
Proof.
  intros H Hfresh. apply sendCampaignMessages_ok in H.
  destruct (dispatch_ok _ _ _ _ _ _ _ H)
    as (row & rows & rules & cq & customers & logs & wa & wb & w1 & w2
        & Hsel & Hparsed & Hcq & Hcust & Hlogs & Hsend & Hupd & ->).
  apply execute_ok in Hsel as [_ Hsel]. injection Hsel as Hrows <-.
  apply execute_ok in Hcust as [_ Hcust]. injection Hcust as Hcust <-.
  simpl in Hrows, Hcust.
  destruct (create_logs_ok _ _ _ _ _ _ _ Hlogs) as (Hlog1 & Hentries & _).
  simpl in Hlog1, Hentries.
  pose proof (send_loop_attempted _ _ _ Hsend) as Hloop.
  apply execute_ok in Hupd as [_ Hupd]. injection Hupd as <-. simpl.
  rewrite Hlog1 in Hloop.
  apply Forall2_app_inv_l in Hloop as (kept & added & Hkept & Hadded & ->).
  assert (Hids : map log_id logs =
                 seq (next_message_id w) (List.length customers)).
  { rewrite Hentries. apply entries_ids. }
  rewrite Hids in Hkept, Hadded.
  apply untouched_rows in Hkept.
  2:{ eapply Forall_impl; [|exact Hfresh]. simpl. intros m Hm Hin.
      apply in_seq in Hin. lia. }
  apply attempted_rows in Hadded as (A1 & A2 & A3 & A4 & A5).
  2:{ rewrite pending_rows_ids, entries_ids. apply incl_refl. }
  rewrite pending_rows_ids, entries_ids in A1.
  rewrite pending_rows_customers in A3.
  destruct (pending_rows_contents personalize (next_message_id w) cid tpl
              (clock w) customers) as [C1 C2].
  rewrite C1 in A2. rewrite C2 in A4.
  exists customers, added.
  split. { unfold audience. now rewrite Hrows, Hparsed, Hcq. }
  split; [now rewrite Hkept|]. split; [exact A1|]. split; [exact A3|].
  split; [exact A4|]. split.
  - apply Forall_forall. intros m Hm. split.
    + assert (Hin : In (campaign_id m) (map campaign_id added))
        by now apply in_map.
      rewrite A2 in Hin. now apply repeat_spec in Hin.
    + eapply Forall_forall in A5; eassumption.
  - simpl. rewrite Hentries. apply entries_length.
Qed.

(** X13.  However the dispatch ends, it removes no row from the log, no
    row that was there changes its campaign, customer or text, none goes
    back to [pending], and none becomes [bounced]. *)
Theorem dispatch_never_regresses_a_message cid sid tpl w r w' :
  sendCampaignMessages personalize cid sid tpl w = (r, w') ->
  exists kept added,
    communication_log w' = kept ++ added /\
    Forall2 never_regresses (communication_log w) kept.
Proof. intros H. exact (sendCampaignMessages_progress _ _ _ _ _ _ _ H). Qed.

End Dispatch.

Lemma dispatch_without_audience_fails_campaign_witness :
  exists w',
    sendCampaignMessages no_placeholder 3 9 "Big sale today!" sample_world
      = (Throw (Error "Segment not found"), w') /\
    communication_log w' = communication_log sample_world /\
    campaigns w' =
      update_campaign 3 campaign_failed (campaigns sample_world) /\
    (forall c,
        In c (campaigns w') -> camp_id c = 3 ->
        camp_status c = CampaignFailed) /\
    exists before,
      issued w' = issued sample_world ++ before ++ [UpdateCampaignFailed 3] /\
      (before = [SelectSegmentRules 9] \/
       exists q ps, before = [SelectSegmentRules 9; SelectCustomers q ps]).
Proof.
  apply (dispatch_without_audience_fails_campaign no_placeholder 3 9
           "Big sale today!" sample_world (Error "Segment not found")).
  - vm_compute; reflexivity.
  - intros k _. simpl. now destruct k.
Defined.

Lemma dispatch_to_empty_audience_marks_campaign_sent_witness :
  exists w',
    sendCampaignMessages no_placeholder 3 7 "Big sale today!" quiet_world =
      (Ok {| totalSent := 0; success := true |}, w') /\
    communication_log w' = communication_log quiet_world /\
    campaigns w' =
      update_campaign 3 (campaign_sent (clock quiet_world))
        (campaigns quiet_world).
Proof.
  apply (dispatch_to_empty_audience_marks_campaign_sent no_placeholder 3 7
           "Big sale today!" quiet_world).
  - vm_compute; reflexivity.
  - intros k _. simpl. now destruct k.
Defined.

Lemma completed_dispatch_appends_recorded_messages_witness :
  exists customers added,
    audience 7 receipt_world = Ok customers /\
    communication_log redispatched_world =
      communication_log receipt_world ++ added /\
    map id added =
      seq (next_message_id receipt_world) (List.length customers) /\
    map customer_id added = map cust_id customers /\
    map message_content added =
      map (no_placeholder "Big sale today!") customers /\
    Forall (fun m => campaign_id m = 3 /\ recorded m) added /\
    totalSent {| totalSent := 2; success := true |} = List.length customers.
Proof.
  apply (completed_dispatch_appends_recorded_messages no_placeholder 3 7
           "Big sale today!" receipt_world
           {| totalSent := 2; success := true |} redispatched_world).
  - vm_compute; reflexivity.
  - unfold fresh_message_ids. simpl. repeat constructor.
Defined.

Lemma dispatch_never_regresses_a_message_witness :
  exists kept added,
    communication_log redispatched_world = kept ++ added /\
    Forall2 never_regresses (communication_log receipt_world) kept.
Proof.
  apply (dispatch_never_regresses_a_message no_placeholder 3 7
           "Big sale today!" receipt_world
           (Ok {| totalSent := 2; success := true |}) redispatched_world).
  vm_compute; reflexivity.
Defined.

End DispatchOutcomes.

(* ================================================================= *)
(** * Further properties of the delivery receipts *)

Module ReceiptSteps.
Import Store Sql Http Vendor Pipeline Receipts Invariants.
Import StoreFacts ReceiptFacts DispatchSteps.

(** ** A relation every statement of the handler keeps is kept by the
    handler *)

Section Receipt.
Variable R : world -> world -> Prop.
Variable req : receipt.
Hypothesis R_refl : forall w, R w w.
Hypothesis R_trans : forall w1 w2 w3, R w1 w2 -> R w2 w3 -> R w1 w3.
Hypothesis R_submit : forall stmt w, R w (snd (submit stmt w)).
Hypothesis R_delivered :
  forall mid outcome deliveredAt v,
    r_message_id req = Some mid -> r_status req = Some outcome ->
    outcome = "delivered" ->
    respects R (update_message_delivered mid deliveredAt v).
Hypothesis R_failed :
  forall mid outcome reason,
    r_message_id req = Some mid -> r_status req = Some outcome ->
    outcome = "failed" ->
    respects R (update_message_receipt_failed mid reason).
Hypothesis R_campaign_sent : forall cid, respects R (update_campaign_sent cid).

Lemma apply_receipt_respects mid outcome :
  r_message_id req = Some mid -> r_status req = Some outcome ->
  respects R (apply_receipt req mid outcome).
Proof.
  intros Hmid Hstatus. unfold apply_receipt.
  destruct (String.eqb_spec outcome "delivered") as [Hd|_].
  - apply respects_bind; [exact R_trans | now apply respects_now |].
    intros t. destruct (r_vendor_message_id req) as [v|];
      [|now apply respects_throw].
    now apply R_delivered with (outcome := outcome).
  - destruct (String.eqb_spec outcome "failed") as [Hf|_];
      [|now apply respects_ret].
    now apply R_failed with (outcome := outcome).
Qed.

Lemma deliveryReceipt_respects : respects R (deliveryReceipt req).
Proof.
  unfold deliveryReceipt.
  apply respects_try_catch; [exact R_trans | |];
    [|intros e; now apply respects_ret].
  destruct (r_message_id req) as [mid|] eqn:Hmid in |- *;
    [|now apply respects_ret].
  destruct (r_status req) as [outcome|] eqn:Hstatus in |- *;
    [|now apply respects_ret].
  destruct (missing_fields req); [now apply respects_ret|].
  apply respects_bind; [exact R_trans | now apply query_respects |].
  intros [|log logs]; [now apply respects_ret|].
  apply respects_bind;
    [exact R_trans | now apply apply_receipt_respects |].
  intros _.
  apply respects_bind; [exact R_trans | now apply query_respects |].
  intros stats.
  apply respects_bind; [exact R_trans | |].
  { destruct (_ && _); [apply R_campaign_sent | now apply respects_ret]. }
  intros _. now apply respects_ret.
Qed.

End Receipt.

(** ** The rows a receipt may change *)

Lemma receipt_effect_refl mid m : receipt_effect mid m m.
Proof. split; [apply same_row_refl|]. repeat split; auto. Qed.

Lemma receipt_effect_trans mid m1 m2 m3 :
  receipt_effect mid m1 m2 -> receipt_effect mid m2 m3 ->
  receipt_effect mid m1 m3.
Proof.
  intros (S1 & T1 & O1 & P1) (S2 & T2 & O2 & P2).
  assert (Hid : id m2 = id m1) by apply S1.
  split; [eapply same_row_trans; eassumption|].
  split; [congruence|]. split.
  - intros Hne. rewrite O2 by congruence. auto.
  - destruct P2 as [->|[->| ->]]; auto.
Qed.

Lemma touches_only_same mid w w' :
  communication_log w' = communication_log w -> touches_only mid w w'.
Proof.
  unfold touches_only. intros ->. apply Forall2_refl, receipt_effect_refl.
Qed.

Lemma touches_only_trans mid w1 w2 w3 :
  touches_only mid w1 w2 -> touches_only mid w2 w3 -> touches_only mid w1 w3.
Proof. apply Forall2_compose, receipt_effect_trans. Qed.

Lemma execute_touches_only {A} mid stmt (run : world -> result A * world) :
  (forall w r w', run w = (r, w') -> touches_only mid w w') ->
  respects (touches_only mid) (execute stmt run).
Proof.
  intros Hrun. apply respects_execute;
    [apply touches_only_trans | | exact Hrun].
  intros st w. now apply touches_only_same.
Qed.

Lemma deliveryReceipt_touches_only req mid :
  r_message_id req = Some mid ->
  respects (touches_only mid) (deliveryReceipt req).
Proof.
  intros Hmid. apply deliveryReceipt_respects.
  - intros w. now apply touches_only_same.
  - apply touches_only_trans.
  - intros st w. now apply touches_only_same.
  - intros mid' outcome deliveredAt v Hmid' _ _.
    rewrite Hmid in Hmid'. injection Hmid' as <-.
    apply execute_touches_only. intros w r w' [= _ <-].
    apply update_message_pointwise; [apply receipt_effect_refl|].
    intros m Hm. repeat split; auto. intros Hne. contradiction.
  - intros mid' outcome reason Hmid' _ _.
    rewrite Hmid in Hmid'. injection Hmid' as <-.
    apply execute_touches_only. intros w r w' [= _ <-].
    apply update_message_pointwise; [apply receipt_effect_refl|].
    intros m Hm. repeat split; auto. intros Hne. contradiction.
  - intros cid. apply execute_touches_only. intros w r w' [= _ <-].
    now apply touches_only_same.
Qed.

(** ** Receipts that ask for nothing *)

Lemma same_log_trans w1 w2 w3 : same_log w1 w2 -> same_log w2 w3 -> same_log w1 w3.
Proof. unfold same_log. congruence. Qed.

Lemma deliveryReceipt_same_log req :
  (forall outcome, r_status req = Some outcome -> receipt_status outcome = None) ->
  respects same_log (deliveryReceipt req).
Proof.
  intros Hunknown. apply deliveryReceipt_respects.
  - reflexivity.
  - apply same_log_trans.
  - reflexivity.
  - intros mid outcome deliveredAt v _ Hstatus ->.
    specialize (Hunknown _ Hstatus). discriminate.
  - intros mid outcome reason _ Hstatus ->.
    specialize (Hunknown _ Hstatus). discriminate.
  - intros cid. apply respects_execute; [apply same_log_trans | reflexivity|].
    now intros w r w' [= _ <-].
Qed.

End ReceiptSteps.

Module ReceiptOutcomes.
Import Store Sql Http Vendor Pipeline Receipts Invariants Scenarios.
Import StoreFacts ReceiptFacts DispatchSteps ReceiptSteps.

(** X15.  Whatever the handler of the delivery receipts answers, it has
    changed no row but the one the receipt names: every other row is
    exactly as it was; that row is still the same message, with the
    [sent_at] it had, and its status is the one it had, [delivered] or
    [failed].  A receipt that names no message changes nothing. *)
Theorem receipt_changes_only_its_message req w resp w' :
  deliveryReceipt req w = (Ok resp, w') ->
  match r_message_id req with
  | Some mid =>
      Forall2 (receipt_effect mid) (communication_log w) (communication_log w')
  | None => w' = w
  end.
Proof.
  intros H. destruct (r_message_id req) as [mid|] eqn:Hmid.
  - exact (deliveryReceipt_touches_only req mid Hmid _ _ _ H).
  - unfold deliveryReceipt, try_catch in H. rewrite Hmid in H.
    now injection H as _ <-.
Qed.

(** X16.  A receipt that is answered neither 200 nor 500 has written
    nothing: it lacked a message identifier or a status and was answered
    400 before any statement was issued, or it named a message that is not
    in the log and was answered 404 after the lookup. *)
Theorem rejected_receipt_writes_nothing req w resp w' :
  deliveryReceipt req w = (Ok resp, w') ->
  code resp <> 200 -> code resp <> 500 ->
  same_tables w w' /\
  ((code resp = 400 /\ missing_fields req = true /\ w' = w) \/
   (code resp = 404 /\
    exists mid,
      r_message_id req = Some mid /\
      (forall m, In m (communication_log w) -> id m <> mid) /\
      issued w' = issued w ++ [SelectMessage mid])).
Proof.
  unfold deliveryReceipt. intros H H200 H500.
  apply try_catch_ok in H as [H|(e & w1 & _ & H)].
  2:{ injection H as <- _. contradiction H500. reflexivity. }
  assert (Hsame : same_tables w w) by (repeat split).
  destruct (r_message_id req) as [mid|] eqn:Hmid.
  2:{ injection H as <- <-. split; [exact Hsame|]. left.
      unfold missing_fields. rewrite Hmid. auto. }
  destruct (r_status req) as [outcome|] eqn:Hstatus.
  2:{ injection H as <- <-. split; [exact Hsame|]. left.
      unfold missing_fields. rewrite Hmid, Hstatus. auto. }
  destruct (missing_fields req) eqn:Hmissing.
  { injection H as <- <-. split; [exact Hsame|]. left. auto. }
  apply bind_ok in H as ([|log logs] & wa & Hsel & H).
  - apply execute_ok in Hsel as [_ Hsel]. injection Hsel as Hsel <-.
    injection H as <- <-. simpl in Hsel. split; [repeat split|]. right.
    split; [reflexivity|]. exists mid. split; [reflexivity|].
    split; [|reflexivity].
    intros m Hin Hid.
    assert (Hm : In m (filter (fun m => (id m =? mid)%nat)
                         (communication_log w))).
    { apply filter_In. split; [exact Hin | now apply Nat.eqb_eq]. }
    rewrite Hsel in Hm. destruct Hm.
  - apply bind_ok in H as ([] & wb & _ & H).
    apply bind_ok in H as (stats & wc & _ & H).
    apply bind_ok in H as ([] & wd & _ & H).
    injection H as <- _. contradiction H200. reflexivity.
Qed.

(** X17.  A receipt whose status is neither ['delivered'] nor ['failed']
    changes no message, whatever the handler answers. *)
Theorem receipt_with_other_status_changes_no_message req w resp w' outcome :
  deliveryReceipt req w = (Ok resp, w') ->
  r_status req = Some outcome ->
  receipt_status outcome = None ->
  communication_log w' = communication_log w.
Proof.
  intros H Hstatus Hnone.
  apply (deliveryReceipt_same_log req) in H; [exact H|].
  intros outcome' Hstatus'. congruence.
Qed.

Lemma receipt_changes_only_its_message_witness :
  Forall2 (receipt_effect 1)
    (communication_log receipt_world) (communication_log delivered_world).
Proof.
  refine (receipt_changes_only_its_message delivered_receipt receipt_world
            {| code := 200; body := ReceiptProcessed |} delivered_world _).
  vm_compute; reflexivity.
Defined.

Lemma rejected_receipt_writes_nothing_witness :
  same_tables receipt_world unknown_message_world /\
  ((404 = 400 /\ missing_fields unknown_message = true /\
    unknown_message_world = receipt_world) \/
   (404 = 404 /\
    exists mid,
      r_message_id unknown_message = Some mid /\
      (forall m, In m (communication_log receipt_world) -> id m <> mid) /\
      issued unknown_message_world =
        issued receipt_world ++ [SelectMessage mid])).
Proof.
  apply (rejected_receipt_writes_nothing unknown_message receipt_world
           {| code := 404; body := ErrorMessage "Message not found" |}
           unknown_message_world).
  - vm_compute; reflexivity.
  - simpl; lia.
  - simpl; lia.
Defined.

Lemma receipt_with_other_status_changes_no_message_witness :
  communication_log read_world = communication_log receipt_world.
Proof.
  apply (receipt_with_other_status_changes_no_message read_receipt
           receipt_world {| code := 200; body := ReceiptProcessed |}
           read_world "read").
  - vm_compute; reflexivity.
  - reflexivity.
  - reflexivity.
Defined.

End ReceiptOutcomes.

(* ================================================================= *)
(** * The statistics of a campaign and the completion test *)

Module StatisticsProperties.
Import Store Sql Receipts Statistics.

Lemma status_partition rows :
  List.length rows =
  List.length (filter (has_status Sent) rows)
  + List.length (filter (has_status Failed) rows)
  + List.length (filter (has_status Delivered) rows)
  + List.length (filter (has_status Pending) rows)
  + List.length (filter (has_status Bounced) rows).
Proof.
  induction rows as [|m rows IH]; [reflexivity|].
  unfold has_status in *. simpl. destruct (status m); simpl; lia.
Qed.

Lemma processed_partition rows :
  List.length (filter (fun m => processed_status (status m)) rows) =
  List.length (filter (has_status Sent) rows)
  + List.length (filter (has_status Failed) rows)
  + List.length (filter (has_status Delivered) rows).
Proof.
  induction rows as [|m rows IH]; [reflexivity|].
  unfold has_status in *. simpl. destruct (status m); simpl; lia.
Qed.


End StatisticsProperties.

(* ================================================================= *)
(** * Receipts that are processed, and the vendor that posts them *)

Module ProcessedReceipts.
Import Store Sql Http Vendor Pipeline Receipts Invariants.
Import StoreFacts ReceiptFacts DispatchSteps ReceiptSteps.

Lemma database_up_faults n w w' :
  faults w' = faults w -> database_up n w -> database_up n w'.
Proof. unfold database_up. now intros ->. Qed.

Lemma database_up_weaken n w : database_up (S n) w -> database_up n w.
Proof. unfold database_up. intros H k Hk. apply H. lia. Qed.

Lemma missing_fields_false req :
  missing_fields req = false ->
  exists mid outcome,
    r_message_id req = Some mid /\ r_status req = Some outcome.
Proof.
  unfold missing_fields.
  destruct (r_message_id req) as [mid|]; [|discriminate].
  destruct (r_status req) as [outcome|]; [|discriminate]. eauto.
Qed.

(** The update of the message goes through when the database is up and a
    [delivered] receipt carries the identifier of the vendor. *)
Lemma apply_receipt_runs n req mid outcome w :
  database_up (S n) w ->
  (outcome = "delivered" -> r_vendor_message_id req <> None) ->
  exists w1,
    apply_receipt req mid outcome w = (Ok tt, w1) /\ database_up n w1.
Proof.
  intros Hup Hvendor. unfold apply_receipt.
  destruct (String.eqb_spec outcome "delivered") as [Hd|_].
  - specialize (Hvendor Hd).
    destruct (r_vendor_message_id req) as [v|]; [|contradiction].
    unfold bind, now, update_message_delivered.
    destruct (database_up_step n
                (UpdateMessageDelivered mid (delivery_time req (clock w)) v)
                w Hup) as [H0 Hup1].
    rewrite (execute_run _ _ _ H0). eexists. split; [reflexivity|].
    eapply database_up_faults; [|exact Hup1]. reflexivity.
  - destruct (outcome =? "failed").
    + unfold update_message_receipt_failed.
      destruct (database_up_step n
                  (UpdateMessageReceiptFailed mid
                     (or_else (r_failure_reason req) "Unknown error"))
                  w Hup) as [H0 Hup1].
      rewrite (execute_run _ _ _ H0). eexists. split; [reflexivity|].
      eapply database_up_faults; [|exact Hup1]. reflexivity.
    + eexists. split; [reflexivity|]. now apply database_up_weaken.
Qed.

Lemma deliveryReceipt_runs req w mid m :
  missing_fields req = false ->
  r_message_id req = Some mid ->
  In m (communication_log w) -> id m = mid ->
  (r_status req = Some "delivered" -> r_vendor_message_id req <> None) ->
  database_up 4 w ->
  exists w',
    deliveryReceipt req w =
      (Ok {| code := 200; body := ReceiptProcessed |}, w').
Proof.
  intros Hmissing Hmid Hin Hid Hvendor Hup.
  destruct (missing_fields_false _ Hmissing)
    as (mid' & outcome & Hmid' & Hstatus).
  rewrite Hmid in Hmid'. injection Hmid' as <-.
  unfold deliveryReceipt, try_catch. rewrite Hmid, Hstatus, Hmissing.
  destruct (database_up_step 3 (SelectMessage mid) w Hup) as [H0 Hup1].
  unfold bind at 1, select_message. rewrite (execute_run _ _ _ H0).
  cbn [fst snd]. set (wa := snd (submit (SelectMessage mid) w)) in *.
  change (communication_log wa) with (communication_log w).
  destruct (filter _ (communication_log w)) as [|log logs] eqn:Hsel.
  { assert (Hm : In m (filter (fun m => (id m =? mid)%nat)
                         (communication_log w))).
    { apply filter_In. split; [exact Hin | now apply Nat.eqb_eq]. }
    rewrite Hsel in Hm. destruct Hm. }
  destruct (apply_receipt_runs 2 req mid outcome wa Hup1) as (wb & Happly & Hup2).
  { intros ->. now apply Hvendor. }
  unfold bind at 1. rewrite Happly.
  destruct (database_up_step 1 (SelectCampaignStats (campaign_id log)) wb Hup2)
    as [H2 Hup3].
  unfold bind at 1, select_campaign_stats. rewrite (execute_run _ _ _ H2).
  cbn [fst snd].
  set (wc := snd (submit (SelectCampaignStats (campaign_id log)) wb)) in *.
  unfold bind. destruct (_ && _).
  - destruct (database_up_step 0 (UpdateCampaignSent (campaign_id log)) wc Hup3)
      as [H3 _].
    unfold update_campaign_sent. rewrite (execute_run _ _ _ H3).
    eexists. reflexivity.
  - eexists. reflexivity.
Qed.

End ProcessedReceipts.

Module VendorSteps.
Import Store Sql Http Campaigns Vendor Pipeline Receipts Invariants VendorApi.
Import StoreFacts ReceiptFacts DispatchSteps ReceiptSteps ProcessedReceipts.

Lemma random_tables w :
  communication_log (snd (random w)) = communication_log w /\
  campaigns (snd (random w)) = campaigns w /\
  clock (snd (random w)) = clock w /\
  faults (snd (random w)) = faults w.
Proof. repeat split. Qed.

Lemma deliveryData_acceptable mid cust iso t :
  mid <> 0 ->
  missing_fields (deliveryData mid cust iso t) = false /\
  receipt_status "delivered" = Some Delivered /\
  r_vendor_message_id (deliveryData mid cust iso t) <> None.
Proof.
  intros Hmid. unfold missing_fields. simpl.
  apply Nat.eqb_neq in Hmid. rewrite Hmid. repeat split. discriminate.
Qed.

Lemma failureData_acceptable mid iso reason :
  mid <> 0 ->
  missing_fields (failureData mid iso reason) = false /\
  receipt_status "failed" = Some Failed.
Proof.
  intros Hmid. unfold missing_fields. simpl.
  apply Nat.eqb_neq in Hmid. rewrite Hmid. repeat split.
Qed.

Lemma missing_send_fields_false req :
  missing_send_fields req = false ->
  exists mid cust text,
    s_message_id req = Some mid /\ s_customer_id req = Some cust /\
    s_message_content req = Some text /\ mid <> 0.
Proof.
  unfold missing_send_fields.
  destruct (s_message_id req) as [mid|]; [|discriminate].
  destruct (s_customer_id req) as [cust|]; [|discriminate].
  destruct (s_message_content req) as [text|]; [|discriminate].
  intros H. apply orb_false_iff in H as [H _].
  apply orb_false_iff in H as [H _]. apply Nat.eqb_neq in H.
  exists mid, cust, text. auto.
Qed.

Lemma second_draw w :
  hd 0%Q (randoms (snd (random w))) = nth 1 (randoms w) 0%Q.
Proof. simpl. destruct (randoms w) as [|a [|b l]]; reflexivity. Qed.

Lemma random_ok w r w1 :
  random w = (Ok r, w1) -> r = hd 0%Q (randoms w) /\ w1 = snd (random w).
Proof. intros [= <- <-]. split; reflexivity. Qed.

Lemma now_ok w t w1 : now w = (Ok t, w1) -> t = clock w /\ w1 = w.
Proof. intros [= <- <-]. split; reflexivity. Qed.

Lemma notify_never_raises post url data w e w' :
  notify post url data w = (Throw e, w') -> False.
Proof.
  unfold notify. destruct url as [u|]; [|discriminate].
  destruct (u =? ""); [discriminate|]. unfold try_catch.
  destruct (post u data w) as [[a|e'] w1]; discriminate.
Qed.

Section Callback.
Variable toISOString : nat -> string.
Variable post : string -> receipt -> io unit.

(** A run of the vendor that answers went through the field check and,
    past it, through the draws and the notification; none raises. *)
Lemma vendorSend_ok req w resp w' :
  vendorSend toISOString post req w = (Ok resp, w') ->
  (missing_send_fields req = true /\ send_code resp = 400 /\ w' = w) \/
  exists mid cust data w1,
    s_message_id req = Some mid /\ s_customer_id req = Some cust /\
    notify post (s_callback_url req) data w1 = (Ok tt, w') /\
    r_message_id data = Some mid /\
    missing_fields data = false /\
    ((vendor_accepts (nth 1 (randoms w) 0%Q) = true /\
      w1 = snd (random (snd (random w))) /\
      data = deliveryData mid cust (toISOString (clock w)) (clock w) /\
      send_code resp = 200 /\
      exists vendorMessageId estimatedDelivery,
        r_vendor_message_id data = Some vendorMessageId /\
        send_body resp = Accepted mid vendorMessageId estimatedDelivery) \/
     (vendor_accepts (nth 1 (randoms w) 0%Q) = false /\
      w1 = snd (random (snd (random (snd (random w))))) /\
      exists reason,
        data = failureData mid (toISOString (clock w)) reason /\
        send_code resp = 400 /\
        send_body resp = Rejected mid reason)).
Proof.
  unfold vendorSend. intros H.
  destruct (missing_send_fields req) eqn:Hmissing.
  { left. split; [reflexivity|]. unfold try_catch in H.
    destruct (s_message_id req); [|now injection H as <- <-].
    destruct (s_customer_id req); [|now injection H as <- <-].
    destruct (s_message_content req); now injection H as <- <-. }
  right.
  destruct (missing_send_fields_false _ Hmissing)
    as (mid & cust & text & Hmid & Hcust & Htext & Hnonzero).
  rewrite Hmid, Hcust, Htext in H.
  apply try_catch_ok in H as [H|(e & wx & Hraise & _)].
  2:{ exfalso.
      apply bind_throw in Hraise as [Hraise|(x & wa & _ & Hraise)];
        [discriminate|].
      apply bind_throw in Hraise as [Hraise|(r & wb & _ & Hraise)];
        [discriminate|].
      destruct (vendor_accepts r).
      - apply bind_throw in Hraise as [Hraise|(d & wc & _ & Hraise)];
          [discriminate|].
        apply bind_throw in Hraise as [Hraise|(t & wd & _ & Hraise)];
          [discriminate|].
        apply bind_throw in Hraise as [Hraise|([] & we & _ & Hraise)];
          [now apply notify_never_raises in Hraise|].
        apply bind_throw in Hraise as [Hraise|(t' & wf & _ & Hraise)];
          discriminate.
      - apply bind_throw in Hraise as [Hraise|(r' & wc & _ & Hraise)];
          [discriminate|].
        apply bind_throw in Hraise as [Hraise|(d & wd & _ & Hraise)];
          [discriminate|].
        apply bind_throw in Hraise as [Hraise|([] & we & _ & Hraise)];
          [now apply notify_never_raises in Hraise|].
        discriminate. }
  apply bind_ok in H as (x & wa & Hx & H).
  apply random_ok in Hx as [_ ->].
  apply bind_ok in H as (r & wb & Hr & H).
  apply random_ok in Hr as [-> ->]. rewrite second_draw in H.
  destruct (vendor_accepts (nth 1 (randoms w) 0%Q)) eqn:Haccepts.
  - apply bind_ok in H as (d & wc & Hd & H). apply now_ok in Hd as [-> ->].
    apply bind_ok in H as (t & wd & Ht & H). apply now_ok in Ht as [-> ->].
    apply bind_ok in H as ([] & we & Hn & H).
    apply bind_ok in H as (t' & wf & Ht' & H). apply now_ok in Ht' as [-> ->].
    injection H as <- <-.
    change (clock (snd (random (snd (random w))))) with (clock w) in Hn.
    eexists mid, cust, _, _.
    split; [exact Hmid|]. split; [exact Hcust|]. split; [exact Hn|].
    split; [reflexivity|].
    split; [now apply deliveryData_acceptable|]. left.
    split; [reflexivity|]. split; [reflexivity|]. split; [reflexivity|].
    split; [reflexivity|]. do 2 eexists. split; reflexivity.
  - apply bind_ok in H as (r' & wc & Hr' & H).
    apply random_ok in Hr' as [-> ->].
    apply bind_ok in H as (d & wd & Hd & H). apply now_ok in Hd as [-> ->].
    apply bind_ok in H as ([] & we & Hn & H).
    injection H as <- <-.
    change (clock (snd (random (snd (random (snd (random w)))))))
      with (clock w) in Hn.
    eexists mid, cust, _, _.
    split; [exact Hmid|]. split; [exact Hcust|]. split; [exact Hn|].
    split; [reflexivity|].
    split; [now apply failureData_acceptable|]. right.
    split; [reflexivity|]. split; [reflexivity|].
    eexists. repeat split.
Qed.

End Callback.

(** With the receipt endpoint as its callback, the vendor always
    answers. *)
Lemma vendorSend_answers toISOString post req w :
  exists resp w', vendorSend toISOString post req w = (Ok resp, w').
Proof.
  unfold vendorSend, try_catch.
  match goal with |- context [match ?m w with _ => _ end] =>
    destruct (m w) as [[resp|e] w1] end; do 2 eexists; reflexivity.
Qed.

End VendorSteps.

Module VendorProperties.
Import Store Sql Http Campaigns Vendor Pipeline Receipts Invariants VendorApi.
Import Scenarios.
Import StoreFacts ReceiptFacts DispatchSteps ReceiptSteps ProcessedReceipts.
Import VendorSteps.

(** X19.  A receipt that names a message of the log and gives a status
    is processed and answered 200 when the database carries out the
    statements of the handler, provided a [delivered] receipt carries the
    identifier given by the vendor. *)
Theorem acceptable_receipt_is_processed req w mid m :
  missing_fields req = false ->
  r_message_id req = Some mid ->
  In m (communication_log w) -> id m = mid ->
  (r_status req = Some "delivered" -> r_vendor_message_id req <> None) ->
  database_up 4 w ->
  exists w',
    deliveryReceipt req w =
      (Ok {| code := 200; body := ReceiptProcessed |}, w').
Proof. apply deliveryReceipt_runs. Qed.

Lemma acceptable_receipt_is_processed_witness :
  exists w',
    deliveryReceipt delivered_receipt receipt_world =
      (Ok {| code := 200; body := ReceiptProcessed |}, w').
Proof.
  apply (acceptable_receipt_is_processed delivered_receipt receipt_world 1
           message_1).
  - reflexivity.
  - reflexivity.
  - left. reflexivity.
  - reflexivity.
  - intros _. discriminate.
  - intros k _. simpl. now destruct k.
Defined.

Section Callback.
Variable toISOString : nat -> string.
Variable post : string -> receipt -> io unit.

(** X20.  The simulated vendor never answers 500, whatever the callback
    does.  It answers 400 without drawing a random number or calling back
    when a required field is missing; otherwise the second number drawn
    decides: accepted, it answers 200 and notifies the callback of a
    [delivered] receipt that carries the vendor identifier it answers;
    rejected, it answers 400 and notifies the callback of a [failed]
    receipt with the reason it answers.  Either receipt names the message
    of the request and passes the field check of the receipt handler. *)
Theorem vendor_answers_and_notifies req w resp w' :
  vendorSend toISOString post req w = (Ok resp, w') ->
  (missing_send_fields req = true /\ send_code resp = 400 /\ w' = w) \/
  exists mid cust data w1,
    s_message_id req = Some mid /\ s_customer_id req = Some cust /\
    notify post (s_callback_url req) data w1 = (Ok tt, w') /\
    r_message_id data = Some mid /\
    missing_fields data = false /\
    ((vendor_accepts (nth 1 (randoms w) 0%Q) = true /\
      w1 = snd (random (snd (random w))) /\
      data = deliveryData mid cust (toISOString (clock w)) (clock w) /\
      send_code resp = 200 /\
      exists vendorMessageId estimatedDelivery,
        r_vendor_message_id data = Some vendorMessageId /\
        send_body resp = Accepted mid vendorMessageId estimatedDelivery) \/
     (vendor_accepts (nth 1 (randoms w) 0%Q) = false /\
      w1 = snd (random (snd (random (snd (random w))))) /\
      exists reason,
        data = failureData mid (toISOString (clock w)) reason /\
        send_code resp = 400 /\
        send_body resp = Rejected mid reason)).
Proof. apply vendorSend_ok. Qed.

End Callback.

Lemma vendor_answers_and_notifies_witness :
  (missing_send_fields send_message_1 = true /\
   send_code accepted_answer = 400 /\ notified_world = vendor_world) \/
  exists mid cust data w1,
    s_message_id send_message_1 = Some mid /\
    s_customer_id send_message_1 = Some cust /\
    notify receipt_endpoint (s_callback_url send_message_1) data w1
      = (Ok tt, notified_world) /\
    r_message_id data = Some mid /\
    missing_fields data = false /\
    ((vendor_accepts (nth 1 (randoms vendor_world) 0%Q) = true /\
      w1 = snd (random (snd (random vendor_world))) /\
      data = deliveryData mid cust (epoch_text (clock vendor_world))
               (clock vendor_world) /\
      send_code accepted_answer = 200 /\
      exists vendorMessageId estimatedDelivery,
        r_vendor_message_id data = Some vendorMessageId /\
        send_body accepted_answer =
          Accepted mid vendorMessageId estimatedDelivery) \/
     (vendor_accepts (nth 1 (randoms vendor_world) 0%Q) = false /\
      w1 = snd (random (snd (random (snd (random vendor_world))))) /\
      exists reason,
        data = failureData mid (epoch_text (clock vendor_world)) reason /\
        send_code accepted_answer = 400 /\
        send_body accepted_answer = Rejected mid reason)).
Proof.
  apply (vendor_answers_and_notifies epoch_text receipt_endpoint
           send_message_1 vendor_world accepted_answer notified_world).
  vm_compute; reflexivity.
Defined.

(** X21.  With the receipt endpoint of the application as its callback,
    the vendor settles a message of the log when the database carries out
    the statements of the receipt: the message is [delivered] and the
    answer 200 when the second number drawn accepts it, [failed] and the
    answer 400 otherwise; every other row of the log is as it was. *)
Theorem vendor_notification_settles_message toISOString req w mid url m :
  missing_send_fields req = false ->
  s_message_id req = Some mid ->
  s_callback_url req = Some url -> url <> "" ->
  In m (communication_log w) -> id m = mid ->
  database_up 4 w ->
  exists resp w',
    vendorSend toISOString receipt_endpoint req w = (Ok resp, w') /\
    send_code resp =
      (if vendor_accepts (nth 1 (randoms w) 0%Q) then 200 else 400) /\
    (forall m',
        In m' (communication_log w') -> id m' = mid ->
        status m' =
          if vendor_accepts (nth 1 (randoms w) 0%Q) then Delivered
          else Failed) /\
    Forall2 (receipt_effect mid) (communication_log w) (communication_log w').
Proof.
  intros Hmissing Hmid Hurl Hnonempty Hin Hid Hup.
  destruct (vendorSend_answers toISOString receipt_endpoint req w)
    as (resp & w' & Hrun).
  exists resp, w'. split; [exact Hrun|].
  apply vendorSend_ok in Hrun
    as [(Habs & _)|(mid' & cust & data & w1 & Hmid' & _ & Hn & Hdata
                    & Hfields & Hcases)]; [congruence|].
  rewrite Hmid in Hmid'. injection Hmid' as <-.
  assert (Hw1 : communication_log w1 = communication_log w /\
                faults w1 = faults w).
  { destruct Hcases as [(_ & -> & _)|(_ & -> & _)]; split; reflexivity. }
  destruct Hw1 as [Hlog1 Hfaults1].
  assert (Hvendor : r_status data = Some "delivered" ->
                    r_vendor_message_id data <> None).
  { destruct Hcases as [(_ & _ & -> & _)|(_ & _ & reason & -> & _)];
      [discriminate|]. simpl. discriminate. }
  destruct (deliveryReceipt_runs data w1 mid m Hfields Hdata) as (w2 & Hreceipt);
    [now rewrite Hlog1 | exact Hid | exact Hvendor
    | now apply (database_up_faults 4 w) |].
  unfold notify in Hn. rewrite Hurl in Hn.
  apply String.eqb_neq in Hnonempty. rewrite Hnonempty in Hn.
  unfold try_catch, receipt_endpoint, bind in Hn. rewrite Hreceipt in Hn.
  cbn in Hn. injection Hn as <-.
  pose proof (deliveryReceipt_touches_only data mid Hdata _ _ _ Hreceipt)
    as Htouch.
  unfold touches_only in Htouch. rewrite Hlog1 in Htouch.
  destruct (deliveryReceipt_ok _ _ _ _ Hreceipt eq_refl)
    as (mid2 & outcome & _ & _ & Hmid2 & Hstatus & _ & Hlog2 & _ & Hv).
  destruct Hcases as [(-> & _ & -> & -> & _)|(-> & _ & reason & -> & -> & _)].
  - split; [reflexivity|]. split; [|exact Htouch].
    simpl in Hmid2, Hstatus. injection Hmid2 as <-. injection Hstatus as <-.
    rewrite Hlog2.
    apply update_message_status, receipt_update_status;
      [reflexivity | exact Hv].
  - split; [reflexivity|]. split; [|exact Htouch].
    simpl in Hmid2, Hstatus. injection Hmid2 as <-. injection Hstatus as <-.
    rewrite Hlog2.
    apply update_message_status, receipt_update_status;
      [reflexivity | exact Hv].
Qed.

Lemma vendor_notification_settles_message_witness :
  exists resp w',
    vendorSend epoch_text receipt_endpoint send_message_1 vendor_world
      = (Ok resp, w') /\
    send_code resp =
      (if vendor_accepts (nth 1 (randoms vendor_world) 0%Q) then 200
       else 400) /\
    (forall m',
        In m' (communication_log w') -> id m' = 1 ->
        status m' =
          if vendor_accepts (nth 1 (randoms vendor_world) 0%Q) then Delivered
          else Failed) /\
    Forall2 (receipt_effect 1)
      (communication_log vendor_world) (communication_log w').
Proof.
  apply (vendor_notification_settles_message epoch_text send_message_1
           vendor_world 1
           "http://localhost:5000/api/vendor/delivery-receipt" message_1).
  - reflexivity.
  - reflexivity.
  - reflexivity.
  - discriminate.
  - left. reflexivity.
  - reflexivity.
  - intros k _. simpl. now destruct k.
Defined.

End VendorProperties.
